(** * HT-Grouper: Pauli operators and the local-Clifford synthesis formulator

    A shallow embedding of [src/q-library/pauli.h] and
    [src/q-library/find_ht_circuit.h].

    - [uint64_t] bit strings are integers in [0, 2^64) with the wrap-around
      written out; [int] values are integers.
    - [std::string_view] is [string].
    - Headers that are included but are not part of the sources
      ([binary_phase.h], [graph.h], [binary_pauli.h], [symbolic.h], the matrix
      utilities and the Gurobi C++ API) are modelled from the specification;
      each such definition says so. *)

From Stdlib Require Import ZArith List String Ascii Bool Lia.
From Stdlib Require Import QArith Qround Lqa DecimalString.
Import ListNotations.

Local Open Scope Z_scope.

(** ** 64-bit words *)

Module Word64.

Definition width : Z := 64.
Definition modulus : Z := 2 ^ width.

(** Reduction of an integer to an unsigned 64-bit word. *)
Definition wrap (a : Z) : Z := a mod modulus.

(** [a << b] on [unsigned long long].  A shift count outside [0, 64) is
    undefined in C++.  The instruction that the shift is compiled to uses
    the low six bits of the count, and so does this definition: the count is
    taken modulo 64.  Every statement below that depends on the value of a
    shift bounds its count by 64; the one exception is the example of a
    string of 65 characters, which shows what happens beyond. *)
Definition shl (a b : Z) : Z := wrap (Z.shiftl a (b mod width)).

(** [a >> b] on [unsigned long long]. *)
Definition shr (a b : Z) : Z := Z.shiftr a b.

(** [~a] on [unsigned long long]. *)
Definition complement (a : Z) : Z := wrap (Z.lnot a).

(** Conversion of the [int] value [-v] to [unsigned long long]. *)
Definition of_neg_int (v : Z) : Z := wrap (- v).

Fixpoint Ppopcount (p : positive) : Z :=
  match p with
  | xH => 1
  | xO p' => Ppopcount p'
  | xI p' => 1 + Ppopcount p'
  end.

(** [std::popcount] of an unsigned word. *)
Definition popcount (a : Z) : Z :=
  match a with
  | Zpos p => Ppopcount p
  | _ => 0
  end.

End Word64.

(** ** Binary phase *)

Module BinaryPhase.

(** Modelled from the spec: [binary_phase.h] is not part of the sources.  The
    specification describes it as a "tiny arithmetic mod-4 value type": a
    phase is a residue modulo 4, construction from an [int] and every
    arithmetic operator reduce modulo 4. *)
Definition t : Type := Z.

(** Modelled from the spec: construction from an [int], as in
    [BinaryPhase{ std::popcount(r & s) }]. *)
Definition make (v : Z) : t := v mod 4.

(** Modelled from the spec: the default-initialised phase. *)
Definition zero : t := 0.

(** Modelled from the spec: [phase += inc] and [a + b], modulo 4. *)
Definition add (a : t) (b : Z) : t := (a + b) mod 4.

(** Modelled from the spec: [phase -= dec] and [a - b], modulo 4. *)
Definition sub (a : t) (b : Z) : t := (a - b) mod 4.

(** Modelled from the spec: the phase marker of a rendered operator, "an
    [i]/[-i]/[-] phase prefix when phase is not 0"; the values are those the
    string constructor of [Pauli] assigns to the three markers. *)
Definition toString (a : t) : string :=
  if a =? 1 then "i"%string
  else if a =? 2 then "-"%string
  else if a =? 3 then "-i"%string
  else EmptyString.

End BinaryPhase.

(** ** Pauli operators ([pauli.h]) *)

Record Pauli : Type := mkPauli {
  r : Z;                      (* Bitstring r{} *)
  s : Z;                      (* Bitstring s{} *)
  n : Z;                      (* int n{ 1 } *)
  phase : BinaryPhase.t       (* BinaryPhase phase *)
}.

(** [constexpr Pauli() = default]. *)
Definition Pauli_default : Pauli := mkPauli 0 0 1 BinaryPhase.zero.

(** [explicit constexpr Pauli(int n)]. *)
Definition Pauli_of_int (n0 : Z) : Pauli := mkPauli 0 0 n0 BinaryPhase.zero.

Definition numQubits (p : Pauli) : Z := n p.

Definition x (p : Pauli) (qubit : Z) : Z := Z.land (Word64.shr (r p) qubit) 1.

Definition z (p : Pauli) (qubit : Z) : Z := Z.land (Word64.shr (s p) qubit) 1.

(** [r ^= (-value ^ r) & (1ULL << qubit)]. *)
Definition setX (p : Pauli) (qubit value : Z) : Pauli :=
  mkPauli
    (Z.lxor (r p)
       (Z.land (Z.lxor (Word64.of_neg_int value) (r p)) (Word64.shl 1 qubit)))
    (s p) (n p) (phase p).

(** [s ^= (-value ^ r) & (1ULL << qubit)]: the mask is computed from [r]. *)
Definition setZ (p : Pauli) (qubit value : Z) : Pauli :=
  mkPauli
    (r p)
    (Z.lxor (s p)
       (Z.land (Z.lxor (Word64.of_neg_int value) (r p)) (Word64.shl 1 qubit)))
    (n p) (phase p).

Definition getYPhase (p : Pauli) : BinaryPhase.t :=
  BinaryPhase.make (Word64.popcount (Z.land (r p) (s p))).

Definition getPhase (p : Pauli) : BinaryPhase.t :=
  BinaryPhase.sub (phase p) (getYPhase p).

Definition getXZPhase (p : Pauli) : BinaryPhase.t := phase p.

Definition increasePhase (p : Pauli) (phaseInc : Z) : Pauli :=
  mkPauli (r p) (s p) (n p) (BinaryPhase.add (phase p) phaseInc).

Definition decreasePhase (p : Pauli) (phaseDec : Z) : Pauli :=
  mkPauli (r p) (s p) (n p) (BinaryPhase.sub (phase p) phaseDec).

Definition SingleX (n0 qubit : Z) : Pauli := setX (Pauli_of_int n0) qubit 1.

Definition SingleZ (n0 qubit : Z) : Pauli := setZ (Pauli_of_int n0) qubit 1.

Definition pauliWeight (p : Pauli) : Z := Word64.popcount (Z.lor (r p) (s p)).

Definition identityCount (p : Pauli) : Z := n p - pauliWeight p.

Definition getIdentityString (p : Pauli) : Z := Word64.complement (Z.lor (r p) (s p)).

Definition getXString (p : Pauli) : Z := r p.

Definition getZString (p : Pauli) : Z := s p.

(** [constexpr std::array<char, 4> c{ 'I','X','Z','Y' }] indexed by
    [x(i) + z(i) * 2]. *)
Definition pauliChar (idx : Z) : ascii :=
  if idx =? 0 then "I"%char
  else if idx =? 1 then "X"%char
  else if idx =? 2 then "Z"%char
  else "Y"%char.

(** The loop [for (int i = 0; i < n; ++i) str += c[x(i) + z(i) * 2]], started
    at index [i] with [k] iterations left. *)
Fixpoint toStringFrom (p : Pauli) (i : Z) (k : nat) : string :=
  match k with
  | O => EmptyString
  | S k' => String (pauliChar (x p i + z p i * 2)) (toStringFrom p (i + 1) k')
  end.

Definition toString (p : Pauli) : string := toStringFrom p 0 (Z.to_nat (n p)).

(** One iteration of the [switch] in [fromStringOperator]. *)
Definition fromStringStep (c : ascii) (i : Z) (p : Pauli) : Pauli :=
  if Ascii.eqb c "I" then p
  else if Ascii.eqb c "X" then
    mkPauli (Z.lor (r p) (Word64.shl 1 i)) (s p) (n p) (phase p)
  else if Ascii.eqb c "Y" then
    mkPauli (Z.lor (r p) (Word64.shl 1 i)) (Z.lor (s p) (Word64.shl 1 i))
            (n p) (phase p)
  else if Ascii.eqb c "Z" then
    mkPauli (r p) (Z.lor (s p) (Word64.shl 1 i)) (n p) (phase p)
  else p.

Fixpoint fromStringLoop (str : string) (i : Z) (p : Pauli) : Pauli :=
  match str with
  | EmptyString => p
  | String c rest => fromStringLoop rest (i + 1) (fromStringStep c i p)
  end.

Definition fromStringOperator (p : Pauli) (str : string) : Pauli :=
  fromStringLoop str 0
    (mkPauli (r p) (s p) (Z.of_nat (String.length str)) (phase p)).

(** [std::string_view::starts_with] and [substr(pos)]. *)
Definition starts_with (str pre : string) : bool := String.prefix pre str.

Definition substr (str : string) (pos : nat) : string :=
  String.substring pos (String.length str - pos) str.

(** [Pauli::Pauli(std::string_view pauliString)]: the members start from
    their default initialisers, the [if]/[else if] chain consumes the phase
    marker, and [phase += getYPhase()] closes the constructor. *)
Definition Pauli_of_string (pauliString : string) : Pauli :=
  let p1 :=
    if starts_with pauliString "i" then
      fromStringOperator (increasePhase Pauli_default 1) (substr pauliString 1)
    else if starts_with pauliString "-i" then
      fromStringOperator (increasePhase Pauli_default 3) (substr pauliString 2)
    else if starts_with pauliString "-" then
      fromStringOperator (increasePhase Pauli_default 2) (substr pauliString 1)
    else
      fromStringOperator Pauli_default pauliString in
  increasePhase p1 (getYPhase p1).

(** The phase marker that the constructor consumes, and the part of the
    input that it hands to [fromStringOperator]. *)
Definition markerPart (pauliString : string) : string :=
  if starts_with pauliString "i" then "i"%string
  else if starts_with pauliString "-i" then "-i"%string
  else if starts_with pauliString "-" then "-"%string
  else EmptyString.

Definition operatorPart (pauliString : string) : string :=
  if starts_with pauliString "i" then substr pauliString 1
  else if starts_with pauliString "-i" then substr pauliString 2
  else if starts_with pauliString "-" then substr pauliString 1
  else pauliString.

(** The characters the [switch] of [fromStringOperator] has a case for. *)
Definition isPauliChar (c : ascii) : bool :=
  Ascii.eqb c "I" || Ascii.eqb c "X" || Ascii.eqb c "Y" || Ascii.eqb c "Z".



(** [std::formatter<Q::Pauli>::format]: the phase marker of [getPhase()] when
    it is not zero, followed by [toString()]. *)
Definition format (op : Pauli) : string :=
  let ph := getPhase op in
  String.append
    (if ph =? 0 then EmptyString else BinaryPhase.toString ph)
    (toString op).

(** [commutator(p1, p2)]. *)
Definition commutator (p1 p2 : Pauli) : Z :=
  Z.land
    (Word64.popcount (Z.lxor (Z.land (r p1) (s p2)) (Z.land (r p2) (s p1))))
    1.

(** The operators the data model describes: at most 64 qubits, no bits outside
    the string, a phase in [{0,1,2,3}]. *)
Definition wf (p : Pauli) : Prop :=
  0 <= n p <= 64 /\
  0 <= r p < 2 ^ n p /\
  0 <= s p < 2 ^ n p /\
  0 <= phase p < 4.

(** Helpers for the statements about the string constructor. *)

Definition hasX (c : ascii) : bool := Ascii.eqb c "X" || Ascii.eqb c "Y".
Definition hasZ (c : ascii) : bool := Ascii.eqb c "Y" || Ascii.eqb c "Z".

(** The bit that the characters of [str], read from index [i] on, leave at
    position [j]. *)
Definition bitFrom (sel : ascii -> bool) (str : string) (i j : Z) : bool :=
  if i <=? j then
    match String.get (Z.to_nat (j - i)) str with
    | Some c => sel c && (j <? 64)
    | None => false
    end
  else false.



(** The first character of a string is one of [I], [X], [Y], [Z] (or there is
    none). *)
Definition cleanStart (str : string) : Prop :=
  match str with
  | EmptyString => True
  | String c _ => isPauliChar c = true
  end.

(** The phase increment attached to each marker by the constructor. *)
Definition markerValue (marker : string) : Z :=
  if String.eqb marker "i" then 1
  else if String.eqb marker "-i" then 3
  else if String.eqb marker "-" then 2
  else 0.

(** The operator as it stands when [fromStringOperator] is entered. *)
Definition startOperator (phase0 : Z) : Pauli := mkPauli 0 0 1 phase0.


(** * The synthesis formulator ([find_ht_circuit.h]) *)

(** ** Graphs *)

(** Modelled from the spec: [graph.h] is not part of the sources.  A graph has
    "n vertices" and "a symmetric 0/1 adjacency matrix with zero diagonal";
    [getAdjacencyMatrix().cast<int>()] reads an entry as the integer 0 or 1. *)
Record Graph : Type := mkGraph {
  numVertices : nat;
  adjacent : nat -> nat -> bool
}.

(** ** Symbolic expressions *)

(** Modelled from the spec: [symbolic.h] is not part of the sources.  A
    variable is "a named symbolic unknown", identified by its name (see
    [symbolName] below). *)
Record SymbolicVariable : Type := mkVariable { name : string }.

(** Modelled from the spec: expressions are "sums of products of symbols and
    numeric coefficients", with ordinary (not GF(2)) arithmetic. *)
Inductive Expression : Type :=
| Number (c : Z)
| Symbol (v : SymbolicVariable)
| Plus (a b : Expression)
| Times (a b : Expression).

(** Modelled from the spec: a second-degree product of a simplified term, "a
    term with no nested sums". *)
Record Product : Type := mkProduct {
  factors : list Z;
  unknowns : list SymbolicVariable
}.

(** Modelled from the spec: the normal form of [simplified], "a set of numeric
    constants (to be summed), a set of first-degree variable occurrences (to
    be summed), and a set of second-degree products". *)
Record Term : Type := mkTerm {
  numbers : list Z;
  variables : list SymbolicVariable;
  products : list Product
}.

(** Modelled from the spec: a numeric coefficient times a product of
    symbols, the summand of a flattened expression. *)
Definition Monomial : Type := (Z * list SymbolicVariable)%type.

(** Modelled from the spec: "flattening nested sums", the expansion of an
    expression into a sum of monomials. *)
Fixpoint monomials (e : Expression) : list Monomial :=
  match e with
  | Number c => [(c, [])]
  | Symbol v => [(1, [v])]
  | Plus a b => monomials a ++ monomials b
  | Times a b =>
      flat_map
        (fun ma => map (fun mb => (fst ma * fst mb, snd ma ++ snd mb))
                       (monomials b))
        (monomials a)
  end.

(** Modelled from the spec: the three sets of a term.  A vanishing monomial
    disappears, a constant joins the numbers, a symbol with coefficient one
    joins the variables, anything else is a product. *)
Definition addMonomial (mo : Monomial) (t : Term) : Term :=
  let '(c, vs) := mo in
  if c =? 0 then t
  else match vs with
       | [] => mkTerm (c :: numbers t) (variables t) (products t)
       | [v] =>
           if c =? 1 then mkTerm (numbers t) (v :: variables t) (products t)
           else mkTerm (numbers t) (variables t)
                       (mkProduct [c] vs :: products t)
       | _ => mkTerm (numbers t) (variables t) (mkProduct [c] vs :: products t)
       end.

(** Modelled from the spec: [simplified] "reduces an arbitrary expression tree
    into the Term normal form (flattening nested sums, collecting numeric
    coefficients ...)" and preserves the value of the expression. *)
Definition simplified (e : Expression) : Term :=
  fold_right addMonomial (mkTerm [] [] []) (monomials e).

(** Modelled from the spec: the product and the sum of a list of
    expressions ("add/multiply symbolic expressions and numeric
    constants"). *)
Definition productOf (l : list Expression) : Expression :=
  fold_right Times (Number 1) l.

Definition sumOf (l : list Expression) : Expression :=
  fold_right Plus (Number 0) l.

(** Modelled from the spec: a term read back as the expression it stands
    for, the sum of its numbers, its variables and its products. *)
Definition termExpression (t : Term) : Expression :=
  sumOf (map Number (numbers t) ++ map Symbol (variables t) ++
         map (fun p => productOf (map Number (factors p) ++
                                  map Symbol (unknowns p)))
             (products t)).

(** Modelled from the spec: [simplified] applied to a term, as in
    [simplified(t)] at line 76. *)
Definition simplifiedTerm (t : Term) : Term := simplified (termExpression t).

(** The value of expressions and terms when every unknown is given a
    rational value. *)
Fixpoint evalExpression (rho : SymbolicVariable -> Q) (e : Expression) : Q :=
  match e with
  | Number c => inject_Z c
  | Symbol v => rho v
  | Plus a b => (evalExpression rho a + evalExpression rho b)%Q
  | Times a b => (evalExpression rho a * evalExpression rho b)%Q
  end.

Definition Qsum (l : list Q) : Q := fold_right Qplus 0%Q l.
Definition Qprod (l : list Q) : Q := fold_right Qmult 1%Q l.

Definition evalProduct (rho : SymbolicVariable -> Q) (p : Product) : Q :=
  (Qprod (map inject_Z (factors p)) * Qprod (map rho (unknowns p)))%Q.

Definition evalTerm (rho : SymbolicVariable -> Q) (t : Term) : Q :=
  (Qsum (map inject_Z (numbers t)) + Qsum (map rho (variables t)) +
   Qsum (map (evalProduct rho) (products t)))%Q.

(** [std::to_string] of a non-negative [int]. *)
Definition to_string (i : nat) : string :=
  NilZero.string_of_uint (Nat.to_uint i).

(** Modelled from the spec: the name [prefix<i>], the index written as
    line 62 writes it into the name of the solver variable,
    [prefix + std::to_string(i)].  For the qubits 0 to 9 this is the
    "4-character tag" with the "qubit index appended as the final
    character"; the specification does not say what a name is from qubit 10
    on, and the statements below that depend on which variable line 73 finds
    for a name are stated for at most 10 qubits. *)
Definition symbolName (prefix : string) (i : nat) : string :=
  String.append prefix (to_string i).

(** Modelled from the spec: [generateSymbolVector(n, prefix)] yields "one
    fresh symbol [prefix<i>]" for every [i] in [0, n). *)
Definition generateSymbolVector (numQubits : nat) (prefix : string)
  : list Expression :=
  map (fun i => Symbol (mkVariable (symbolName prefix i))) (seq 0 numQubits).

(** ** Matrices *)

(** Modelled from the spec: the matrix utilities are "a provided
    linear-algebra collaborator".  A matrix is the list of its rows. *)
Definition Matrix (T : Type) : Type := list (list T).

(** Modelled from the spec: the entry [A(i, j)]. *)
Definition entry {T : Type} (d : T) (A : Matrix T) (i j : nat) : T :=
  nth j (nth i A []) d.

(** Modelled from the spec: the [rows x cols] matrix with entries
    [f i j]. *)
Definition tabulate {T : Type} (rows cols : nat) (f : nat -> nat -> T)
  : Matrix T :=
  map (fun i => map (fun j => f i j) (seq 0 cols)) (seq 0 rows).

(** Modelled from the spec: [Math::diag], "zero off-diagonal" with the given
    entries on the diagonal. *)
Definition diag (v : list Expression) : Matrix Expression :=
  tabulate (List.length v) (List.length v)
    (fun i j => if Nat.eqb i j then nth i v (Number 0) else Number 0).

(** Modelled from the spec: an integer matrix as an operand of symbolic
    matrix arithmetic, every entry a numeric constant. *)
Definition constants (A : Matrix Z) : Matrix Expression :=
  map (map Number) A.

(** Modelled from the spec: the matrix product [A * B], [rows x inner] by
    [inner x cols]. *)
Definition matMul (rows inner cols : nat) (A B : Matrix Expression)
  : Matrix Expression :=
  tabulate rows cols
    (fun i j =>
       sumOf (map (fun k => Times (entry (Number 0) A i k)
                                  (entry (Number 0) B k j))
                  (seq 0 inner))).

(** Modelled from the spec: the matrix sum [A + B]. *)
Definition matAdd (rows cols : nat) (A B : Matrix Expression)
  : Matrix Expression :=
  tabulate rows cols
    (fun i j => Plus (entry (Number 0) A i j) (entry (Number 0) B i j)).

(** Modelled from the spec: [simplified] of a matrix, "simplify every
    entry". *)
Definition simplifiedMatrix (A : Matrix Expression) : Matrix Term :=
  map (map simplified) A.

(** Modelled from the spec: the entries of a matrix in the order in which
    the range-based [for] of line 106 visits them, row after row. *)
Definition entries {T : Type} (A : Matrix T) : list T := List.concat A.


(** ** Gate descriptors *)

(** Modelled from the spec: [binary_pauli.h] is not part of the sources.  A
    gate descriptor is "a 2x2 binary symplectic matrix (four bits: axx, axz,
    azx, azz)". *)
Record BinaryCliffordGate : Type := mkGate {
  axx : Z;
  axz : Z;
  azx : Z;
  azz : Z
}.

(** The symplectic condition [axx * azz + axz * azx = 1 (mod 2)]. *)
Definition symplectic (g : BinaryCliffordGate) : Prop :=
  (axx g * azz g + axz g * azx g) mod 2 = 1.

(** Modelled from the spec: the conversion of a [double] read from the
    solver to an entry of a gate descriptor, truncation toward zero.  On 0
    and 1, the values of a binary variable, every conversion gives the value
    itself. *)
Definition truncate (q : Q) : Z := Z.quot (Qnum q) (Zpos (Qden q)).

(** ** The solver collaborator *)

(** Modelled from the spec: the Gurobi interface is consumed, not
    reimplemented: "add a binary decision variable with bounds/name; add an
    unbounded integer decision variable; add a linear equality constraint;
    add one quadratic equality constraint; set a minimization objective; run
    the solve; query a status code; query a variable's assigned value".
    Values are exact rationals. *)
Inductive VType : Type := GRB_BINARY | GRB_INTEGER.

(** Modelled from the spec: the arguments of [addVar(lb, ub, obj, type,
    name)]. *)
Record VarDecl : Type := mkVarDecl {
  lb : Q;
  ub : Q;
  obj : Q;
  vtype : VType;
  varName : string
}.

(** Modelled from the spec: a [GRBVar] handle, the position of the
    declaration in the model. *)
Definition GRBVar : Type := nat.

(** Modelled from the spec: a linear expression, "sum of coefficient *
    variable + constant". *)
Record GRBLinExpr : Type := mkLinExpr {
  constant : Q;
  linTerms : list (Q * GRBVar)
}.

(** Modelled from the spec: a quadratic expression, a linear part and a
    "sum of variable * variable products". *)
Record GRBQuadExpr : Type := mkQuadExpr {
  linearPart : GRBLinExpr;
  quadTerms : list (Q * (GRBVar * GRBVar))
}.

(** Modelled from the spec: a quadratic equality constraint
    [lhs == rhs]. *)
Record QConstr : Type := mkQConstr {
  qcLhs : GRBQuadExpr;
  qcRhs : Q;
  qcName : string
}.

(** Modelled from the spec: a linear equality constraint [lhs == rhs]. *)
Record LinConstr : Type := mkLinConstr {
  lcLhs : GRBLinExpr;
  lcRhs : GRBLinExpr;
  lcName : string
}.

(** Modelled from the spec: what a [GRBModel] holds, "variables, constraints
    and associated attributes". *)
Record GRBModel : Type := mkModel {
  modelVars : list VarDecl;
  modelQConstrs : list QConstr;
  modelConstrs : list LinConstr;
  modelObjective : option GRBLinExpr
}.

Definition emptyModel : GRBModel := mkModel [] [] [] None.

(** Modelled from the spec: [GRBLinExpr{ c }] and the conversion of a
    variable to a linear expression. *)
Definition linConstant (c : Q) : GRBLinExpr := mkLinExpr c [].

Definition linVar (v : GRBVar) : GRBLinExpr := mkLinExpr 0 [(1%Q, v)].

(** Modelled from the spec: [expr += c]. *)
Definition linAddConstant (e : GRBLinExpr) (c : Q) : GRBLinExpr :=
  mkLinExpr (constant e + c) (linTerms e).

(** Modelled from the spec: [expr += var]. *)
Definition linAddVar (e : GRBLinExpr) (v : GRBVar) : GRBLinExpr :=
  mkLinExpr (constant e) (linTerms e ++ [(1%Q, v)]).

(** Modelled from the spec: [expr * c]. *)
Definition linScale (e : GRBLinExpr) (c : Q) : GRBLinExpr :=
  mkLinExpr (constant e * c)
            (map (fun cv => (fst cv * c, snd cv)%Q) (linTerms e)).

(** Modelled from the spec: [a * b + c * d] on variables. *)
Definition quadSumOfProducts (a b c d : GRBVar) : GRBQuadExpr :=
  mkQuadExpr (linConstant 0) [(1%Q, (a, b)); (1%Q, (c, d))].

(** Values of expressions under an assignment of the variables. *)
Definition Assignment : Type := GRBVar -> Q.

Definition evalLin (a : Assignment) (e : GRBLinExpr) : Q :=
  (constant e + Qsum (map (fun cv => fst cv * a (snd cv)) (linTerms e)))%Q.

Definition evalQuad (a : Assignment) (e : GRBQuadExpr) : Q :=
  (evalLin a (linearPart e) +
   Qsum (map (fun cvw => fst cvw * (a (fst (snd cvw)) * a (snd (snd cvw))))
             (quadTerms e)))%Q.

(** Admissible values of a variable: its bounds and its type. *)
Definition integral (v : Q) : Prop := exists k : Z, (v == inject_Z k)%Q.

Definition inDomain (d : VarDecl) (v : Q) : Prop :=
  (lb d <= v)%Q /\ (v <= ub d)%Q /\
  match vtype d with
  | GRB_BINARY => (v == 0)%Q \/ (v == 1)%Q
  | GRB_INTEGER => integral v
  end.

Definition holdsQ (a : Assignment) (c : QConstr) : Prop :=
  (evalQuad a (qcLhs c) == qcRhs c)%Q.

Definition holds (a : Assignment) (c : LinConstr) : Prop :=
  (evalLin a (lcLhs c) == evalLin a (lcRhs c))%Q.

(** An assignment satisfies everything that was added to the model. *)
Definition Satisfies (m : GRBModel) (a : Assignment) : Prop :=
  (forall v d, nth_error (modelVars m) v = Some d -> inDomain d (a v)) /\
  Forall (holdsQ a) (modelQConstrs m) /\
  Forall (holds a) (modelConstrs m).

Definition Feasible (m : GRBModel) : Prop := exists a, Satisfies m a.

(** The same, decided. *)
Definition integralb (v : Q) : bool := Qeq_bool v (inject_Z (Qfloor v)).

Definition inDomainb (d : VarDecl) (v : Q) : bool :=
  Qle_bool (lb d) v && Qle_bool v (ub d) &&
  match vtype d with
  | GRB_BINARY => Qeq_bool v 0 || Qeq_bool v 1
  | GRB_INTEGER => integralb v
  end.

Fixpoint domainsb (a : Assignment) (v : GRBVar) (ds : list VarDecl) : bool :=
  match ds with
  | [] => true
  | d :: ds' => inDomainb d (a v) && domainsb a (S v) ds'
  end.

Definition satisfiesb (m : GRBModel) (a : Assignment) : bool :=
  domainsb a 0%nat (modelVars m) &&
  forallb (fun c => Qeq_bool (evalQuad a (qcLhs c)) (qcRhs c))
          (modelQConstrs m) &&
  forallb (fun c => Qeq_bool (evalLin a (lcLhs c)) (evalLin a (lcRhs c)))
          (modelConstrs m).

(** Modelled from the spec: the exceptions, [GRBException] with its error
    code and message, or anything else that [catch (...)] receives. *)
Inductive Exception : Type :=
| GRBException (errorCode : Z) (message : string)
| OtherException.

(** Modelled from the spec: the calls into the collaborator, with the
    argument that tells two calls of one kind apart. *)
Inductive ApiCall : Type :=
| EnvCreate
| EnvSet (parameter : string)
| EnvStart
| ModelCreate
| SetObjective
| AddVar (nm : string)
| AddQConstr (nm : string)
| AddConstr (nm : string)
| Optimize
| GetStatus
| GetX (v : nat).

(** Modelled from the spec: the behaviour of the collaborator, i.e. which
    call raises (given the model built so far), and the status and values
    that a solve produces. *)
Record Gurobi : Type := mkGurobi {
  raises : ApiCall -> GRBModel -> option Exception;
  solve : GRBModel -> Z * Assignment
}.

(** Modelled from the spec: the status code [GRB_OPTIMAL] (the literal 2 of
    line 113) and the status of a model that was not solved. *)
Definition GRB_OPTIMAL : Z := 2.
Definition GRB_LOADED : Z := 1.

(** The solver reports status 2 only with an assignment that satisfies the
    model. *)
Definition Sound (grb : Gurobi) : Prop :=
  forall m, fst (solve grb m) = GRB_OPTIMAL -> Satisfies m (snd (solve grb m)).


(** ** Effects of a synthesis call *)

(** What is written to [std::cout]. *)
Inductive Output : Type :=
| OutText (text : string)
| OutInt (value : Z)
| OutIntMatrix (A : Matrix Z)
| OutTermMatrix (A : Matrix Term)
| OutGate (g : BinaryCliffordGate).

Definition newline : string := String (ascii_of_nat 10) EmptyString.

(** The state of a call: the model under construction, the result of
    [optimize()] once it ran, and the output written so far. *)
Record Session : Type := mkSession {
  model : GRBModel;
  solution : option (Z * Assignment);
  stdout : list Output
}.

(** How a computation ends: with a value, with a C++ exception in flight,
    with a failed [assert], or in undefined behaviour. *)
Inductive Result (A : Type) : Type :=
| Ok (a : A)
| Thrown (e : Exception)
| AssertionFailed
| Undefined.

Arguments Ok {A} a.
Arguments Thrown {A} e.
Arguments AssertionFailed {A}.
Arguments Undefined {A}.

Definition M (A : Type) : Type := Session -> Result A * Session.

Definition ret {A : Type} (a : A) : M A := fun st => (Ok a, st).

Definition bind {A B : Type} (c : M A) (k : A -> M B) : M B :=
  fun st =>
    match c st with
    | (Ok a, st') => k a st'
    | (Thrown e, st') => (Thrown e, st')
    | (AssertionFailed, st') => (AssertionFailed, st')
    | (Undefined, st') => (Undefined, st')
    end.

Notation "x <- c ;; k" := (bind c (fun x => k))
  (at level 61, c at next level, right associativity).
Notation "c ;; k" := (bind c (fun _ => k))
  (at level 61, right associativity).

Definition undefined {A : Type} : M A := fun st => (Undefined, st).

(** [assert(b)]. *)
Definition cassert (b : bool) : M unit :=
  fun st => if b then (Ok tt, st) else (AssertionFailed, st).

(** [v[i]] on a [std::vector]: past the end is undefined behaviour. *)
Definition index {A : Type} (v : list A) (i : nat) : M A :=
  match nth_error v i with
  | Some a => ret a
  | None => undefined
  end.

(** [std::cout << o]. *)
Definition print (o : list Output) : M unit :=
  fun st => (Ok tt, mkSession (model st) (solution st) (stdout st ++ o)).

(** A loop over [l] that threads the local variables [b]. *)
Fixpoint foldM {A B : Type} (f : B -> A -> M B) (l : list A) (b : B) : M B :=
  match l with
  | [] => ret b
  | a :: l' => b' <- f b a ;; foldM f l' b'
  end.

(** [s[k]] on a [std::string]: the terminator at [k = size()], undefined
    behaviour beyond. *)
Definition charAt (str : string) (k : nat) : option ascii :=
  match String.get k str with
  | Some c => Some c
  | None => if Nat.eqb k (String.length str) then Some zero else None
  end.

(** The four vectors of variable handles. *)
Record GateVars : Type := mkGateVars {
  axxVars : list GRBVar;
  axzVars : list GRBVar;
  azxVars : list GRBVar;
  azzVars : list GRBVar
}.

(** [aVars = { &axxVars, &axzVars, &azxVars, &azzVars }]: the vectors are
    reached through pointers, so a read sees their current contents. *)
Definition aVars (vs : GateVars) : list (list GRBVar) :=
  [axxVars vs; axzVars vs; azxVars vs; azzVars vs].

Section Formulator.

Variable grb : Gurobi.

(** Modelled from the spec: a call into the collaborator, which may
    raise. *)
Definition call (c : ApiCall) : M unit :=
  fun st =>
    match raises grb c (model st) with
    | Some e => (Thrown e, st)
    | None => (Ok tt, st)
    end.

(** Modelled from the spec: a change of the model under construction. *)
Definition updateModel (f : GRBModel -> GRBModel) : M unit :=
  fun st => (Ok tt, mkSession (f (model st)) (solution st) (stdout st)).

(** Modelled from the spec: [model.setObjective(e, GRB_MINIMIZE)]. *)
Definition setObjective (e : GRBLinExpr) : M unit :=
  call SetObjective ;;
  updateModel (fun m => mkModel (modelVars m) (modelQConstrs m)
                                (modelConstrs m) (Some e)).

(** Modelled from the spec: [model.addVar(lb, ub, obj, type, name)]; the
    handle is the position of the new declaration. *)
Definition addVar (l u o : Q) (t : VType) (nm : string) : M GRBVar :=
  call (AddVar nm) ;;
  fun st =>
    let m := model st in
    (Ok (List.length (modelVars m)),
     mkSession (mkModel (modelVars m ++ [mkVarDecl l u o t nm])
                        (modelQConstrs m) (modelConstrs m) (modelObjective m))
               (solution st) (stdout st)).

(** Modelled from the spec: [model.addQConstr(lhs == rhs, name)]. *)
Definition addQConstr (lhs : GRBQuadExpr) (rhs : Q) (nm : string) : M unit :=
  call (AddQConstr nm) ;;
  updateModel (fun m => mkModel (modelVars m)
                                (modelQConstrs m ++ [mkQConstr lhs rhs nm])
                                (modelConstrs m) (modelObjective m)).

(** Modelled from the spec: [model.addConstr(lhs == rhs, name)]. *)
Definition addConstr (lhs rhs : GRBLinExpr) (nm : string) : M unit :=
  call (AddConstr nm) ;;
  updateModel (fun m => mkModel (modelVars m) (modelQConstrs m)
                                (modelConstrs m ++ [mkLinConstr lhs rhs nm])
                                (modelObjective m)).

(** Modelled from the spec: [model.optimize()], "run the solve". *)
Definition optimize : M unit :=
  call Optimize ;;
  fun st =>
    (Ok tt, mkSession (model st) (Some (solve grb (model st))) (stdout st)).

(** Modelled from the spec: [model.get(GRB_IntAttr_Status)]. *)
Definition getStatus : M Z :=
  call GetStatus ;;
  fun st =>
    (Ok (match solution st with
         | Some sol => fst sol
         | None => GRB_LOADED
         end), st).

(** Modelled from the spec: [var.get(GRB_DoubleAttr_X)], "a variable's
    assigned value after a feasible solve"; without a solve the query
    raises. *)
Definition getX (v : GRBVar) : M Q :=
  call (GetX v) ;;
  fun st =>
    match solution st with
    | Some sol => (Ok (snd sol v), st)
    | None => (Thrown (GRBException 10005 "Data not available"), st)
    end.

(** Lines 61-68: one iteration of the loop that declares the four binary
    unknowns of qubit [i] and their quadratic constraint. *)
Definition declareGate (vs : GateVars) (i : nat) : M GateVars :=
  v <- addVar 0 1 0 GRB_BINARY (String.append "axx" (to_string i)) ;;
  let vs := mkGateVars (axxVars vs ++ [v]) (axzVars vs) (azxVars vs)
                       (azzVars vs) in
  v <- addVar 0 1 0 GRB_BINARY (String.append "axz" (to_string i)) ;;
  let vs := mkGateVars (axxVars vs) (axzVars vs ++ [v]) (azxVars vs)
                       (azzVars vs) in
  v <- addVar 0 1 0 GRB_BINARY (String.append "azx" (to_string i)) ;;
  let vs := mkGateVars (axxVars vs) (axzVars vs) (azxVars vs ++ [v])
                       (azzVars vs) in
  v <- addVar 0 1 0 GRB_BINARY (String.append "azz" (to_string i)) ;;
  let vs := mkGateVars (axxVars vs) (axzVars vs) (azxVars vs)
                       (azzVars vs ++ [v]) in
  a <- index (axxVars vs) i ;;
  d <- index (azzVars vs) i ;;
  b <- index (axzVars vs) i ;;
  c <- index (azxVars vs) i ;;
  addQConstr (quadSumOfProducts a d b c) 1 (String.append "qc" (to_string i)) ;;
  ret vs.

(** Lines 72-74: the solver variable of a symbol, found from the characters
    1, 2 and 3 of its name. *)
Definition getVar (vs : GateVars) (t : SymbolicVariable) : M GRBVar :=
  match charAt (name t) 1, charAt (name t) 2, charAt (name t) 3 with
  | Some c1, Some c2, Some c3 =>
      let block := ((if Ascii.eqb c1 "z" then 1 else 0) * 2 +
                    (if Ascii.eqb c2 "z" then 1 else 0))%nat in
      vec <- index (aVars vs) block ;;
      let idx := Z.of_nat (nat_of_ascii c3) - Z.of_nat (nat_of_ascii "0") in
      if idx <? 0 then undefined else index vec (Z.to_nat idx)
  | _, _, _ => undefined
  end.

(** Lines 71-97: the linear expression of a term.  The loop over the products
    runs after [assert(simplifiedTerm.products.empty())], hence over nothing. *)
Definition toGRBLinExpression (vs : GateVars) (t : Term) : M GRBLinExpr :=
  let simplifiedT := simplifiedTerm t in
  let expr :=
    fold_left (fun e c => linAddConstant e (inject_Z c))
              (numbers simplifiedT) (linConstant 0) in
  expr <- foldM (fun e c => v <- getVar vs c ;; ret (linAddVar e v))
                (variables simplifiedT) expr ;;
  cassert (match products simplifiedT with [] => true | _ => false end) ;;
  ret expr.

(** Lines 100-103: the slack variables. *)
Definition declareDummy (dummyVars : list GRBVar) (i : nat)
  : M (list GRBVar) :=
  v <- addVar (-1000) 1000 0 GRB_INTEGER EmptyString ;;
  ret (dummyVars ++ [v]).

(** Lines 105-109: one linear constraint per entry of [lhs]. *)
Definition addEquation (vs : GateVars) (dummyVars : list GRBVar)
  (i : nat) (row : Term) : M nat :=
  e <- toGRBLinExpression vs row ;;
  d <- index dummyVars i ;;
  addConstr (linScale e (1 # 2)) (linVar d) (String.append "i" (to_string i)) ;;
  ret (S i).

(** Lines 50-109: environment, model, variables and constraints. *)
Definition formulate (numQubits numEqs : nat) (lhs : list Term) : M GateVars :=
  call EnvCreate ;;
  call (EnvSet "OutputFlag") ;;
  call (EnvSet "LogFile") ;;
  call EnvStart ;;
  call ModelCreate ;;
  setObjective (linConstant 0) ;;
  vs <- foldM declareGate (seq 0 numQubits) (mkGateVars [] [] [] []) ;;
  dummyVars <- foldM declareDummy (seq 0 numEqs) [] ;;
  _ <- foldM (addEquation vs dummyVars) lhs 0%nat ;;
  ret vs.

(** Lines 50-113: the formulation, the solve and the status query. *)
Definition solveStage (numQubits numEqs : nat) (lhs : list Term)
  : M (GateVars * Z) :=
  vs <- formulate numQubits numEqs lhs ;;
  optimize ;;
  status <- getStatus ;;
  ret (vs, status).

(** Lines 118-122: the gate of qubit [i], read back from the solver. *)
Definition readGate (vs : GateVars) (verbose : bool)
  (layer : list BinaryCliffordGate) (i : nat) : M (list BinaryCliffordGate) :=
  a <- index (axxVars vs) i ;;
  vxx <- getX a ;;
  a <- index (axzVars vs) i ;;
  vxz <- getX a ;;
  a <- index (azxVars vs) i ;;
  vzx <- getX a ;;
  a <- index (azzVars vs) i ;;
  vzz <- getX a ;;
  let g := mkGate (truncate vxx) (truncate vxz) (truncate vzx) (truncate vzz) in
  (if verbose
   then print [OutText "U_"; OutInt (Z.of_nat i); OutText newline; OutGate g]
   else ret tt) ;;
  ret (layer ++ [g]).

(** The [try] block, lines 50-123. *)
Definition tryBlock (numQubits numEqs : nat) (lhs : list Term) (verbose : bool)
  : M (option (list BinaryCliffordGate)) :=
  r <- solveStage numQubits numEqs lhs ;;
  let '(vs, status) := r in
  if negb (status =? 2) then ret None
  else
    layer <- foldM (readGate vs verbose) (seq 0 numQubits) [] ;;
    ret (Some layer).

(** The generators are read as [RS[j].x(i)] and [RS[j].z(i)] for every
    [i < numQubits] and [j < numOperatorsPerSet]; an index past the end of
    [RS] and a shift by 64 or more are undefined behaviour. *)
Definition readsDefined (numQubits numOperatorsPerSet : nat) (RS : list Pauli)
  : bool :=
  forallb (fun i =>
             forallb (fun j => (j <? List.length RS)%nat && (i <? 64)%nat)
                     (seq 0 numOperatorsPerSet))
          (seq 0 numQubits).

Definition generatorBits (sel : Pauli -> Z -> Z)
  (numQubits numOperatorsPerSet : nat) (RS : list Pauli) : Matrix Z :=
  tabulate numQubits numOperatorsPerSet
    (fun i j => sel (nth j RS Pauli_default) (Z.of_nat i)).

Definition adjacencyMatrix (numQubits : nat) (graph : Graph) : Matrix Z :=
  tabulate numQubits numQubits
    (fun i j => if adjacent graph i j then 1 else 0).

(** Lines 29-44: the symbolic left-hand sides
    [adjacency * (Axx * R + Axz * S) + Azx * R + Azz * S], simplified. *)
Definition leftHandSides (numQubits numOperatorsPerSet : nat)
  (graph : Graph) (R S : Matrix Z) : Matrix Term :=
  let n := numQubits in
  let m := numOperatorsPerSet in
  let Axx := diag (generateSymbolVector n "axx") in
  let Axz := diag (generateSymbolVector n "axz") in
  let Azx := diag (generateSymbolVector n "azx") in
  let Azz := diag (generateSymbolVector n "azz") in
  let R' := constants R in
  let S' := constants S in
  simplifiedMatrix
    (matAdd n m
       (matAdd n m
          (matMul n n m (constants (adjacencyMatrix n graph))
             (matAdd n m (matMul n n m Axx R') (matMul n n m Axz S')))
          (matMul n n m Azx R'))
       (matMul n n m Azz S')).

(** What the two [catch] clauses (lines 125-131) write. *)
Definition diagnostic (e : Exception) : list Output :=
  match e with
  | GRBException code msg =>
      [OutText "Error code = "; OutInt code; OutText newline;
       OutText msg; OutText newline]
  | OtherException =>
      [OutText "Exception during optimization"; OutText newline]
  end.

(** The [try]/[catch] statement and the [return std::nullopt] of line 132:
    an exception is caught, reported and turned into the empty result. *)
Definition catchAll (r : Result (option (list BinaryCliffordGate)) * Session)
  : Result (option (list BinaryCliffordGate)) * list Output :=
  match r with
  | (Ok v, st) => (Ok v, stdout st)
  | (Thrown e, st) => (Ok None, stdout st ++ diagnostic e)
  | (AssertionFailed, st) => (AssertionFailed, stdout st)
  | (Undefined, st) => (Undefined, stdout st)
  end.

(** The state in which the [try] block is entered: a fresh model, and the
    matrices on [std::cout] when [verbose] is set (lines 46-47). *)
Definition entrySession (numQubits numOperatorsPerSet : nat)
  (graph : Graph) (RS : list Pauli) (verbose : bool) : Session :=
  let R := generatorBits x numQubits numOperatorsPerSet RS in
  let S := generatorBits z numQubits numOperatorsPerSet RS in
  let lhs := leftHandSides numQubits numOperatorsPerSet graph R S in
  mkSession emptyModel None
    (if verbose then [OutIntMatrix R; OutIntMatrix S; OutTermMatrix lhs]
     else []).

Definition equations (numQubits numOperatorsPerSet : nat)
  (graph : Graph) (RS : list Pauli) : list Term :=
  entries (leftHandSides numQubits numOperatorsPerSet graph
             (generatorBits x numQubits numOperatorsPerSet RS)
             (generatorBits z numQubits numOperatorsPerSet RS)).

(** The run of the [try] block of a call, and of its part up to the status
    query. *)
Definition tryRun (numQubits numOperatorsPerSet : nat)
  (graph : Graph) (RS : list Pauli) (verbose : bool)
  : Result (option (list BinaryCliffordGate)) * Session :=
  tryBlock numQubits (numQubits * numOperatorsPerSet)
    (equations numQubits numOperatorsPerSet graph RS) verbose
    (entrySession numQubits numOperatorsPerSet graph RS verbose).


(** The body shared by the two overloads: their texts differ only in how
    [numQubits] and [numOperatorsPerSet] are obtained and in the container
    of the result. *)
Definition findHTCircuitBody (numQubits numOperatorsPerSet : nat)
  (graph : Graph) (RS : list Pauli) (verbose : bool)
  : Result (option (list BinaryCliffordGate)) * list Output :=
  if readsDefined numQubits numOperatorsPerSet RS then
    catchAll (tryRun numQubits numOperatorsPerSet graph RS verbose)
  else (Undefined, []).

(** [template<int numQubits> findHTCircuit(const Graph<numQubits>&, auto RS,
    bool verbose)]: [numOperatorsPerSet = numQubits]. *)
Definition findHTCircuitFixed (numQubits : nat) (graph : Graph)
  (RS : list Pauli) (verbose : bool)
  : Result (option (list BinaryCliffordGate)) * list Output :=
  findHTCircuitBody numQubits numQubits graph RS verbose.

(** [findHTCircuit(const Graph<>&, auto RS, bool verbose)]:
    [numQubits = graph.numVertices()], [numOperatorsPerSet = RS.size()]. *)
Definition findHTCircuit (graph : Graph) (RS : list Pauli) (verbose : bool)
  : Result (option (list BinaryCliffordGate)) * list Output :=
  findHTCircuitBody (numVertices graph) (List.length RS) graph RS verbose.

End Formulator.

(** ** Reference behaviours of the collaborator *)

(** No call raises. *)
Definition quiet : ApiCall -> GRBModel -> option Exception := fun _ _ => None.

(** A solver that proposes one fixed assignment: optimal when the assignment
    satisfies the model, infeasible (status 3) otherwise. *)
Definition checkingSolver (guess : Assignment) : Gurobi :=
  mkGurobi quiet
    (fun m => if satisfiesb m guess then (GRB_OPTIMAL, guess) else (3, guess)).

(** The model that a call hands to the solver when nothing raises; as in
    the call itself, a read of the generators that is not defined makes the
    whole undefined. *)
Definition formulatedModel (numQubits numOperatorsPerSet : nat)
  (graph : Graph) (RS : list Pauli) : Result GRBModel :=
  if readsDefined numQubits numOperatorsPerSet RS then
    match formulate (mkGurobi quiet (fun _ => (0, fun _ => 0%Q)))
            numQubits (numQubits * numOperatorsPerSet)
            (equations numQubits numOperatorsPerSet graph RS)
            (mkSession emptyModel None []) with
    | (Ok _, st) => Ok (model st)
    | (Thrown e, _) => Thrown e
    | (AssertionFailed, _) => AssertionFailed
    | (Undefined, _) => Undefined
    end
  else Undefined.

(** The assignment that gives 1 to the listed variables and 0 to the
    others. *)
Definition onesAt (l : list GRBVar) : Assignment :=
  fun v => if existsb (Nat.eqb v) l then 1%Q else 0%Q.

Definition emptyGraph (k : nat) : Graph := mkGraph k (fun _ _ => false).

(** The graph with [k] vertices and the single edge [0 - 1]. *)
Definition edgeGraph (k : nat) : Graph :=
  mkGraph k (fun i j => (Nat.eqb i 0 && Nat.eqb j 1) ||
                        (Nat.eqb i 1 && Nat.eqb j 0)).

(** ** The formulated model in closed form *)

(** The declarations of lines 62-65 and the constraint of line 67 for
    qubit [i]. *)
Definition gateDecls (i : nat) : list VarDecl :=
  [mkVarDecl 0 1 0 GRB_BINARY (String.append "axx" (to_string i));
   mkVarDecl 0 1 0 GRB_BINARY (String.append "axz" (to_string i));
   mkVarDecl 0 1 0 GRB_BINARY (String.append "azx" (to_string i));
   mkVarDecl 0 1 0 GRB_BINARY (String.append "azz" (to_string i))].

Definition gateConstr (i : nat) : QConstr :=
  mkQConstr (quadSumOfProducts (4 * i)%nat (4 * i + 3)%nat (4 * i + 1)%nat
               (4 * i + 2)%nat)
            1 (String.append "qc" (to_string i)).

(** The declaration of line 102. *)
Definition dummyDecl : VarDecl :=
  mkVarDecl (-1000) 1000 0 GRB_INTEGER EmptyString.

(** The constraint of line 107 for the [i]-th entry, whose linear expression
    is [e] and whose slack variable is [d]. *)
Definition halfEquals (e : GRBLinExpr) (d : GRBVar) (i : nat) : LinConstr :=
  mkLinConstr (linScale e (1 # 2)) (linVar d)
              (String.append "i" (to_string i)).

(** The handles of the unknowns of [k] qubits declared into a fresh model. *)
Definition gateVarsOf (k : nat) : GateVars :=
  mkGateVars (map (fun i => 4 * i)%nat (seq 0 k))
             (map (fun i => 4 * i + 1)%nat (seq 0 k))
             (map (fun i => 4 * i + 2)%nat (seq 0 k))
             (map (fun i => 4 * i + 3)%nat (seq 0 k)).

(** The constraints of the entries [es], numbered from [i] on, with slack
    variables from handle [d] on. *)
Fixpoint equationsFrom (es : list GRBLinExpr) (d i : nat) : list LinConstr :=
  match es with
  | [] => []
  | e :: es' => halfEquals e (d + i)%nat i :: equationsFrom es' d (S i)
  end.

Definition expectedModel (numQubits numEqs : nat) (es : list GRBLinExpr)
  : GRBModel :=
  mkModel (flat_map gateDecls (seq 0 numQubits) ++ repeat dummyDecl numEqs)
          (map gateConstr (seq 0 numQubits))
          (equationsFrom es (4 * numQubits)%nat 0%nat)
          (Some (linConstant 0)).

(** Code that only reads: the state is left as it was and the result does
    not depend on it. *)
Definition ReadOnly {A : Type} (c : M A) : Prop :=
  forall st, snd (c st) = st /\ forall st2, fst (c st2) = fst (c st).

(** The linear expression of a term, as a value. *)
Definition linearize (vs : GateVars) (t : Term) : Result GRBLinExpr :=
  fst (toGRBLinExpression vs t (mkSession emptyModel None [])).

(** The gate of qubit [i] read from an assignment (line 119). *)
Definition gateOfValues (a : Assignment) (i : nat) : BinaryCliffordGate :=
  mkGate (truncate (a (4 * i)%nat)) (truncate (a (4 * i + 1)%nat))
         (truncate (a (4 * i + 2)%nat)) (truncate (a (4 * i + 3)%nat)).

(** The solver variable of a symbol, as a value. *)
Definition varOf (vs : GateVars) (t : SymbolicVariable) : Result GRBVar :=
  fst (getVar vs t (mkSession emptyModel None [])).

(** The value that the symbols take under an assignment of the solver
    variables: the value of the variable [getVar] maps them to (0 where
    [getVar] is not defined). *)
Definition symbolValue (vs : GateVars) (a : Assignment)
  (t : SymbolicVariable) : Q :=
  match varOf vs t with
  | Ok v => a v
  | _ => 0%Q
  end.

(** The constant part of a linear expression built from the numbers of a
    term (lines 77-79). *)
Definition constantOf (numbers : list Z) : Q :=
  fold_left (fun q c => (q + inject_Z c)%Q) numbers 0%Q.

(** An integer variable without bounds: every integer is admissible. *)
Definition Unbounded (d : VarDecl) : Prop :=
  forall k : Z, inDomain d (inject_Z k).

(** The assignment [a] with the value of [v] replaced by [q]. *)
Definition setValue (a : Assignment) (v : GRBVar) (q : Q) : Assignment :=
  fun w => if Nat.eqb w v then q else a w.

(** The variables that occur in a linear expression. *)
Definition occurring (e : GRBLinExpr) : list GRBVar := map snd (linTerms e).

(** The value of a list of monomials. *)
Definition evalMonomial (rho : SymbolicVariable -> Q) (mo : Monomial) : Q :=
  (inject_Z (fst mo) * Qprod (map rho (snd mo)))%Q.

Definition evalMonomials (rho : SymbolicVariable -> Q) (ms : list Monomial)
  : Q :=
  Qsum (map (evalMonomial rho) ms).

(** ** The defining equation system *)

Definition Zsum (l : list Z) : Z := fold_right Z.add 0 l.

(** The gate of qubit [k] in a returned sequence. *)
Definition gateAt (gates : list BinaryCliffordGate) (k : nat)
  : BinaryCliffordGate :=
  nth k gates (mkGate 0 0 0 0).

(** In the words of the specification: "for every (qubit i, generator j),
    [(Adjacency * (Axx * R + Axz * S))[i,j] + (Azx * R + Azz * S)[i,j] = 0
    (mod 2)], where [R[i,j] = RS[j].x(i)] and [S[i,j] = RS[j].z(i)]", the
    matrices [Axx], [Axz], [Azx], [Azz] being diagonal with the entries of
    the gates. *)
Definition equationValue (numQubits : nat) (graph : Graph) (RS : list Pauli)
  (gates : list BinaryCliffordGate) (i j : nat) : Z :=
  let R := fun k => x (nth j RS Pauli_default) (Z.of_nat k) in
  let S := fun k => z (nth j RS Pauli_default) (Z.of_nat k) in
  Zsum (map (fun k => (if adjacent graph i k then 1 else 0) *
                      (axx (gateAt gates k) * R k + axz (gateAt gates k) * S k))
            (seq 0 numQubits)) +
  (azx (gateAt gates i) * R i + azz (gateAt gates i) * S i).

Definition DefiningEquations (numQubits numOperatorsPerSet : nat)
  (graph : Graph) (RS : list Pauli) (gates : list BinaryCliffordGate) : Prop :=
  forall i j, (i < numQubits)%nat -> (j < numOperatorsPerSet)%nat ->
    equationValue numQubits graph RS gates i j mod 2 = 0.

(** The value of an entry of a matrix of expressions. *)
Definition entryValue (rho : SymbolicVariable -> Q) (A : Matrix Expression)
  (i j : nat) : Q :=
  evalExpression rho (entry (Number 0) A i j).

(** The symbol of a block and a qubit. *)
Definition symbol (prefix : string) (k : nat) : SymbolicVariable :=
  mkVariable (symbolName prefix k).

(** The bits [RS[j].x(k)] and [RS[j].z(k)]. *)
Definition bitR (RS : list Pauli) (k j : nat) : Z :=
  x (nth j RS Pauli_default) (Z.of_nat k).

Definition bitS (RS : list Pauli) (k j : nat) : Z :=
  z (nth j RS Pauli_default) (Z.of_nat k).


(** * Further definitions for the statements below *)

(** A value that is 0 or 1. *)
Definition isBit (v : Z) : Prop := v = 0 \/ v = 1.

(** The four phase markers (the empty one included). *)
Definition isMarker (marker : string) : Prop :=
  marker = EmptyString \/ marker = "i"%string \/
  marker = "-i"%string \/ marker = "-"%string.

(** Every character of the string is one of [I], [X], [Y], [Z]. *)
Fixpoint allPauli (str : string) : bool :=
  match str with
  | EmptyString => true
  | String c rest => isPauliChar c && allPauli rest
  end.

(** The number of characters of the string that satisfy [sel]. *)
Fixpoint countChars (sel : ascii -> bool) (str : string) : Z :=
  match str with
  | EmptyString => 0
  | String c rest => Z.b2z (sel c) + countChars sel rest
  end.

(** The characters [X], [Y] and [Z]. *)
Definition nonIdentity (c : ascii) : bool := hasX c || hasZ c.

(** The number of set bits among the positions [0 .. k-1]. *)
Definition bitCount (a : Z) (k : nat) : Z :=
  fold_right Z.add 0 (map (fun j => Z.b2z (Z.testbit a (Z.of_nat j))) (seq 0 k)).

(** The four entries of a gate descriptor are bits. *)
Definition bitGate (g : BinaryCliffordGate) : Prop :=
  isBit (axx g) /\ isBit (axz g) /\ isBit (azx g) /\ isBit (azz g).

(** The tags of the four blocks. *)
Definition blockTags : list string :=
  ["axx"%string; "axz"%string; "azx"%string; "azz"%string].

(** The symbol of one of the four blocks and of a qubit below [k]. *)
Definition GoodSymbol (k : nat) (v : SymbolicVariable) : Prop :=
  exists prefix i, In prefix blockTags /\ (i < k)%nat /\ v = symbol prefix i.

(** A monomial with coefficient 0 or 1 and at most one symbol. *)
Definition Simple (k : nat) (mo : Monomial) : Prop :=
  isBit (fst mo) /\
  (snd mo = [] \/ exists v, GoodSymbol k v /\ snd mo = [v]).

(** An expression all of whose monomials are simple. *)
Definition Shaped (k : nat) (e : Expression) : Prop :=
  Forall (Simple k) (monomials e).

(** A term without products, whose numbers are ones and whose variables are
    symbols of the four blocks. *)
Definition LinearTerm (k : nat) (t : Term) : Prop :=
  products t = [] /\
  Forall (fun c => c = 1) (numbers t) /\
  Forall (GoodSymbol k) (variables t).

(** No call of the collaborator raises. *)
Definition Quiet (grb : Gurobi) : Prop :=
  forall c m, raises grb c m = None.

(** A computation ends with a value or, when [throws] is set, with an
    exception; never with a failed assertion or in undefined behaviour. *)
Definition Ends {A : Type} (throws : bool) (res : Result A) : Prop :=
  match res with
  | Ok _ => True
  | Thrown _ => throws = true
  | AssertionFailed => False
  | Undefined => False
  end.

(** A computation that writes nothing to [std::cout]. *)
Definition Silent {A : Type} (c : M A) : Prop :=
  forall st, stdout (snd (c st)) = stdout st.

(** The entry of a gate descriptor at the offset of its unknown: 0 for
    [axx], 1 for [axz], 2 for [azx], 3 for [azz]. *)
Definition gateEntry (g : BinaryCliffordGate) (off : nat) : Z :=
  match off with
  | 0%nat => axx g
  | 1%nat => axz g
  | 2%nat => azx g
  | _ => azz g
  end.

(** The assignment read off a gate sequence: the four unknowns of qubit [k]
    take the entries of the [k]-th gate, and the slack variable of the
    equation [(i, j)] takes half the value of its left-hand side. *)
Definition assignmentOf (numQubits numOperatorsPerSet : nat)
  (graph : Graph) (RS : list Pauli) (gates : list BinaryCliffordGate)
  : Assignment :=
  fun v =>
    if (v <? 4 * numQubits)%nat
    then inject_Z (gateEntry (gateAt gates (v / 4)) (v mod 4))
    else
      let p := (v - 4 * numQubits)%nat in
      inject_Z (equationValue numQubits graph RS gates
                  (p / numOperatorsPerSet) (p mod numOperatorsPerSet) / 2).

(** In the words of the specification: a "per-qubit invertible symplectic
    transformation (axx_i, axz_i, azx_i, azz_i) for every qubit i" that
    satisfies the equation system. *)
Definition LocalClifford (numQubits numOperatorsPerSet : nat)
  (graph : Graph) (RS : list Pauli) (gates : list BinaryCliffordGate) : Prop :=
  List.length gates = numQubits /\
  Forall bitGate gates /\
  Forall symplectic gates /\
  DefiningEquations numQubits numOperatorsPerSet graph RS gates.

(** The solver recognises the model of a call whenever that model can be
    satisfied. *)
Definition CompleteOn (grb : Gurobi) (numQubits numOperatorsPerSet : nat)
  (graph : Graph) (RS : list Pauli) : Prop :=
  forall m,
    formulatedModel numQubits numOperatorsPerSet graph RS = Ok m ->
    Feasible m -> fst (solve grb m) = GRB_OPTIMAL.

(** The result of a call answers the synthesis problem: it is a solution,
    or it is empty and there is no solution. *)
Definition Answers (res : Result (option (list BinaryCliffordGate)))
  (numQubits numOperatorsPerSet : nat) (graph : Graph) (RS : list Pauli)
  : Prop :=
  match res with
  | Ok (Some gates) =>
      LocalClifford numQubits numOperatorsPerSet graph RS gates
  | Ok None =>
      ~ exists gates, LocalClifford numQubits numOperatorsPerSet graph RS gates
  | _ => False
  end.

(** Two single-qubit operators anticommute when both differ from the
    identity and from each other; a character other than [X], [Y], [Z]
    stands for the identity. *)
Definition anticommute (c1 c2 : ascii) : bool :=
  nonIdentity c1 && nonIdentity c2 && negb (Ascii.eqb c1 c2).

(** The number of positions at which the characters of two strings satisfy
    [sel]. *)
Fixpoint countPairs (sel : ascii -> ascii -> bool) (a b : string) : Z :=
  match a, b with
  | String c1 rest1, String c2 rest2 =>
      Z.b2z (sel c1 c2) + countPairs sel rest1 rest2
  | _, _ => 0
  end.

(** What line 121 writes for qubit [i] and its gate. *)
Definition gateReport (gates : list BinaryCliffordGate) (i : nat)
  : list Output :=
  [OutText "U_"; OutInt (Z.of_nat i); OutText newline;
   OutGate (gateAt gates i)].

(** What line 47 writes: the matrices [R], [S] and [lhs]. *)
Definition matricesReport (numQubits numOperatorsPerSet : nat)
  (graph : Graph) (RS : list Pauli) : list Output :=
  let R := generatorBits x numQubits numOperatorsPerSet RS in
  let S := generatorBits z numQubits numOperatorsPerSet RS in
  [OutIntMatrix R; OutIntMatrix S;
   OutTermMatrix (leftHandSides numQubits numOperatorsPerSet graph R S)].
(** * Properties of the Pauli operator *)

Example ex_parse_XYZI :
  Pauli_of_string "XYZI" = mkPauli 3 6 4 1.
Proof. reflexivity. Qed.

Example ex_format_XYZI : format (Pauli_of_string "-iXYZI") = "-iXYZI"%string.
Proof. reflexivity. Qed.


(** ** Population count *)

Section Popcount.

Import Word64.

Lemma Ppopcount_pos (p : positive) : 0 < Ppopcount p.
Proof. induction p; cbn [Ppopcount]; lia. Qed.

Lemma popcount_nonneg (a : Z) : 0 <= popcount a.
Proof. destruct a; cbn [popcount]; try lia. pose proof (Ppopcount_pos p); lia. Qed.

Lemma popcount_double (a : Z) : 0 <= a -> popcount (2 * a) = popcount a.
Proof. destruct a; intros; try reflexivity; lia. Qed.

Lemma popcount_succ_double (a : Z) :
  0 <= a -> popcount (2 * a + 1) = 1 + popcount a.
Proof. destruct a; intros; try reflexivity; lia. Qed.

(** A word and its complement on [k] bits have [k] set bits together. *)
Lemma popcount_complement (k : nat) :
  forall a, 0 <= a < 2 ^ Z.of_nat k ->
    popcount a + popcount (2 ^ Z.of_nat k - 1 - a) = Z.of_nat k.
Proof.
  induction k as [|k IH]; intros a Ha.
  - change (2 ^ Z.of_nat 0) with 1 in *. assert (a = 0) by lia. subst a.
    reflexivity.
  - rewrite Nat2Z.inj_succ, Z.pow_succ_r in * by lia.
    set (P := 2 ^ Z.of_nat k) in *.
    assert (HP : 0 < P) by (apply Z.pow_pos_nonneg; lia).
    pose proof (Z.div_mod a 2 ltac:(lia)) as Hdm.
    pose proof (Z.mod_pos_bound a 2 ltac:(lia)) as Hm.
    set (h := a / 2) in *.
    assert (Hh : 0 <= h < P) by lia.
    specialize (IH h Hh).
    assert (Hcase : a mod 2 = 0 \/ a mod 2 = 1) by lia.
    destruct Hcase as [E|E]; rewrite E in Hdm.
    + replace a with (2 * h) by lia.
      replace (2 * P - 1 - 2 * h) with (2 * (P - 1 - h) + 1) by lia.
      rewrite popcount_double, popcount_succ_double by lia. lia.
    + replace a with (2 * h + 1) by lia.
      replace (2 * P - 1 - (2 * h + 1)) with (2 * (P - 1 - h)) by lia.
      rewrite popcount_double, popcount_succ_double by lia. lia.
Qed.

Lemma complement_eq (a : Z) :
  0 <= a < modulus -> complement a = modulus - 1 - a.
Proof.
  intros Ha. unfold complement, wrap, Z.lnot. rewrite <- Z.sub_1_r.
  replace (- a - 1) with (modulus - 1 - a + (-1) * modulus) by lia.
  rewrite Z.mod_add by (unfold modulus, width; lia).
  apply Z.mod_small. lia.
Qed.

Lemma lor_in_range (k a b : Z) :
  0 <= k -> 0 <= a < 2 ^ k -> 0 <= b < 2 ^ k -> 0 <= Z.lor a b < 2 ^ k.
Proof.
  intros Hk Ha Hb.
  assert (HP : 0 < 2 ^ k) by (apply Z.pow_pos_nonneg; lia).
  assert (Hn : 0 <= Z.lor a b) by (apply Z.lor_nonneg; lia).
  split; [exact Hn|].
  destruct (Z.eq_dec (Z.lor a b) 0) as [E|E]; [rewrite E; lia|].
  assert (Hk0 : 0 < k).
  { destruct (Z.eq_dec k 0) as [K|K]; [|lia]. subst k.
    change (2 ^ 0) with 1 in *. assert (a = 0) by lia. assert (b = 0) by lia.
    subst a b. exfalso. apply E. reflexivity. }
  apply Z.log2_lt_pow2; [lia|].
  rewrite Z.log2_lor by lia.
  apply Z.max_lub_lt.
  - destruct (Z.eq_dec a 0); [subst; simpl; lia|].
    apply Z.log2_lt_pow2; lia.
  - destruct (Z.eq_dec b 0); [subst; simpl; lia|].
    apply Z.log2_lt_pow2; lia.
Qed.

Lemma land_one_odd (a : Z) : Z.land a 1 = if Z.odd a then 1 else 0.
Proof.
  change 1 with (Z.ones 1) at 1. rewrite Z.land_ones by lia.
  change (2 ^ 1) with 2. rewrite Zmod_odd. reflexivity.
Qed.

End Popcount.

(** ** Single bits *)

Section Bits.

Import Word64.

Lemma land_shr_one (a q : Z) :
  0 <= q -> Z.land (shr a q) 1 = Z.b2z (Z.testbit a q).
Proof.
  intros Hq. unfold shr. change 1 with (Z.ones 1).
  rewrite Z.land_ones by lia. change (2 ^ 1) with 2.
  rewrite <- Z.bit0_mod, Z.shiftr_spec by lia. reflexivity.
Qed.

Lemma shl_one (q : Z) : 0 <= q < 64 -> shl 1 q = 2 ^ q.
Proof.
  intros Hq. unfold shl, wrap, modulus, width.
  rewrite (Z.mod_small q 64) by lia.
  rewrite Z.shiftl_1_l. apply Z.mod_small. split.
  - apply Z.pow_nonneg. lia.
  - apply Z.pow_lt_mono_r; lia.
Qed.

Lemma testbit_shl_one (q i : Z) :
  0 <= q < 64 -> 0 <= i -> Z.testbit (shl 1 q) i = (i =? q).
Proof.
  intros Hq Hi. rewrite shl_one by assumption.
  rewrite Z.pow2_bits_eqb by lia. apply Z.eqb_sym.
Qed.

Lemma testbit_of_neg_int (v i : Z) :
  0 <= i < 64 -> (v = 0 \/ v = 1) ->
  Z.testbit (of_neg_int v) i = (v =? 1).
Proof.
  intros Hi [-> | ->]; unfold of_neg_int, wrap, modulus, width.
  - apply Z.testbit_0_l.
  - change (- (1) mod 2 ^ 64) with (Z.ones 64).
    rewrite Z.ones_spec_low by lia. reflexivity.
Qed.

Lemma testbit_below (k a i : Z) :
  0 <= a < 2 ^ k -> k <= i -> Z.testbit a i = false.
Proof.
  intros Ha Hi. destruct (Z.ltb_spec k 0) as [Hk|Hk].
  - rewrite Z.pow_neg_r in Ha by assumption. lia.
  - rewrite <- (Z.mod_small a (2 ^ k)) by assumption.
    apply Z.mod_pow2_bits_high. lia.
Qed.

End Bits.

(** What [setZ] computes at the written position: the new Z bit is the old
    one flipped by [value xor x(qubit)], because the mask is taken from [r]. *)
Lemma setZ_z (p : Pauli) (qubit value : Z) :
  0 <= qubit < 64 -> (value = 0 \/ value = 1) ->
  z (setZ p qubit value) qubit =
  Z.b2z (xorb (Z.testbit (s p) qubit)
              (xorb (value =? 1) (Z.testbit (r p) qubit))).
Proof.
  intros Hq Hv. unfold z, setZ. cbn [s].
  rewrite land_shr_one by lia.
  rewrite Z.lxor_spec, Z.land_spec, Z.lxor_spec.
  rewrite testbit_of_neg_int, testbit_shl_one by (assumption || lia).
  rewrite Z.eqb_refl, andb_true_r. reflexivity.
Qed.

(** The sibling [setX] masks with the field it writes and stores [value]. *)
Lemma setX_x (p : Pauli) (qubit value : Z) :
  0 <= qubit < 64 -> (value = 0 \/ value = 1) ->
  x (setX p qubit value) qubit = value.
Proof.
  intros Hq Hv. unfold x, setX. cbn [r].
  rewrite land_shr_one by lia.
  rewrite Z.lxor_spec, Z.land_spec, Z.lxor_spec.
  rewrite testbit_of_neg_int, testbit_shl_one by (assumption || lia).
  rewrite Z.eqb_refl, andb_true_r.
  destruct Hv as [-> | ->]; destruct (Z.testbit (r p) qubit); reflexivity.
Qed.

(** C2.  On the operator [X] (one qubit), [setZ(0, 1)] leaves the Z bit of
    qubit 0 at 0, and on [Z] the call [setZ(0, 0)] leaves it at 1: the query
    [z(0)] does not return the written value.  [setX] on the same operators
    stores the value it is given. *)
Theorem setZ_ignores_value_when_x_differs :
  z (setZ (Pauli_of_string "X") 0 1) 0 = 0 /\
  z (setZ (Pauli_of_string "Z") 0 0) 0 = 1 /\
  x (setX (Pauli_of_string "X") 0 0) 0 = 0 /\
  x (setX (Pauli_of_string "Z") 0 1) 0 = 1.
Proof. split; [|split; [|split]]; reflexivity. Qed.

(** C3 (as stated).  For [YY] the stored phase is 2 and [popcount(r & s)] is
    2, of parity 0; the conventional phase is 0, not 2 - 0. *)
Lemma getPhase_parity_counterexample :
  let p := Pauli_of_string "YY" in
  getXZPhase p = 2 /\
  Word64.popcount (Z.land (r p) (s p)) mod 2 = 0 /\
  getPhase p = 0 /\
  getPhase p <>
    BinaryPhase.sub (getXZPhase p) (Word64.popcount (Z.land (r p) (s p)) mod 2).
Proof. cbv. repeat split; discriminate. Qed.

(** C3 (amended).  [getPhase()] equals [getXZPhase()] minus
    [popcount(r & s)] itself, reduced modulo 4. *)
Theorem getPhase_eq_XZPhase_minus_popcount (p : Pauli) :
  getPhase p =
  (getXZPhase p - Word64.popcount (Z.land (r p) (s p))) mod 4.
Proof.
  unfold getPhase, getXZPhase, getYPhase, BinaryPhase.sub, BinaryPhase.make.
  apply Zminus_mod_idemp_r.
Qed.

(** C9.  The commutator is symmetric in its arguments (of equal length or
    not), and it is 1 exactly when [popcount((r1 & s2) ^ (r2 & s1))] is odd. *)
Theorem commutator_symmetric (p1 p2 : Pauli) :
  commutator p1 p2 = commutator p2 p1 /\
  (commutator p1 p2 = 1 <->
   Z.odd (Word64.popcount
            (Z.lxor (Z.land (r p1) (s p2)) (Z.land (r p2) (s p1)))) = true).
Proof.
  split.
  - unfold commutator. f_equal. f_equal. apply Z.lxor_comm.
  - unfold commutator. rewrite land_one_odd.
    destruct (Z.odd _); split; intros H; (reflexivity || discriminate H).
Qed.

(** C10.  [getIdentityString()] is the complement of
    [getXString() | getZString()] on all 64 bits: every bit from position
    [n] up to 63 is set, its population count is [64 - pauliWeight()], and
    that differs from [identityCount()] as soon as [n < 64]. *)
Theorem getIdentityString_full_word (p : Pauli) (Hwf : wf p) :
  (forall i, 0 <= i < 64 ->
     Z.testbit (getIdentityString p) i =
     negb (Z.testbit (Z.lor (getXString p) (getZString p)) i)) /\
  (forall i, n p <= i < 64 -> Z.testbit (getIdentityString p) i = true) /\
  Word64.popcount (getIdentityString p) = 64 - pauliWeight p /\
  (n p < 64 -> Word64.popcount (getIdentityString p) <> identityCount p).
Proof.
  destruct Hwf as (Hn & Hr & Hs & _).
  pose proof (lor_in_range (n p) (r p) (s p) ltac:(lia) Hr Hs) as Hrs.
  assert (Hle : 2 ^ n p <= 2 ^ 64) by (apply Z.pow_le_mono_r; lia).
  assert (Hbit : forall i, 0 <= i < 64 ->
            Z.testbit (getIdentityString p) i =
            negb (Z.testbit (Z.lor (r p) (s p)) i)).
  { intros i Hi. unfold getIdentityString, Word64.complement, Word64.wrap,
      Word64.modulus, Word64.width.
    rewrite Z.mod_pow2_bits_low by lia. apply Z.lnot_spec. lia. }
  assert (Hpop : Word64.popcount (getIdentityString p) = 64 - pauliWeight p).
  { unfold getIdentityString, pauliWeight.
    rewrite complement_eq by (unfold Word64.modulus, Word64.width; lia).
    pose proof (popcount_complement 64 (Z.lor (r p) (s p))) as H.
    change (Z.of_nat 64) with 64 in H.
    unfold Word64.modulus, Word64.width. lia. }
  repeat split.
  - exact Hbit.
  - intros i Hi. rewrite Hbit by lia.
    rewrite (testbit_below (n p)) by (assumption || lia). reflexivity.
  - exact Hpop.
  - intros Hlt. rewrite Hpop. unfold identityCount. lia.
Qed.

Lemma getIdentityString_full_word_witness :
  let p := Pauli_of_string "XYZI" in
  wf p /\
  getIdentityString p = 2 ^ 64 - 1 - 7 /\
  Word64.popcount (getIdentityString p) = 61 /\
  identityCount p = 1 /\
  Word64.popcount (getIdentityString p) <> identityCount p.
Proof.
  assert (W : wf (Pauli_of_string "XYZI")) by (cbv; repeat split; discriminate).
  split; [exact W|].
  split; [reflexivity|].
  split; [reflexivity|].
  split; [reflexivity|].
  apply (getIdentityString_full_word (Pauli_of_string "XYZI") W).
  reflexivity.
Defined.

(** ** The string constructor *)

Section Parsing.

Lemma fromStringStep_r (c : ascii) (i : Z) (p : Pauli) :
  r (fromStringStep c i p) =
  if hasX c then Z.lor (r p) (Word64.shl 1 i) else r p.
Proof.
  unfold fromStringStep, hasX.
  destruct (Ascii.eqb_spec c "I") as [->|_]; [reflexivity|].
  destruct (Ascii.eqb_spec c "X") as [->|_]; [reflexivity|].
  destruct (Ascii.eqb_spec c "Y") as [->|_]; [reflexivity|].
  destruct (Ascii.eqb_spec c "Z") as [->|_]; reflexivity.
Qed.

Lemma fromStringStep_s (c : ascii) (i : Z) (p : Pauli) :
  s (fromStringStep c i p) =
  if hasZ c then Z.lor (s p) (Word64.shl 1 i) else s p.
Proof.
  unfold fromStringStep, hasZ.
  destruct (Ascii.eqb_spec c "I") as [->|_]; [reflexivity|].
  destruct (Ascii.eqb_spec c "X") as [->|_]; [reflexivity|].
  destruct (Ascii.eqb_spec c "Y") as [->|_]; [reflexivity|].
  destruct (Ascii.eqb_spec c "Z") as [->|_]; reflexivity.
Qed.

Lemma fromStringStep_n_phase (c : ascii) (i : Z) (p : Pauli) :
  n (fromStringStep c i p) = n p /\ phase (fromStringStep c i p) = phase p.
Proof.
  unfold fromStringStep.
  repeat match goal with
         | |- context [Ascii.eqb ?a ?b] => destruct (Ascii.eqb a b)
         end; split; reflexivity.
Qed.

Lemma fromStringLoop_n_phase (str : string) :
  forall i p,
    n (fromStringLoop str i p) = n p /\
    phase (fromStringLoop str i p) = phase p.
Proof.
  induction str as [|c rest IH]; intros i p; simpl.
  - split; reflexivity.
  - destruct (IH (i + 1) (fromStringStep c i p)) as [E1 E2].
    destruct (fromStringStep_n_phase c i p) as [F1 F2].
    split; congruence.
Qed.

Lemma testbit_shl_one_any (i j : Z) :
  0 <= i < 64 -> 0 <= j ->
  Z.testbit (Word64.shl 1 i) j = (j =? i) && (j <? 64).
Proof.
  intros Hi Hj. unfold Word64.shl, Word64.wrap, Word64.modulus, Word64.width.
  rewrite (Z.mod_small i 64) by lia.
  rewrite Z.shiftl_1_l.
  destruct (Z.ltb_spec j 64) as [Hlt|Hge].
  - rewrite Z.mod_pow2_bits_low by lia.
    rewrite Z.pow2_bits_eqb by lia. rewrite andb_true_r. apply Z.eqb_sym.
  - rewrite Z.mod_pow2_bits_high by lia. rewrite andb_false_r. reflexivity.
Qed.

Lemma bitFrom_cons (sel : ascii -> bool) (c : ascii) (rest : string) (i j : Z) :
  0 <= i -> 0 <= j ->
  bitFrom sel (String c rest) i j =
  (sel c && ((j =? i) && (j <? 64))) || bitFrom sel rest (i + 1) j.
Proof.
  intros Hi Hj. unfold bitFrom.
  destruct (Z.leb_spec i j) as [Hle|Hgt].
  - destruct (Z.eqb_spec j i) as [->|Hne].
    + rewrite Z.sub_diag. simpl.
      destruct (Z.leb_spec (i + 1) i); [lia|].
      rewrite orb_false_r. reflexivity.
    + destruct (Z.leb_spec (i + 1) j); [|lia].
      replace (Z.to_nat (j - i)) with (S (Z.to_nat (j - (i + 1)))) by lia.
      simpl. rewrite andb_false_r. reflexivity.
  - destruct (Z.leb_spec (i + 1) j); [lia|].
    destruct (Z.eqb_spec j i); [lia|].
    rewrite andb_false_r. reflexivity.
Qed.

Lemma fromStringLoop_r (str : string) :
  forall i p j, 0 <= i -> 0 <= j ->
    i + Z.of_nat (String.length str) <= 64 ->
    Z.testbit (r (fromStringLoop str i p)) j =
    Z.testbit (r p) j || bitFrom hasX str i j.
Proof.
  induction str as [|c rest IH]; intros i p j Hi Hj Hlen.
  - simpl. unfold bitFrom. destruct (i <=? j), (Z.to_nat (j - i));
      simpl; rewrite orb_false_r; reflexivity.
  - cbn [String.length] in Hlen. cbn [fromStringLoop].
    rewrite IH by lia.
    rewrite bitFrom_cons by assumption.
    rewrite fromStringStep_r. destruct (hasX c).
    + rewrite Z.lor_spec, testbit_shl_one_any by lia.
      rewrite andb_true_l, orb_assoc. reflexivity.
    + rewrite andb_false_l, orb_false_l. reflexivity.
Qed.

Lemma fromStringLoop_s (str : string) :
  forall i p j, 0 <= i -> 0 <= j ->
    i + Z.of_nat (String.length str) <= 64 ->
    Z.testbit (s (fromStringLoop str i p)) j =
    Z.testbit (s p) j || bitFrom hasZ str i j.
Proof.
  induction str as [|c rest IH]; intros i p j Hi Hj Hlen.
  - simpl. unfold bitFrom. destruct (i <=? j), (Z.to_nat (j - i));
      simpl; rewrite orb_false_r; reflexivity.
  - cbn [String.length] in Hlen. cbn [fromStringLoop].
    rewrite IH by lia.
    rewrite bitFrom_cons by assumption.
    rewrite fromStringStep_s. destruct (hasZ c).
    + rewrite Z.lor_spec, testbit_shl_one_any by lia.
      rewrite andb_true_l, orb_assoc. reflexivity.
    + rewrite andb_false_l, orb_false_l. reflexivity.
Qed.

End Parsing.

(** ** The phase marker *)

Section Marker.

Lemma substring_all (str : string) :
  String.substring 0 (String.length str) str = str.
Proof. induction str as [|c rest IH]; simpl; [reflexivity|now rewrite IH]. Qed.

Lemma substr_1 (c : ascii) (rest : string) : substr (String c rest) 1 = rest.
Proof. unfold substr. simpl. rewrite Nat.sub_0_r. apply substring_all. Qed.

Lemma substr_2 (c d : ascii) (rest : string) :
  substr (String c (String d rest)) 2 = rest.
Proof. unfold substr. simpl. rewrite Nat.sub_0_r. apply substring_all. Qed.

Lemma starts_with_char (c d : ascii) (rest : string) :
  starts_with (String c rest) (String d EmptyString) = Ascii.eqb c d.
Proof.
  unfold starts_with. simpl.
  destruct (ascii_dec d c) as [->|Hne].
  - rewrite Ascii.eqb_refl. destruct rest; reflexivity.
  - symmetry. apply Ascii.eqb_neq. congruence.
Qed.

Lemma starts_with_two (c d : ascii) (str : string) :
  starts_with str (String c (String d EmptyString)) =
  match str with
  | String a (String b _) => Ascii.eqb a c && Ascii.eqb b d
  | _ => false
  end.
Proof.
  unfold starts_with. destruct str as [|a [|b rest]]; simpl.
  - reflexivity.
  - destruct (ascii_dec c a); reflexivity.
  - destruct (ascii_dec c a) as [->|Hne].
    + rewrite Ascii.eqb_refl. simpl.
      destruct (ascii_dec d b) as [->|Hne].
      * rewrite Ascii.eqb_refl. destruct rest; reflexivity.
      * symmetry. apply Ascii.eqb_neq. congruence.
    + replace (Ascii.eqb a c) with false; [reflexivity|].
      symmetry. apply Ascii.eqb_neq. congruence.
Qed.

Lemma isPauliChar_cases (c : ascii) :
  isPauliChar c = true ->
  c = "I"%char \/ c = "X"%char \/ c = "Y"%char \/ c = "Z"%char.
Proof.
  unfold isPauliChar.
  destruct (Ascii.eqb_spec c "I"); [auto|].
  destruct (Ascii.eqb_spec c "X"); [auto|].
  destruct (Ascii.eqb_spec c "Y"); [auto|].
  destruct (Ascii.eqb_spec c "Z"); [auto|].
  discriminate.
Qed.

Lemma isPauliChar_not_marker (c : ascii) :
  isPauliChar c = true ->
  Ascii.eqb c "i" = false /\ Ascii.eqb c "-" = false.
Proof.
  intros H. destruct (isPauliChar_cases c H) as [-> | [-> | [-> | ->]]];
    split; reflexivity.
Qed.

(** The constructor, read through the marker it consumes. *)
Lemma Pauli_of_string_parts (str : string) :
  Pauli_of_string str =
  (let p1 := fromStringOperator (startOperator (markerValue (markerPart str)))
               (operatorPart str) in
   increasePhase p1 (getYPhase p1)).
Proof.
  unfold Pauli_of_string, markerPart, operatorPart.
  destruct (starts_with str "i"); [reflexivity|].
  destruct (starts_with str "-i"); [reflexivity|].
  destruct (starts_with str "-"); reflexivity.
Qed.

Lemma markerPart_cases (str : string) :
  markerPart str = EmptyString \/ markerPart str = "i"%string \/
  markerPart str = "-i"%string \/ markerPart str = "-"%string.
Proof.
  unfold markerPart.
  destruct (starts_with str "i"); [auto|].
  destruct (starts_with str "-i"); [auto|].
  destruct (starts_with str "-"); auto.
Qed.

(** A marker in front of a string that starts with a Pauli character is
    consumed as that marker. *)
Lemma marked_parts (marker body : string) :
  cleanStart body ->
  (marker = EmptyString \/ marker = "i"%string \/
   marker = "-i"%string \/ marker = "-"%string) ->
  markerPart (marker ++ body) = marker /\
  operatorPart (marker ++ body) = body.
Proof.
  intros Hc Hm. unfold markerPart, operatorPart.
  destruct Hm as [-> | [-> | [-> | ->]]]; simpl String.append.
  - destruct body as [|c rest]; [split; reflexivity|].
    simpl in Hc. destruct (isPauliChar_not_marker c Hc) as [E1 E2].
    rewrite !starts_with_char, starts_with_two, E1, E2.
    destruct rest; split; reflexivity.
  - rewrite starts_with_char. simpl. rewrite substr_1. split; reflexivity.
  - rewrite starts_with_char, starts_with_two. simpl.
    rewrite substr_2. split; reflexivity.
  - rewrite !starts_with_char, starts_with_two. simpl.
    destruct body as [|c rest].
    + rewrite substr_1. split; reflexivity.
    + simpl in Hc. destruct (isPauliChar_not_marker c Hc) as [E1 E2].
      rewrite E1. rewrite substr_1. split; reflexivity.
Qed.

End Marker.

(** ** Rendering and parsing *)

Section RoundTrip.

Lemma Pauli_ext (a b : Pauli) :
  r a = r b -> s a = s b -> n a = n b -> phase a = phase b -> a = b.
Proof. destruct a, b; simpl; intros; subst; reflexivity. Qed.

Lemma length_toStringFrom (p : Pauli) (k : nat) :
  forall i, String.length (toStringFrom p i k) = k.
Proof. induction k as [|k IH]; intros i; simpl; [|rewrite IH]; reflexivity. Qed.

Lemma get_toStringFrom (p : Pauli) (k : nat) :
  forall i m,
    String.get m (toStringFrom p i k) =
    if (m <? k)%nat
    then Some (pauliChar (x p (i + Z.of_nat m) + z p (i + Z.of_nat m) * 2))
    else None.
Proof.
  induction k as [|k IH]; intros i m.
  - destruct m; reflexivity.
  - destruct m as [|m].
    + simpl. rewrite Z.add_0_r. reflexivity.
    + cbn [toStringFrom String.get]. rewrite IH.
      replace (i + 1 + Z.of_nat m) with (i + Z.of_nat (S m)) by lia.
      reflexivity.
Qed.

Lemma hasX_pauliChar (p : Pauli) (j : Z) :
  0 <= j -> hasX (pauliChar (x p j + z p j * 2)) = Z.testbit (r p) j.
Proof.
  intros Hj. unfold x, z. rewrite !land_shr_one by assumption.
  destruct (Z.testbit (r p) j), (Z.testbit (s p) j); reflexivity.
Qed.

Lemma hasZ_pauliChar (p : Pauli) (j : Z) :
  0 <= j -> hasZ (pauliChar (x p j + z p j * 2)) = Z.testbit (s p) j.
Proof.
  intros Hj. unfold x, z. rewrite !land_shr_one by assumption.
  destruct (Z.testbit (r p) j), (Z.testbit (s p) j); reflexivity.
Qed.

Lemma isPauliChar_pauliChar (idx : Z) : isPauliChar (pauliChar idx) = true.
Proof.
  unfold pauliChar.
  destruct (idx =? 0); [reflexivity|].
  destruct (idx =? 1); [reflexivity|].
  destruct (idx =? 2); reflexivity.
Qed.

Lemma cleanStart_toString (p : Pauli) : cleanStart (toString p).
Proof.
  unfold toString. destruct (Z.to_nat (n p)); simpl; [exact I|].
  apply isPauliChar_pauliChar.
Qed.

Lemma bitFrom_toString (p : Pauli) (j : Z) :
  0 <= n p <= 64 -> 0 <= j ->
  bitFrom hasX (toString p) 0 j = (j <? n p) && Z.testbit (r p) j /\
  bitFrom hasZ (toString p) 0 j = (j <? n p) && Z.testbit (s p) j.
Proof.
  intros Hn Hj. unfold bitFrom, toString.
  destruct (Z.leb_spec 0 j); [|lia].
  rewrite Z.sub_0_r, get_toStringFrom, Z.add_0_l, Z2Nat.id by assumption.
  destruct (Nat.ltb_spec (Z.to_nat j) (Z.to_nat (n p))) as [Hlt|Hge].
  - destruct (Z.ltb_spec j (n p)); [|lia].
    destruct (Z.ltb_spec j 64); [|lia].
    rewrite hasX_pauliChar, hasZ_pauliChar by assumption.
    rewrite !andb_true_r, !andb_true_l. split; reflexivity.
  - destruct (Z.ltb_spec j (n p)); [lia|]. split; reflexivity.
Qed.

(** Parsing the rendering of a well-formed operator gives its bit fields and
    its length back. *)
Lemma fromStringOperator_toString (p : Pauli) (k : Z) :
  wf p ->
  fromStringOperator (startOperator k) (toString p) =
  mkPauli (r p) (s p) (n p) k.
Proof.
  intros (Hn & Hr & Hs & _). unfold fromStringOperator.
  set (p0 := mkPauli _ _ _ _).
  destruct (fromStringLoop_n_phase (toString p) 0 p0) as [En Ep].
  apply Pauli_ext; cbn [r s n phase].
  - apply Z.bits_inj'. intros j Hj.
    rewrite fromStringLoop_r
      by (unfold toString; rewrite ?length_toStringFrom; lia).
    destruct (bitFrom_toString p j Hn Hj) as [-> _].
    subst p0. cbn [r]. rewrite Z.testbit_0_l, orb_false_l.
    destruct (Z.ltb_spec j (n p)); [reflexivity|].
    rewrite (testbit_below (n p)) by (assumption || lia). reflexivity.
  - apply Z.bits_inj'. intros j Hj.
    rewrite fromStringLoop_s
      by (unfold toString; rewrite ?length_toStringFrom; lia).
    destruct (bitFrom_toString p j Hn Hj) as [_ ->].
    subst p0. cbn [s]. rewrite Z.testbit_0_l, orb_false_l.
    destruct (Z.ltb_spec j (n p)); [reflexivity|].
    rewrite (testbit_below (n p)) by (assumption || lia). reflexivity.
  - rewrite En. subst p0. cbn [n]. unfold toString.
    rewrite length_toStringFrom. lia.
  - rewrite Ep. reflexivity.
Qed.

(** C7.  Parsing the formatted operator (the marker of [getPhase()] followed
    by [toString()]) gives the operator back, field by field. *)
Theorem parse_format_roundtrip (p : Pauli) (Hwf : wf p) :
  Pauli_of_string (format p) = p.
Proof.
  pose proof Hwf as (Hn & Hr & Hs & Hp).
  set (g := getPhase p).
  assert (Hg : 0 <= g < 4).
  { subst g. unfold getPhase, BinaryPhase.sub. apply Z.mod_pos_bound. lia. }
  set (marker := if g =? 0 then EmptyString else BinaryPhase.toString g).
  assert (Hm : (marker = EmptyString \/ marker = "i"%string \/
                marker = "-i"%string \/ marker = "-"%string) /\
               markerValue marker = g).
  { subst marker. assert (C : g = 0 \/ g = 1 \/ g = 2 \/ g = 3) by lia.
    destruct C as [-> | [-> | [-> | ->]]]; cbv; auto 6. }
  destruct Hm as [Hm Hv].
  change (format p) with (String.append marker (toString p)).
  rewrite Pauli_of_string_parts.
  destruct (marked_parts marker (toString p) (cleanStart_toString p) Hm)
    as [-> ->].
  rewrite Hv. cbv zeta.
  rewrite fromStringOperator_toString by assumption.
  apply Pauli_ext; cbn [increasePhase r s n phase]; try reflexivity.
  unfold getYPhase, BinaryPhase.add, BinaryPhase.make. cbn [r s].
  subst g. unfold getPhase, BinaryPhase.sub, getYPhase, BinaryPhase.make.
  generalize (Word64.popcount (Z.land (r p) (s p))). intros c.
  clear - Hp. Z.div_mod_to_equations. lia.
Qed.

Lemma parse_format_roundtrip_witness :
  wf (mkPauli 3 6 4 3) /\
  format (mkPauli 3 6 4 3) = "-XYZI"%string /\
  Pauli_of_string "-XYZI" = mkPauli 3 6 4 3.
Proof.
  assert (W : wf (mkPauli 3 6 4 3)) by (cbv; repeat split; discriminate).
  split; [exact W|]. split; [reflexivity|].
  exact (parse_format_roundtrip (mkPauli 3 6 4 3) W).
Defined.

End RoundTrip.

(** ** Characters outside the alphabet *)

Section Tolerance.











End Tolerance.

(** * Properties of the synthesis formulator *)

Example ex_scenario_empty_graph :
  fst (findHTCircuit (checkingSolver (onesAt [0; 3; 4; 7]%nat)) (emptyGraph 2)
         [Pauli_of_string "XI"; Pauli_of_string "IX"] false) =
  Ok (Some [mkGate 1 0 0 1; mkGate 1 0 0 1]).
Proof. vm_compute. reflexivity. Qed.

Example ex_scenario_edge_graph :
  fst (findHTCircuit (checkingSolver (onesAt [0; 3; 4; 7; 9; 10]%nat))
         (edgeGraph 2)
         [Pauli_of_string "XZ"; Pauli_of_string "ZX"] false) =
  Ok (Some [mkGate 1 0 0 1; mkGate 1 0 0 1]).
Proof. vm_compute. reflexivity. Qed.

(** ** Running monadic code *)

Section Running.

Context {A B : Type}.

Lemma bind_Ok (c : M A) (k : A -> M B) (st st' : Session) (b : B) :
  bind c k st = (Ok b, st') ->
  exists a st1, c st = (Ok a, st1) /\ k a st1 = (Ok b, st').
Proof.
  unfold bind. destruct (c st) as [[a | e | | ] st1]; intros H;
    try discriminate H. exists a, st1. split; [reflexivity|exact H].
Qed.


End Running.

Lemma ret_Ok {A : Type} (a b : A) (st st' : Session) :
  ret a st = (Ok b, st') -> b = a /\ st' = st.
Proof. unfold ret. intros H. inversion H. split; reflexivity. Qed.

Lemma call_Ok (grb : Gurobi) (c : ApiCall) (st st' : Session) (u : unit) :
  call grb c st = (Ok u, st') -> st' = st.
Proof.
  unfold call. destruct (raises grb c (model st)); intros H; inversion H.
  reflexivity.
Qed.

Lemma index_Ok {A : Type} (v : list A) (i : nat) (st st' : Session) (a : A) :
  index v i st = (Ok a, st') -> nth_error v i = Some a /\ st' = st.
Proof.
  unfold index. destruct (nth_error v i); intros H; inversion H.
  split; reflexivity.
Qed.

Lemma addVar_Ok (grb : Gurobi) (l u o : Q) (t : VType) (nm : string)
  (st st' : Session) (v : GRBVar) :
  addVar grb l u o t nm st = (Ok v, st') ->
  v = List.length (modelVars (model st)) /\
  st' = mkSession
          (mkModel (modelVars (model st) ++ [mkVarDecl l u o t nm])
                   (modelQConstrs (model st)) (modelConstrs (model st))
                   (modelObjective (model st)))
          (solution st) (stdout st).
Proof.
  unfold addVar. intros H. apply bind_Ok in H. destruct H as (u0 & st1 & H1 & H2).
  apply call_Ok in H1. subst st1. inversion H2. split; reflexivity.
Qed.

Lemma addQConstr_Ok (grb : Gurobi) (lhs : GRBQuadExpr) (rhs : Q) (nm : string)
  (st st' : Session) (u : unit) :
  addQConstr grb lhs rhs nm st = (Ok u, st') ->
  st' = mkSession
          (mkModel (modelVars (model st))
                   (modelQConstrs (model st) ++ [mkQConstr lhs rhs nm])
                   (modelConstrs (model st)) (modelObjective (model st)))
          (solution st) (stdout st).
Proof.
  unfold addQConstr. intros H. apply bind_Ok in H.
  destruct H as (u0 & st1 & H1 & H2).
  apply call_Ok in H1. subst st1. inversion H2. reflexivity.
Qed.

Lemma addConstr_Ok (grb : Gurobi) (lhs rhs : GRBLinExpr) (nm : string)
  (st st' : Session) (u : unit) :
  addConstr grb lhs rhs nm st = (Ok u, st') ->
  st' = mkSession
          (mkModel (modelVars (model st)) (modelQConstrs (model st))
                   (modelConstrs (model st) ++ [mkLinConstr lhs rhs nm])
                   (modelObjective (model st)))
          (solution st) (stdout st).
Proof.
  unfold addConstr. intros H. apply bind_Ok in H.
  destruct H as (u0 & st1 & H1 & H2).
  apply call_Ok in H1. subst st1. inversion H2. reflexivity.
Qed.

Lemma setObjective_Ok (grb : Gurobi) (e : GRBLinExpr)
  (st st' : Session) (u : unit) :
  setObjective grb e st = (Ok u, st') ->
  st' = mkSession
          (mkModel (modelVars (model st)) (modelQConstrs (model st))
                   (modelConstrs (model st)) (Some e))
          (solution st) (stdout st).
Proof.
  unfold setObjective. intros H. apply bind_Ok in H.
  destruct H as (u0 & st1 & H1 & H2).
  apply call_Ok in H1. subst st1. inversion H2. reflexivity.
Qed.

Lemma optimize_Ok (grb : Gurobi) (st st' : Session) (u : unit) :
  optimize grb st = (Ok u, st') ->
  st' = mkSession (model st) (Some (solve grb (model st))) (stdout st).
Proof.
  unfold optimize. intros H. apply bind_Ok in H.
  destruct H as (u0 & st1 & H1 & H2).
  apply call_Ok in H1. subst st1. inversion H2. reflexivity.
Qed.

Lemma getStatus_Ok (grb : Gurobi) (st st' : Session) (status : Z) :
  getStatus grb st = (Ok status, st') ->
  st' = st /\
  status = match solution st with
           | Some sol => fst sol
           | None => GRB_LOADED
           end.
Proof.
  unfold getStatus. intros H. apply bind_Ok in H.
  destruct H as (u0 & st1 & H1 & H2).
  apply call_Ok in H1. subst st1. inversion H2. split; reflexivity.
Qed.

Lemma getX_Ok (grb : Gurobi) (v : GRBVar) (st st' : Session) (q : Q) :
  getX grb v st = (Ok q, st') ->
  st' = st /\ exists sol, solution st = Some sol /\ q = snd sol v.
Proof.
  unfold getX. intros H. apply bind_Ok in H.
  destruct H as (u0 & st1 & H1 & H2).
  apply call_Ok in H1. subst st1.
  destruct (solution st) as [sol|]; inversion H2.
  split; [reflexivity|]. exists sol. split; reflexivity.
Qed.


(** Inversion of a successful run, one call at a time. *)
Ltac invert_call H :=
  first
    [ apply addVar_Ok in H; destruct H as [? ?]
    | apply addQConstr_Ok in H
    | apply addConstr_Ok in H
    | apply setObjective_Ok in H
    | apply optimize_Ok in H
    | apply getStatus_Ok in H; destruct H as [? ?]
    | apply getX_Ok in H; destruct H as (? & ? & ? & ?)
    | apply call_Ok in H
    | apply index_Ok in H; destruct H as [? ?]
    | apply ret_Ok in H; destruct H as [? ?] ].

Ltac invert_run H :=
  repeat
    (let a := fresh "a" in
     let st := fresh "st" in
     let Hc := fresh "Hc" in
     apply bind_Ok in H; destruct H as (a & st & Hc & H);
     try (invert_call Hc; subst; cbn [model solution stdout modelVars modelQConstrs modelConstrs
                       modelObjective] in * ));
  try (invert_call H; subst; cbn [model solution stdout modelVars modelQConstrs modelConstrs
                       modelObjective] in * ).

(** ** The declarations of the unknowns *)

Lemma nth_error_snoc {A : Type} (l : list A) (a b : A) (i : nat) :
  List.length l = i -> nth_error (l ++ [a]) i = Some b -> b = a.
Proof.
  intros <- H. rewrite nth_error_app2 in H by lia.
  rewrite Nat.sub_diag in H. simpl in H. congruence.
Qed.

Lemma gateVarsOf_S (k : nat) :
  gateVarsOf (S k) =
  mkGateVars (axxVars (gateVarsOf k) ++ [4 * k])%nat
             (axzVars (gateVarsOf k) ++ [4 * k + 1])%nat
             (azxVars (gateVarsOf k) ++ [4 * k + 2])%nat
             (azzVars (gateVarsOf k) ++ [4 * k + 3])%nat.
Proof.
  unfold gateVarsOf. cbn [axxVars axzVars azxVars azzVars].
  rewrite seq_S, !map_app. reflexivity.
Qed.

Lemma declareGate_Ok (grb : Gurobi) (k : nat) (st st' : Session)
  (vs' : GateVars) :
  declareGate grb (gateVarsOf k) k st = (Ok vs', st') ->
  List.length (modelVars (model st)) = (4 * k)%nat ->
  vs' = gateVarsOf (S k) /\
  st' = mkSession
          (mkModel (modelVars (model st) ++ gateDecls k)
                   (modelQConstrs (model st) ++ [gateConstr k])
                   (modelConstrs (model st)) (modelObjective (model st)))
          (solution st) (stdout st).
Proof.
  intros H Hlen. unfold declareGate in H.
  invert_run H.
  cbn [axxVars axzVars azxVars azzVars gateVarsOf] in *.
  repeat match goal with
         | E : nth_error (_ ++ [_]) _ = Some _ |- _ =>
             apply nth_error_snoc in E;
             [subst | rewrite length_map, length_seq; reflexivity]
         end.
  rewrite !length_app, Hlen. cbn [List.length].
  replace (4 * k + 1 + 1 + 1)%nat with (4 * k + 3)%nat by lia.
  replace (4 * k + 1 + 1)%nat with (4 * k + 2)%nat by lia.
  split.
  - rewrite gateVarsOf_S. reflexivity.
  - unfold gateDecls, gateConstr. rewrite <- !app_assoc. reflexivity.
Qed.

Lemma declareGates_Ok (grb : Gurobi) (j : nat) :
  forall (k : nat) (st st' : Session) (vs' : GateVars),
    foldM (declareGate grb) (seq k j) (gateVarsOf k) st = (Ok vs', st') ->
    List.length (modelVars (model st)) = (4 * k)%nat ->
    vs' = gateVarsOf (k + j) /\
    st' = mkSession
            (mkModel (modelVars (model st) ++ flat_map gateDecls (seq k j))
                     (modelQConstrs (model st) ++ map gateConstr (seq k j))
                     (modelConstrs (model st)) (modelObjective (model st)))
            (solution st) (stdout st).
Proof.
  induction j as [|j IH]; intros k st st' vs' H Hlen.
  - cbn in H. inversion H. subst. rewrite Nat.add_0_r. cbn.
    rewrite !app_nil_r. destruct st' as [[? ? ? ?] ? ?]. split; reflexivity.
  - cbn [seq foldM] in H. apply bind_Ok in H.
    destruct H as (vs1 & st1 & H1 & H2).
    apply declareGate_Ok in H1; [|assumption]. destruct H1 as [-> ->].
    apply IH in H2.
    + destruct H2 as [-> ->]. cbn [model solution stdout modelVars
        modelQConstrs modelConstrs modelObjective].
      split; [f_equal; lia|].
      cbn [flat_map map]. rewrite <- !app_assoc. reflexivity.
    + cbn [model modelVars]. rewrite length_app, Hlen. cbn. lia.
Qed.

(** ** The slack variables *)

Lemma declareDummies_Ok (grb : Gurobi) (j : nat) :
  forall (k : nat) (dv dv' : list GRBVar) (st st' : Session),
    foldM (declareDummy grb) (seq k j) dv st = (Ok dv', st') ->
    dv' = dv ++ seq (List.length (modelVars (model st))) j /\
    st' = mkSession
            (mkModel (modelVars (model st) ++ repeat dummyDecl j)
                     (modelQConstrs (model st)) (modelConstrs (model st))
                     (modelObjective (model st)))
            (solution st) (stdout st).
Proof.
  induction j as [|j IH]; intros k dv dv' st st' H.
  - cbn in H. inversion H. subst. cbn. rewrite !app_nil_r.
    destruct st' as [[? ? ? ?] ? ?]. split; reflexivity.
  - cbn [seq foldM] in H. apply bind_Ok in H.
    destruct H as (dv1 & st1 & H1 & H2).
    unfold declareDummy in H1. invert_run H1.
    apply IH in H2. destruct H2 as [-> ->].
    cbn [model solution stdout modelVars modelQConstrs modelConstrs
         modelObjective].
    rewrite length_app. cbn [List.length seq repeat].
    rewrite <- !app_assoc. cbn [app].
    replace (List.length (modelVars (model st)) + 1)%nat
      with (S (List.length (modelVars (model st)))) by lia.
    split; reflexivity.
Qed.

(** ** Linearisation reads, and writes nothing *)

Lemma ReadOnly_ret {A : Type} (a : A) : ReadOnly (ret a).
Proof. intros st. split; [reflexivity|intros; reflexivity]. Qed.

Lemma ReadOnly_undefined {A : Type} : ReadOnly (@undefined A).
Proof. intros st. split; [reflexivity|intros; reflexivity]. Qed.

Lemma ReadOnly_cassert (b : bool) : ReadOnly (cassert b).
Proof.
  intros st. unfold cassert. destruct b; split; intros; reflexivity.
Qed.

Lemma ReadOnly_index {A : Type} (v : list A) (i : nat) : ReadOnly (index v i).
Proof.
  unfold index. destruct (nth_error v i);
    [apply ReadOnly_ret|apply ReadOnly_undefined].
Qed.

Lemma ReadOnly_bind {A B : Type} (c : M A) (k : A -> M B) :
  ReadOnly c -> (forall a, ReadOnly (k a)) -> ReadOnly (bind c k).
Proof.
  intros Hc Hk st. unfold bind.
  destruct (Hc st) as [Hs Hf].
  split.
  - destruct (c st) as [[a | e | | ] st1] eqn:E; simpl in Hs; subst st1;
      try reflexivity. apply (Hk a).
  - intros st2. specialize (Hf st2).
    destruct (Hc st2) as [Hs2 _].
    destruct (c st) as [[a | e | | ] st1] eqn:E;
      destruct (c st2) as [[a2 | e2 | | ] st3] eqn:E2;
      simpl in Hs, Hs2, Hf; subst; try discriminate Hf; try reflexivity.
    + inversion Hf; subst. apply (Hk a).
    + inversion Hf; subst. reflexivity.
Qed.

Lemma ReadOnly_foldM {A B : Type} (f : B -> A -> M B) (l : list A) :
  (forall b a, ReadOnly (f b a)) -> forall b, ReadOnly (foldM f l b).
Proof.
  intros Hf. induction l as [|a l IH]; intros b; cbn [foldM].
  - apply ReadOnly_ret.
  - apply ReadOnly_bind; [apply Hf|exact IH].
Qed.

Lemma ReadOnly_getVar (vs : GateVars) (t : SymbolicVariable) :
  ReadOnly (getVar vs t).
Proof.
  unfold getVar.
  destruct (charAt (name t) 1); [|apply ReadOnly_undefined].
  destruct (charAt (name t) 2); [|apply ReadOnly_undefined].
  destruct (charAt (name t) 3); [|apply ReadOnly_undefined].
  apply ReadOnly_bind; [apply ReadOnly_index|].
  intros vec. destruct (_ <? 0); [apply ReadOnly_undefined|apply ReadOnly_index].
Qed.

Lemma ReadOnly_toGRBLinExpression (vs : GateVars) (t : Term) :
  ReadOnly (toGRBLinExpression vs t).
Proof.
  unfold toGRBLinExpression.
  apply ReadOnly_bind.
  - apply ReadOnly_foldM. intros e c.
    apply ReadOnly_bind; [apply ReadOnly_getVar|intros; apply ReadOnly_ret].
  - intros e. apply ReadOnly_bind; [apply ReadOnly_cassert|].
    intros; apply ReadOnly_ret.
Qed.

Lemma toGRBLinExpression_run (vs : GateVars) (t : Term) (st : Session) :
  toGRBLinExpression vs t st = (linearize vs t, st).
Proof.
  destruct (ReadOnly_toGRBLinExpression vs t st) as [Hs Hf].
  unfold linearize. rewrite (Hf (mkSession emptyModel None [])).
  rewrite <- Hs at 3. apply surjective_pairing.
Qed.

(** ** The linear constraints *)

Lemma nth_error_seq_Some (len : nat) :
  forall d i a,
    nth_error (seq d len) i = Some a -> (i < len)%nat /\ a = (d + i)%nat.
Proof.
  induction len as [|len IH]; intros d i a H.
  - destruct i; discriminate H.
  - destruct i as [|i]; cbn in H.
    + inversion H. split; lia.
    + apply IH in H. destruct H as [H1 ->]. split; lia.
Qed.

Lemma addEquations_Ok (grb : Gurobi) (vs : GateVars) (d numEqs : nat)
  (lhs : list Term) :
  forall (i i' : nat) (st st' : Session),
    foldM (addEquation grb vs (seq d numEqs)) lhs i st = (Ok i', st') ->
    exists es,
      Forall2 (fun t e => linearize vs t = Ok e) lhs es /\
      (lhs = [] \/ i + List.length lhs <= numEqs)%nat /\
      st' = mkSession
              (mkModel (modelVars (model st)) (modelQConstrs (model st))
                       (modelConstrs (model st) ++ equationsFrom es d i)
                       (modelObjective (model st)))
              (solution st) (stdout st).
Proof.
  induction lhs as [|t lhs IH]; intros i i' st st' H.
  - cbn in H. inversion H. subst. exists []. split; [constructor|].
    split; [left; reflexivity|]. cbn. rewrite app_nil_r.
    destruct st' as [[? ? ? ?] ? ?]. reflexivity.
  - cbn [foldM] in H. apply bind_Ok in H.
    destruct H as (i1 & st1 & H1 & H2).
    unfold addEquation in H1.
    apply bind_Ok in H1. destruct H1 as (e & st2 & He & H1).
    rewrite toGRBLinExpression_run in He. inversion He as [[He1 He2]].
    subst st2. invert_run H1.
    match goal with
    | E : nth_error (seq d numEqs) i = Some _ |- _ =>
        apply nth_error_seq_Some in E; destruct E as [Hi ->]
    end.
    apply IH in H2. destruct H2 as (es & HF & Hle & ->).
    exists (e :: es). split; [constructor; assumption|].
    split.
    + right. cbn [List.length]. destruct Hle as [-> | Hle]; cbn; lia.
    + cbn [model solution stdout modelVars modelQConstrs modelConstrs
           modelObjective equationsFrom].
      rewrite <- app_assoc. reflexivity.
Qed.

(** ** The formulation as a whole *)

Lemma length_gateDecls (len : nat) :
  forall b, List.length (flat_map gateDecls (seq b len)) = (4 * len)%nat.
Proof.
  induction len as [|len IH]; intros b.
  - reflexivity.
  - cbn [seq flat_map]. rewrite length_app, IH. cbn. lia.
Qed.

Lemma formulate_Ok (grb : Gurobi) (numQubits numEqs : nat) (lhs : list Term)
  (st st' : Session) (vs : GateVars) :
  formulate grb numQubits numEqs lhs st = (Ok vs, st') ->
  model st = emptyModel ->
  vs = gateVarsOf numQubits /\
  exists es,
    Forall2 (fun t e => linearize (gateVarsOf numQubits) t = Ok e) lhs es /\
    (lhs = [] \/ List.length lhs <= numEqs)%nat /\
    st' = mkSession (expectedModel numQubits numEqs es)
                    (solution st) (stdout st).
Proof.
  intros H Hm. unfold formulate in H.
  do 6 (let u := fresh "u" in
        let st1 := fresh "st" in
        let Hc := fresh "Hc" in
        apply bind_Ok in H; destruct H as (u & st1 & Hc & H);
        invert_call Hc; subst;
        cbn [model solution stdout modelVars modelQConstrs modelConstrs
             modelObjective] in * ).
  apply bind_Ok in H. destruct H as (vs1 & st1 & Hg & H).
  change (mkGateVars [] [] [] []) with (gateVarsOf 0) in Hg.
  apply declareGates_Ok in Hg;
    [|cbn [model modelVars]; rewrite Hm; reflexivity].
  destruct Hg as [-> ->]. cbn [Nat.add] in H.
  apply bind_Ok in H. destruct H as (dv & st2 & Hd & H).
  apply declareDummies_Ok in Hd. destruct Hd as [-> ->].
  cbn [model solution stdout modelVars modelQConstrs modelConstrs
       modelObjective app] in H.
  apply bind_Ok in H. destruct H as (i' & st3 & He & H).
  apply ret_Ok in H. destruct H as [-> ->].
  split; [reflexivity|].
  rewrite Hm in He. unfold emptyModel in He.
  cbn [modelVars modelQConstrs modelConstrs app] in He.
  pose proof (length_gateDecls numQubits 0) as Hlen.
  rewrite Hlen in He.
  apply addEquations_Ok in He. destruct He as (es & HF & Hle & ->).
  exists es. split; [exact HF|]. split; [exact Hle|].
  cbn [model solution stdout modelVars modelQConstrs modelConstrs
       modelObjective app]. reflexivity.
Qed.

Lemma solveStage_Ok (grb : Gurobi) (numQubits numEqs : nat) (lhs : list Term)
  (st st' : Session) (vs : GateVars) (status : Z) :
  solveStage grb numQubits numEqs lhs st = (Ok (vs, status), st') ->
  model st = emptyModel ->
  vs = gateVarsOf numQubits /\
  exists es,
    Forall2 (fun t e => linearize (gateVarsOf numQubits) t = Ok e) lhs es /\
    (lhs = [] \/ List.length lhs <= numEqs)%nat /\
    status = fst (solve grb (expectedModel numQubits numEqs es)) /\
    st' = mkSession (expectedModel numQubits numEqs es)
                    (Some (solve grb (expectedModel numQubits numEqs es)))
                    (stdout st).
Proof.
  intros H Hm. unfold solveStage in H.
  apply bind_Ok in H. destruct H as (vs1 & st1 & Hf & H).
  apply formulate_Ok in Hf; [|assumption].
  destruct Hf as (-> & es & HF & Hle & ->).
  invert_run H.
  match goal with E : (_, _) = (_, _) |- _ => inversion E; subst end.
  split; [reflexivity|]. exists es. repeat split; assumption || reflexivity.
Qed.

(** ** Reading the gates back *)

Lemma nth_error_map_seq {A : Type} (f : nat -> A) (len i : nat) (a : A) :
  nth_error (map f (seq 0 len)) i = Some a -> (i < len)%nat /\ a = f i.
Proof.
  intros H. rewrite nth_error_map in H.
  destruct (nth_error (seq 0 len) i) as [j|] eqn:E; [|discriminate H].
  apply nth_error_seq_Some in E. destruct E as [Hi ->].
  inversion H. split; [assumption|reflexivity].
Qed.

Lemma readGates_Ok (grb : Gurobi) (numQubits : nat) (verbose : bool)
  (sol : Z * Assignment) (j : nat) :
  forall (k : nat) (layer layer' : list BinaryCliffordGate) (st st' : Session),
    foldM (readGate grb (gateVarsOf numQubits) verbose) (seq k j) layer st =
      (Ok layer', st') ->
    solution st = Some sol ->
    layer' = layer ++ map (gateOfValues (snd sol)) (seq k j).
Proof.
  induction j as [|j IH]; intros k layer layer' st st' H Hsol.
  - cbn in H. inversion H. cbn. rewrite app_nil_r. reflexivity.
  - cbn [seq foldM] in H. apply bind_Ok in H.
    destruct H as (layer1 & st1 & H1 & H2).
    assert (Hstep : layer1 = layer ++ [gateOfValues (snd sol) k] /\
                    solution st1 = Some sol).
    { unfold readGate in H1.
      do 8 (let u := fresh "u" in
            let st2 := fresh "st" in
            let Hc := fresh "Hc" in
            apply bind_Ok in H1; destruct H1 as (u & st2 & Hc & H1);
            invert_call Hc; subst).
      repeat match goal with
             | E : nth_error (_ (gateVarsOf numQubits)) k = Some _ |- _ =>
                 apply nth_error_map_seq in E; destruct E as [_ ->]
             end.
      repeat match goal with
             | E : solution st = Some ?s |- _ =>
                 rewrite Hsol in E; inversion E; subst s; clear E
             end.
      apply bind_Ok in H1. destruct H1 as (u & st2 & Hp & H1).
      apply ret_Ok in H1. destruct H1 as [-> ->].
      split; [reflexivity|].
      destruct verbose.
      - unfold print in Hp. inversion Hp. cbn. assumption.
      - apply ret_Ok in Hp. destruct Hp as [_ ->]. assumption. }
    destruct Hstep as [-> Hsol1].
    rewrite (IH _ _ _ _ _ H2 Hsol1). cbn [map].
    rewrite <- app_assoc. reflexivity.
Qed.

(** A call that returns gates: the solver reported status 2 on the
    formulated model and the gates are the values it assigned. *)
Lemma tryBlock_Some (grb : Gurobi) (numQubits numEqs : nat) (lhs : list Term)
  (verbose : bool) (st st' : Session) (layer : list BinaryCliffordGate) :
  tryBlock grb numQubits numEqs lhs verbose st = (Ok (Some layer), st') ->
  model st = emptyModel ->
  exists es,
    Forall2 (fun t e => linearize (gateVarsOf numQubits) t = Ok e) lhs es /\
    (lhs = [] \/ List.length lhs <= numEqs)%nat /\
    fst (solve grb (expectedModel numQubits numEqs es)) = GRB_OPTIMAL /\
    layer = map (gateOfValues
                   (snd (solve grb (expectedModel numQubits numEqs es))))
                (seq 0 numQubits).
Proof.
  intros H Hm. unfold tryBlock in H.
  apply bind_Ok in H. destruct H as ([vs status] & st1 & Hs & H).
  apply solveStage_Ok in Hs; [|assumption].
  destruct Hs as (-> & es & HF & Hle & -> & ->).
  destruct (Z.eqb_spec (fst (solve grb (expectedModel numQubits numEqs es))) 2)
    as [E|E]; cbn [negb] in H.
  - apply bind_Ok in H. destruct H as (layer1 & st2 & Hr & H).
    apply ret_Ok in H. destruct H as [H ->]. inversion H; subst layer1.
    apply (readGates_Ok grb numQubits verbose
             (solve grb (expectedModel numQubits numEqs es))) in Hr;
      [|reflexivity].
    exists es. repeat split; assumption.
  - apply ret_Ok in H. destruct H as [H _]. discriminate H.
Qed.

(** ** Satisfying assignments *)

Lemma inDomainb_sound (d : VarDecl) (v : Q) :
  inDomainb d v = true -> inDomain d v.
Proof.
  unfold inDomainb, inDomain. intros H.
  apply andb_prop in H. destruct H as [H Ht].
  apply andb_prop in H. destruct H as [Hl Hu].
  apply Qle_bool_iff in Hl. apply Qle_bool_iff in Hu.
  split; [exact Hl|]. split; [exact Hu|].
  destruct (vtype d).
  - apply orb_prop in Ht. destruct Ht as [Ht|Ht]; apply Qeq_bool_iff in Ht;
      [left|right]; exact Ht.
  - unfold integralb in Ht. apply Qeq_bool_iff in Ht.
    exists (Qfloor v). exact Ht.
Qed.

Lemma domainsb_sound (a : Assignment) (ds : list VarDecl) :
  forall v, domainsb a v ds = true ->
    forall k d, nth_error ds k = Some d -> inDomain d (a (v + k)%nat).
Proof.
  induction ds as [|d0 ds IH]; intros v H k d Hk.
  - destruct k; discriminate Hk.
  - cbn [domainsb] in H. apply andb_prop in H. destruct H as [H0 H1].
    destruct k as [|k]; cbn in Hk.
    + inversion Hk; subst. rewrite Nat.add_0_r.
      apply inDomainb_sound. exact H0.
    + replace (v + S k)%nat with (S v + k)%nat by lia.
      apply (IH (S v) H1 k d Hk).
Qed.

Lemma satisfiesb_sound (m : GRBModel) (a : Assignment) :
  satisfiesb m a = true -> Satisfies m a.
Proof.
  unfold satisfiesb, Satisfies. intros H.
  apply andb_prop in H. destruct H as [H Hc].
  apply andb_prop in H. destruct H as [Hd Hq].
  split; [|split].
  - intros v d Hv. apply (domainsb_sound a _ 0%nat Hd v d Hv).
  - apply Forall_forall. intros c Hin.
    rewrite forallb_forall in Hq. apply Qeq_bool_iff. apply Hq. exact Hin.
  - apply Forall_forall. intros c Hin.
    rewrite forallb_forall in Hc. apply Qeq_bool_iff. apply Hc. exact Hin.
Qed.

Lemma checkingSolver_sound (guess : Assignment) : Sound (checkingSolver guess).
Proof.
  intros m. unfold checkingSolver. cbn [solve].
  destruct (satisfiesb m guess) eqn:E; cbn [fst snd].
  - intros _. apply satisfiesb_sound. exact E.
  - intros H. discriminate H.
Qed.

Lemma nth_error_gateDecls (len : nat) :
  forall b i off, (i < len)%nat -> (off < 4)%nat ->
    nth_error (flat_map gateDecls (seq b len)) (4 * i + off) =
    nth_error (gateDecls (b + i)) off.
Proof.
  induction len as [|len IH]; intros b i off Hi Hoff; [lia|].
  cbn [seq flat_map]. destruct i as [|i].
  - rewrite Nat.add_0_r. cbn [Nat.mul Nat.add].
    apply nth_error_app1. cbn. exact Hoff.
  - rewrite nth_error_app2 by (cbn; lia).
    replace (4 * S i + off - List.length (gateDecls b))%nat
      with (4 * i + off)%nat by (cbn; lia).
    rewrite IH by lia. f_equal. f_equal. lia.
Qed.

Lemma binary_value (numQubits numEqs : nat) (es : list GRBLinExpr)
  (a : Assignment) (i off : nat) :
  Satisfies (expectedModel numQubits numEqs es) a ->
  (i < numQubits)%nat -> (off < 4)%nat ->
  (a (4 * i + off)%nat == 0)%Q \/ (a (4 * i + off)%nat == 1)%Q.
Proof.
  intros (Hd & _ & _) Hi Hoff.
  assert (Hn : exists d, nth_error (gateDecls i) off = Some d /\
                         vtype d = GRB_BINARY).
  { destruct off as [|[|[|[|off]]]]; try lia; cbn; eexists;
      (split; [reflexivity|reflexivity]). }
  destruct Hn as (d & Hn & Ht).
  specialize (Hd (4 * i + off)%nat d).
  cbn [expectedModel modelVars] in Hd.
  rewrite nth_error_app1 in Hd by (rewrite length_gateDecls; lia).
  rewrite nth_error_gateDecls in Hd by assumption.
  specialize (Hd Hn). destruct Hd as (_ & _ & Hd). rewrite Ht in Hd. exact Hd.
Qed.

Lemma truncate_0 (q : Q) : (q == 0)%Q -> truncate q = 0.
Proof.
  unfold Qeq, truncate. cbn. intros H.
  rewrite Z.mul_1_r in H. rewrite H. reflexivity.
Qed.

Lemma truncate_1 (q : Q) : (q == 1)%Q -> truncate q = 1.
Proof.
  unfold Qeq, truncate. cbn. intros H.
  rewrite Z.mul_1_r in H. rewrite H.
  destruct (Qden q); reflexivity || (apply Z.quot_same; discriminate).
Qed.

(** Under a satisfying assignment the gate of every qubit is symplectic. *)
Lemma satisfied_gate_symplectic (numQubits numEqs : nat)
  (es : list GRBLinExpr) (a : Assignment) (i : nat) :
  Satisfies (expectedModel numQubits numEqs es) a ->
  (i < numQubits)%nat ->
  symplectic (gateOfValues a i).
Proof.
  intros Hsat Hi.
  pose proof (binary_value _ _ _ a i 0 Hsat Hi ltac:(lia)) as H0.
  pose proof (binary_value _ _ _ a i 1 Hsat Hi ltac:(lia)) as H1.
  pose proof (binary_value _ _ _ a i 2 Hsat Hi ltac:(lia)) as H2.
  pose proof (binary_value _ _ _ a i 3 Hsat Hi ltac:(lia)) as H3.
  rewrite Nat.add_0_r in H0.
  destruct Hsat as (_ & Hq & _).
  cbn [expectedModel modelQConstrs] in Hq.
  rewrite Forall_forall in Hq.
  specialize (Hq (gateConstr i)).
  assert (Hin : In (gateConstr i) (map gateConstr (seq 0 numQubits))).
  { apply in_map. apply in_seq. lia. }
  specialize (Hq Hin). unfold holdsQ, evalQuad, evalLin in Hq.
  cbn in Hq.
  unfold symplectic, gateOfValues. cbn [axx axz azx azz].
  destruct H0 as [H0|H0], H1 as [H1|H1], H2 as [H2|H2], H3 as [H3|H3];
    rewrite H0, H1, H2, H3 in Hq;
    try (exfalso; revert Hq; unfold Qeq; cbn; discriminate);
    first [ rewrite (truncate_0 _ H0) | rewrite (truncate_1 _ H0) ];
    first [ rewrite (truncate_0 _ H1) | rewrite (truncate_1 _ H1) ];
    first [ rewrite (truncate_0 _ H2) | rewrite (truncate_1 _ H2) ];
    first [ rewrite (truncate_0 _ H3) | rewrite (truncate_1 _ H3) ];
    reflexivity.
Qed.

Lemma body_gates_symplectic (grb : Gurobi) (numQubits numOperatorsPerSet : nat)
  (graph : Graph) (RS : list Pauli) (verbose : bool)
  (gates : list BinaryCliffordGate) :
  Sound grb ->
  fst (findHTCircuitBody grb numQubits numOperatorsPerSet graph RS verbose) =
    Ok (Some gates) ->
  Forall symplectic gates.
Proof.
  intros Hsound H. unfold findHTCircuitBody in H.
  destruct (readsDefined numQubits numOperatorsPerSet RS);
    [|discriminate H].
  unfold tryRun in H.
  match type of H with
  | fst (catchAll (?run)) = _ => destruct run as [res st] eqn:Hrun
  end.
  unfold catchAll in H.
  destruct res as [v | e | | ]; cbn [fst] in H; try discriminate H.
  inversion H; subst v.
  apply tryBlock_Some in Hrun; [|reflexivity].
  destruct Hrun as (es & _ & _ & Hstatus & ->).
  apply Hsound in Hstatus.
  apply Forall_forall. intros g Hg.
  apply in_map_iff in Hg. destruct Hg as (i & <- & Hi).
  apply in_seq in Hi.
  apply (satisfied_gate_symplectic numQubits
           (numQubits * numOperatorsPerSet) es); [exact Hstatus|lia].
Qed.

(** C1.  When the solver is sound (status 2 comes with an assignment that
    satisfies everything added to the model), every gate descriptor that
    either overload returns satisfies [axx * azz + axz * azx = 1 (mod 2)]. *)
Theorem findHTCircuit_gates_symplectic (grb : Gurobi) (Hsound : Sound grb)
  (graph : Graph) (RS : list Pauli) (verbose : bool) :
  (forall gates,
     fst (findHTCircuit grb graph RS verbose) = Ok (Some gates) ->
     Forall symplectic gates) /\
  (forall numQubits gates,
     fst (findHTCircuitFixed grb numQubits graph RS verbose) =
       Ok (Some gates) ->
     Forall symplectic gates).
Proof.
  split.
  - intros gates H. unfold findHTCircuit in H.
    exact (body_gates_symplectic _ _ _ _ _ _ _ Hsound H).
  - intros numQubits gates H. unfold findHTCircuitFixed in H.
    exact (body_gates_symplectic _ _ _ _ _ _ _ Hsound H).
Qed.

Lemma findHTCircuit_gates_symplectic_witness :
  let grb := checkingSolver (onesAt [0; 3; 4; 7; 9; 10]%nat) in
  let RS := [Pauli_of_string "XZ"; Pauli_of_string "ZX"] in
  let gates := [mkGate 1 0 0 1; mkGate 1 0 0 1] in
  Sound grb /\
  fst (findHTCircuit grb (edgeGraph 2) RS false) = Ok (Some gates) /\
  fst (findHTCircuitFixed grb 2 (edgeGraph 2) RS false) = Ok (Some gates) /\
  Forall symplectic gates.
Proof.
  cbv zeta.
  pose proof (checkingSolver_sound (onesAt [0; 3; 4; 7; 9; 10]%nat)) as S.
  split; [exact S|].
  split; [vm_compute; reflexivity|].
  split; [vm_compute; reflexivity|].
  destruct (findHTCircuit_gates_symplectic
              (checkingSolver (onesAt [0; 3; 4; 7; 9; 10]%nat)) S (edgeGraph 2)
              [Pauli_of_string "XZ"; Pauli_of_string "ZX"] false) as [H _].
  apply H. vm_compute. reflexivity.
Defined.

(** ** The empty result *)

Lemma tryBlock_None (grb : Gurobi) (numQubits numEqs : nat) (lhs : list Term)
  (verbose : bool) (st st' : Session) :
  tryBlock grb numQubits numEqs lhs verbose st = (Ok None, st') ->
  exists vs status,
    solveStage grb numQubits numEqs lhs st = (Ok (vs, status), st') /\
    status <> GRB_OPTIMAL.
Proof.
  intros H. unfold tryBlock in H.
  apply bind_Ok in H. destruct H as ([vs status] & st1 & Hs & H).
  exists vs, status.
  destruct (Z.eqb_spec status 2) as [E|E]; cbn [negb] in H.
  - apply bind_Ok in H. destruct H as (layer & st2 & _ & H).
    apply ret_Ok in H. destruct H as [H _]. discriminate H.
  - apply ret_Ok in H. destruct H as [_ ->]. split; assumption.
Qed.




(** ** Values of linear expressions *)

Lemma Qsum_app (l1 l2 : list Q) : (Qsum (l1 ++ l2) == Qsum l1 + Qsum l2)%Q.
Proof.
  induction l1 as [|q l1 IH].
  - change (Qsum ([] ++ l2)) with (Qsum l2). change (Qsum []) with 0%Q. ring.
  - change (Qsum ((q :: l1) ++ l2)) with (q + Qsum (l1 ++ l2))%Q.
    change (Qsum (q :: l1)) with (q + Qsum l1)%Q. rewrite IH. ring.
Qed.

Lemma Qsum_cons (q : Q) (l : list Q) : Qsum (q :: l) = (q + Qsum l)%Q.
Proof. reflexivity. Qed.

Lemma Qsum_map_ext {A : Type} (f g : A -> Q) (l : list A) :
  (forall a, In a l -> (f a == g a)%Q) ->
  (Qsum (map f l) == Qsum (map g l))%Q.
Proof.
  induction l as [|a l IH]; intros H; cbn [map].
  - reflexivity.
  - rewrite !Qsum_cons. rewrite (H a (or_introl eq_refl)).
    rewrite IH; [reflexivity|]. intros b Hb. apply H. right. exact Hb.
Qed.

Lemma Qsum_map_scale {A : Type} (f : A -> Q) (c : Q) (l : list A) :
  (Qsum (map (fun a => f a * c) l) == Qsum (map f l) * c)%Q.
Proof.
  induction l as [|a l IH]; cbn [map].
  - change (Qsum []) with 0%Q. ring.
  - rewrite !Qsum_cons, IH. ring.
Qed.

Lemma evalLin_scale (a : Assignment) (e : GRBLinExpr) (c : Q) :
  (evalLin a (linScale e c) == evalLin a e * c)%Q.
Proof.
  unfold evalLin, linScale. cbn [constant linTerms].
  rewrite map_map. cbn [fst snd].
  rewrite (Qsum_map_ext _ (fun cv => fst cv * a (snd cv) * c)%Q)
    by (intros; ring).
  rewrite (Qsum_map_scale (fun cv => fst cv * a (snd cv))%Q). ring.
Qed.

Lemma evalLin_var (a : Assignment) (v : GRBVar) : (evalLin a (linVar v) == a v)%Q.
Proof. unfold evalLin, linVar. cbn. ring. Qed.

Lemma evalLin_setValue (a : Assignment) (e : GRBLinExpr) (d : GRBVar) (q : Q) :
  ~ In d (occurring e) -> evalLin (setValue a d q) e = evalLin a e.
Proof.
  intros Hd. unfold evalLin. f_equal. f_equal.
  apply map_ext_in. intros [c v] Hin. cbn [fst snd].
  unfold setValue. destruct (Nat.eqb_spec v d) as [->|_]; [|reflexivity].
  exfalso. apply Hd. unfold occurring.
  apply (in_map snd) in Hin. exact Hin.
Qed.

(** The constraint of line 107 can be met by a value of its slack variable
    exactly when the linear expression has an even integer value between
    -2000 and 2000. *)
Lemma halfEquals_satisfiable (a : Assignment) (e : GRBLinExpr) (d i : nat) :
  ~ In d (occurring e) ->
  ((exists k : Q, inDomain dummyDecl k /\
                  holds (setValue a d k) (halfEquals e d i)) <->
   (exists v : Z, (evalLin a e == inject_Z v)%Q /\ Z.even v = true /\
                  -2000 <= v <= 2000)).
Proof.
  intros Hd. unfold holds, halfEquals. cbn [lcLhs lcRhs].
  split.
  - intros (k & (Hl & Hu & (k0 & Hk)) & Hh).
    unfold dummyDecl in Hl, Hu. cbn [lb ub] in Hl, Hu.
    rewrite evalLin_scale, evalLin_var, evalLin_setValue in Hh by assumption.
    unfold setValue in Hh. rewrite Nat.eqb_refl in Hh.
    rewrite Hk in Hl, Hu, Hh.
    exists (2 * k0). split; [|split].
    + rewrite inject_Z_mult. change (inject_Z 2) with 2%Q. lra.
    + rewrite Z.even_mul. reflexivity.
    + assert (-1000 <= k0) by (rewrite Zle_Qle; exact Hl).
      assert (k0 <= 1000) by (rewrite Zle_Qle; exact Hu). lia.
  - intros (v & Hv & Hev & Hr).
    apply Z.even_spec in Hev. destruct Hev as [k0 ->].
    exists (inject_Z k0). split.
    + unfold inDomain, dummyDecl. cbn [lb ub vtype].
      split; [|split].
      * change (-1000)%Q with (inject_Z (-1000)). rewrite <- Zle_Qle. lia.
      * change 1000%Q with (inject_Z 1000). rewrite <- Zle_Qle. lia.
      * exists k0. reflexivity.
    + rewrite evalLin_scale, evalLin_var, evalLin_setValue by assumption.
      unfold setValue. rewrite Nat.eqb_refl. rewrite Hv.
      rewrite inject_Z_mult. change (inject_Z 2) with 2%Q. lra.
Qed.

(** ** The linear expression of a term *)

Lemma getVar_run (vs : GateVars) (c : SymbolicVariable) (st : Session) :
  getVar vs c st = (varOf vs c, st).
Proof.
  destruct (ReadOnly_getVar vs c st) as [Hs Hf].
  unfold varOf. rewrite (Hf (mkSession emptyModel None [])).
  rewrite <- Hs at 3. apply surjective_pairing.
Qed.

Lemma collect_Ok (vs : GateVars) (cs : list SymbolicVariable) :
  forall (e0 e : GRBLinExpr) (st st' : Session),
    foldM (fun e c => v <- getVar vs c ;; ret (linAddVar e v)) cs e0 st =
      (Ok e, st') ->
    exists vl,
      Forall2 (fun c v => varOf vs c = Ok v) cs vl /\
      e = mkLinExpr (constant e0)
                    (linTerms e0 ++ map (fun v => (1%Q, v)) vl).
Proof.
  induction cs as [|c cs IH]; intros e0 e st st' H.
  - cbn in H. inversion H. subst. exists []. split; [constructor|].
    cbn. rewrite app_nil_r. destruct e; reflexivity.
  - cbn [foldM] in H. apply bind_Ok in H.
    destruct H as (e1 & st1 & H1 & H2).
    apply bind_Ok in H1. destruct H1 as (v & st2 & Hv & H1).
    rewrite getVar_run in Hv. inversion Hv as [[Hv1 Hv2]].
    apply ret_Ok in H1. destruct H1 as [-> ->].
    apply IH in H2. destruct H2 as (vl & HF & ->).
    exists (v :: vl). split; [constructor; assumption|].
    unfold linAddVar. cbn [constant linTerms map].
    rewrite <- app_assoc. reflexivity.
Qed.

Lemma constants_fold (numbers : list Z) :
  forall e0,
    fold_left (fun e c => linAddConstant e (inject_Z c)) numbers e0 =
    mkLinExpr (fold_left (fun q c => (q + inject_Z c)%Q) numbers (constant e0))
              (linTerms e0).
Proof.
  induction numbers as [|c cs IH]; intros e0; cbn [fold_left].
  - destruct e0; reflexivity.
  - rewrite IH. reflexivity.
Qed.

(** What [toGRBLinExpression] returns when it returns: the term has no
    product, the constant is the sum of its numbers and there is one unit
    coefficient per variable occurrence. *)
Lemma linearize_Ok (vs : GateVars) (t : Term) (e : GRBLinExpr) :
  linearize vs t = Ok e ->
  products (simplifiedTerm t) = [] /\
  exists vl,
    Forall2 (fun c v => varOf vs c = Ok v) (variables (simplifiedTerm t)) vl /\
    e = mkLinExpr (constantOf (numbers (simplifiedTerm t)))
                  (map (fun v => (1%Q, v)) vl).
Proof.
  unfold linearize. intros H.
  destruct (toGRBLinExpression vs t (mkSession emptyModel None []))
    as [res st] eqn:E.
  cbn [fst] in H. subst res. unfold toGRBLinExpression in E.
  apply bind_Ok in E. destruct E as (e1 & st1 & H1 & H2).
  apply collect_Ok in H1. destruct H1 as (vl & HF & ->).
  apply bind_Ok in H2. destruct H2 as (u & st2 & Ha & H2).
  apply ret_Ok in H2. destruct H2 as [-> _].
  split.
  - unfold cassert in Ha.
    destruct (products (simplifiedTerm t)); [reflexivity|discriminate Ha].
  - exists vl. split; [exact HF|].
    rewrite constants_fold. reflexivity.
Qed.

Lemma varOf_in (vs : GateVars) (c : SymbolicVariable) (v : GRBVar) :
  varOf vs c = Ok v -> exists vec, In vec (aVars vs) /\ In v vec.
Proof.
  unfold varOf. intros H.
  destruct (getVar vs c (mkSession emptyModel None [])) as [res st] eqn:E.
  cbn [fst] in H. subst res. unfold getVar in E.
  destruct (charAt (name c) 1); [|discriminate E].
  destruct (charAt (name c) 2); [|discriminate E].
  destruct (charAt (name c) 3); [|discriminate E].
  apply bind_Ok in E. destruct E as (vec & st1 & Hvec & E).
  apply index_Ok in Hvec. destruct Hvec as [Hvec ->].
  destruct (_ <? 0); [discriminate E|].
  apply index_Ok in E. destruct E as [E _].
  exists vec. split; eapply nth_error_In; eassumption.
Qed.

Lemma gateVarsOf_bound (k : nat) (vec : list GRBVar) (v : GRBVar) :
  In vec (aVars (gateVarsOf k)) -> In v vec -> (v < 4 * k)%nat.
Proof.
  unfold aVars, gateVarsOf. cbn [axxVars axzVars azxVars azzVars].
  intros [<- | [<- | [<- | [<- | []]]]] Hv;
    apply in_map_iff in Hv; destruct Hv as (i & <- & Hi);
    apply in_seq in Hi; lia.
Qed.

Lemma linearize_occurring (k : nat) (t : Term) (e : GRBLinExpr) (v : GRBVar) :
  linearize (gateVarsOf k) t = Ok e -> In v (occurring e) -> (v < 4 * k)%nat.
Proof.
  intros H Hv. apply linearize_Ok in H. destruct H as (_ & vl & HF & ->).
  unfold occurring in Hv. cbn [linTerms] in Hv. rewrite map_map in Hv.
  cbn [snd] in Hv. rewrite map_id in Hv.
  assert (Hall : forall w, In w vl -> (w < 4 * k)%nat).
  { clear Hv. induction HF as [|c w cs ws Hc HF IH]; intros w0 Hw;
      [destruct Hw|].
    destruct Hw as [<- | Hw]; [|apply IH; exact Hw].
    apply varOf_in in Hc. destruct Hc as (vec & Hvec & Hin).
    apply (gateVarsOf_bound k vec w Hvec Hin). }
  apply Hall. exact Hv.
Qed.

(** ** The entries of the left-hand side *)

Lemma length_entries_tabulate {T : Type} (rows cols : nat)
  (f : nat -> nat -> T) :
  List.length (entries (tabulate rows cols f)) = (rows * cols)%nat.
Proof.
  unfold entries, tabulate. generalize 0%nat at 2.
  induction rows as [|rows IH]; intros b; cbn [seq map List.concat].
  - reflexivity.
  - rewrite length_app, IH, length_map, length_seq. reflexivity.
Qed.

Lemma simplifiedMatrix_tabulate (rows cols : nat)
  (f : nat -> nat -> Expression) :
  simplifiedMatrix (tabulate rows cols f) =
  tabulate rows cols (fun i j => simplified (f i j)).
Proof.
  unfold simplifiedMatrix, tabulate. rewrite map_map.
  apply map_ext. intros i. rewrite map_map. reflexivity.
Qed.

Lemma length_equations (numQubits numOperatorsPerSet : nat) (graph : Graph)
  (RS : list Pauli) :
  List.length (equations numQubits numOperatorsPerSet graph RS) =
  (numQubits * numOperatorsPerSet)%nat.
Proof.
  unfold equations, leftHandSides, matAdd. cbv zeta.
  rewrite simplifiedMatrix_tabulate. apply length_entries_tabulate.
Qed.

(** ** The slack variables and their constraints *)

Lemma Forall2_nth_r {A B : Type} (P : A -> B -> Prop)
  (l : list A) (l' : list B) :
  Forall2 P l l' ->
  forall i b, nth_error l' i = Some b ->
    exists a, nth_error l i = Some a /\ P a b.
Proof.
  induction 1 as [|a0 b0 l l' H0 HF IH]; intros i b Hi.
  - destruct i; discriminate Hi.
  - destruct i as [|i]; cbn in Hi.
    + inversion Hi; subst. exists a0. split; [reflexivity|exact H0].
    + apply IH. exact Hi.
Qed.

Lemma Forall2_nth_l {A B : Type} (P : A -> B -> Prop)
  (l : list A) (l' : list B) :
  Forall2 P l l' ->
  forall i a, nth_error l i = Some a ->
    exists b, nth_error l' i = Some b /\ P a b.
Proof.
  induction 1 as [|a0 b0 l l' H0 HF IH]; intros i a Hi.
  - destruct i; discriminate Hi.
  - destruct i as [|i]; cbn in Hi.
    + inversion Hi; subst. exists b0. split; [reflexivity|exact H0].
    + apply IH. exact Hi.
Qed.

Lemma nth_error_equationsFrom (es : list GRBLinExpr) (d : nat) :
  forall i0 i e,
    nth_error es i = Some e ->
    nth_error (equationsFrom es d i0) i =
    Some (halfEquals e (d + (i0 + i))%nat (i0 + i)%nat).
Proof.
  induction es as [|e0 es IH]; intros i0 i e H.
  - destruct i; discriminate H.
  - destruct i as [|i]; cbn in H; cbn [equationsFrom nth_error].
    + inversion H; subst. rewrite Nat.add_0_r. reflexivity.
    + rewrite (IH (S i0) i e H).
      replace (S i0 + i)%nat with (i0 + S i)%nat by lia. reflexivity.
Qed.

(** C5 (as stated).  In the model formulated for one qubit and the
    generator [X], the slack variable (handle 4) is declared with the bounds
    -1000 and 1000: the integer 1001 is not admissible, and the constraint
    [0.5 * 2002 = k] on it cannot be met although 2002 is even. *)
Lemma slack_variable_unbounded_counterexample :
  exists m d,
    formulatedModel 1 1 (emptyGraph 1) [Pauli_of_string "X"] = Ok m /\
    nth_error (modelVars m) 4%nat = Some d /\
    vtype d = GRB_INTEGER /\
    ~ inDomain d (inject_Z 1001) /\
    ~ Unbounded d /\
    Z.even 2002 = true /\
    ~ (exists k : Q,
         inDomain d k /\
         holds (setValue (fun _ => 0%Q) 4%nat k)
               (halfEquals (linConstant (inject_Z 2002)) 4%nat 0%nat)).
Proof.
  eexists. exists dummyDecl.
  split; [vm_compute; reflexivity|].
  split; [reflexivity|].
  split; [reflexivity|].
  assert (H1001 : ~ inDomain dummyDecl (inject_Z 1001)).
  { intros (_ & Hu & _). unfold dummyDecl in Hu. cbn [ub] in Hu.
    revert Hu. unfold Qle. cbn. lia. }
  split; [exact H1001|].
  split; [intros H; apply H1001; apply H|].
  split; [reflexivity|].
  intros (k & (_ & Hu & _) & Hh).
  unfold dummyDecl in Hu. cbn [ub] in Hu.
  unfold holds, halfEquals in Hh. cbn [lcLhs lcRhs] in Hh.
  rewrite evalLin_scale, evalLin_var in Hh.
  unfold setValue in Hh. cbn [Nat.eqb] in Hh.
  unfold evalLin, linConstant in Hh. cbn [constant linTerms map] in Hh.
  change (Qsum []) with 0%Q in Hh.
  change (inject_Z 2002) with 2002%Q in Hh. lra.
Qed.

(** C5 (amended).  When the formulation completes, the model holds, after
    the [4 * numQubits] binary unknowns, one integer slack variable per
    equation, declared with the bounds -1000 and 1000, and one constraint
    [0.5 * linearize(lhs) = k] per equation; such a constraint can be met by
    a value of its slack variable exactly when the linearised value is an
    even integer between -2000 and 2000. *)
Theorem slack_variables_and_half_constraints (grb : Gurobi)
  (numQubits numOperatorsPerSet : nat) (graph : Graph) (RS : list Pauli)
  (verbose : bool) (vs : GateVars) (st : Session)
  (Hrun : formulate grb numQubits (numQubits * numOperatorsPerSet)
            (equations numQubits numOperatorsPerSet graph RS)
            (entrySession numQubits numOperatorsPerSet graph RS verbose) =
          (Ok vs, st)) :
  let numEqs := (numQubits * numOperatorsPerSet)%nat in
  exists es,
    List.length es = numEqs /\
    Forall2 (fun t e => linearize (gateVarsOf numQubits) t = Ok e)
            (equations numQubits numOperatorsPerSet graph RS) es /\
    modelVars (model st) =
      flat_map gateDecls (seq 0 numQubits) ++ repeat dummyDecl numEqs /\
    modelConstrs (model st) = equationsFrom es (4 * numQubits)%nat 0%nat /\
    forall i e,
      nth_error es i = Some e ->
      nth_error (modelVars (model st)) (4 * numQubits + i)%nat =
        Some dummyDecl /\
      nth_error (modelConstrs (model st)) i =
        Some (halfEquals e (4 * numQubits + i)%nat i) /\
      forall a,
        (exists k : Q,
           inDomain dummyDecl k /\
           holds (setValue a (4 * numQubits + i)%nat k)
                 (halfEquals e (4 * numQubits + i)%nat i)) <->
        (exists v : Z,
           (evalLin a e == inject_Z v)%Q /\ Z.even v = true /\
           -2000 <= v <= 2000).
Proof.
  cbv zeta. apply formulate_Ok in Hrun; [|reflexivity].
  destruct Hrun as (-> & es & HF & _ & ->).
  pose proof (Forall2_length HF) as Hlen.
  rewrite length_equations in Hlen.
  exists es. split; [symmetry; exact Hlen|]. split; [exact HF|].
  cbn [model expectedModel modelVars modelConstrs].
  split; [reflexivity|]. split; [reflexivity|].
  intros i e Hi.
  assert (Hlt : (i < numQubits * numOperatorsPerSet)%nat).
  { rewrite Hlen. apply nth_error_Some. rewrite Hi. discriminate. }
  split; [|split].
  - rewrite nth_error_app2 by (rewrite length_gateDecls; lia).
    rewrite length_gateDecls.
    replace (4 * numQubits + i - 4 * numQubits)%nat with i by lia.
    apply nth_error_repeat. exact Hlt.
  - rewrite (nth_error_equationsFrom es _ 0%nat i e Hi). reflexivity.
  - intros a. apply halfEquals_satisfiable.
    intros Hin.
    destruct (Forall2_nth_r _ _ _ HF i e Hi) as (t & _ & Ht).
    pose proof (linearize_occurring numQubits t e _ Ht Hin). lia.
Qed.

Lemma slack_variables_and_half_constraints_witness :
  let grb := checkingSolver (fun _ => 0%Q) in
  let RS := [Pauli_of_string "XZ"; Pauli_of_string "ZX"] in
  let run := formulate grb 2 (2 * 2) (equations 2 2 (edgeGraph 2) RS)
               (entrySession 2 2 (edgeGraph 2) RS false) in
  run = (Ok (gateVarsOf 2), snd run) /\
  nth_error (modelVars (model (snd run))) 8 = Some dummyDecl /\
  List.length (modelVars (model (snd run))) = 12%nat.
Proof.
  cbv zeta.
  set (run := formulate _ _ _ _ _).
  assert (Hrun : run = (Ok (gateVarsOf 2), snd run)).
  { rewrite (surjective_pairing run) at 1.
    apply (f_equal2 pair); [vm_compute; reflexivity|reflexivity]. }
  split; [exact Hrun|].
  destruct (slack_variables_and_half_constraints
              (checkingSolver (fun _ => 0%Q)) 2 2 (edgeGraph 2)
              [Pauli_of_string "XZ"; Pauli_of_string "ZX"] false
              (gateVarsOf 2) (snd run) Hrun)
    as (es & Hlen & _ & Hvars & _ & Hall).
  split.
  - destruct es as [|e es]; [discriminate Hlen|].
    destruct (Hall 0%nat e eq_refl) as (H & _). exact H.
  - rewrite Hvars. reflexivity.
Defined.

(** ** The two overloads *)



(** ** [simplified] preserves the value *)

Section SymbolicValue.

Variable rho : SymbolicVariable -> Q.

Lemma Qprod_app (l1 l2 : list Q) : (Qprod (l1 ++ l2) == Qprod l1 * Qprod l2)%Q.
Proof.
  induction l1 as [|q l1 IH].
  - change (Qprod ([] ++ l2)) with (Qprod l2). change (Qprod []) with 1%Q. ring.
  - change (Qprod ((q :: l1) ++ l2)) with (q * Qprod (l1 ++ l2))%Q.
    change (Qprod (q :: l1)) with (q * Qprod l1)%Q. rewrite IH. ring.
Qed.

Lemma evalMonomials_app (ms1 ms2 : list Monomial) :
  (evalMonomials rho (ms1 ++ ms2) ==
   evalMonomials rho ms1 + evalMonomials rho ms2)%Q.
Proof. unfold evalMonomials. rewrite map_app. apply Qsum_app. Qed.

Lemma evalMonomials_scale (ma : Monomial) (ms : list Monomial) :
  (evalMonomials rho
     (map (fun mb => ((fst ma * fst mb)%Z, snd ma ++ snd mb)) ms) ==
   evalMonomial rho ma * evalMonomials rho ms)%Q.
Proof.
  unfold evalMonomials. induction ms as [|mb ms IH]; cbn [map].
  - change (Qsum []) with 0%Q. ring.
  - rewrite !Qsum_cons, IH. unfold evalMonomial at 1. cbn [fst snd].
    rewrite inject_Z_mult, map_app, Qprod_app. unfold evalMonomial. ring.
Qed.

Lemma evalMonomials_product (ms1 ms2 : list Monomial) :
  (evalMonomials rho
     (flat_map (fun ma => map (fun mb => ((fst ma * fst mb)%Z,
                                          snd ma ++ snd mb)) ms2) ms1) ==
   evalMonomials rho ms1 * evalMonomials rho ms2)%Q.
Proof.
  induction ms1 as [|ma ms1 IH]; cbn [flat_map].
  - unfold evalMonomials at 1 2. change (Qsum (map _ [])) with 0%Q. ring.
  - rewrite evalMonomials_app, IH, evalMonomials_scale.
    change (evalMonomials rho (ma :: ms1))
      with (evalMonomial rho ma + evalMonomials rho ms1)%Q.
    ring.
Qed.

Lemma monomials_value (e : Expression) :
  (evalMonomials rho (monomials e) == evalExpression rho e)%Q.
Proof.
  induction e as [c | v | a IHa b IHb | a IHa b IHb];
    cbn [monomials evalExpression].
  - unfold evalMonomials, evalMonomial, Qsum, Qprod. cbn. ring.
  - unfold evalMonomials, evalMonomial, Qsum, Qprod.
    cbn [map fold_right fst snd]. change (inject_Z 1) with 1%Q. ring.
  - rewrite evalMonomials_app, IHa, IHb. reflexivity.
  - rewrite evalMonomials_product, IHa, IHb. reflexivity.
Qed.

Lemma evalTerm_fields (ns : list Z) (vs : list SymbolicVariable)
  (ps : list Product) :
  evalTerm rho (mkTerm ns vs ps) =
  (Qsum (map inject_Z ns) + Qsum (map rho vs) +
   Qsum (map (evalProduct rho) ps))%Q.
Proof. reflexivity. Qed.

Lemma addMonomial_value (mo : Monomial) (t : Term) :
  (evalTerm rho (addMonomial mo t) == evalMonomial rho mo + evalTerm rho t)%Q.
Proof.
  destruct mo as [c vs]. destruct t as [ns ws ps].
  unfold addMonomial, evalMonomial. cbn [fst snd numbers variables products].
  destruct (Z.eqb_spec c 0) as [->|Hc].
  - change (inject_Z 0) with 0%Q. ring.
  - destruct vs as [|v [|v' vs]].
    + rewrite !evalTerm_fields. cbn [map]. rewrite Qsum_cons.
      change (Qprod []) with 1%Q. ring.
    + destruct (Z.eqb_spec c 1) as [->|Hc1].
      * rewrite !evalTerm_fields. cbn [map]. rewrite Qsum_cons.
        unfold Qprod. cbn [fold_right]. change (inject_Z 1) with 1%Q. ring.
      * rewrite !evalTerm_fields. cbn [map]. rewrite Qsum_cons.
        unfold evalProduct at 1. cbn [factors unknowns map].
        unfold Qprod. cbn [fold_right]. ring.
    + rewrite !evalTerm_fields. cbn [map]. rewrite Qsum_cons.
      unfold evalProduct at 1. cbn [factors unknowns map].
      unfold Qprod. cbn [fold_right]. ring.
Qed.

Lemma simplified_value (e : Expression) :
  (evalTerm rho (simplified e) == evalExpression rho e)%Q.
Proof.
  rewrite <- monomials_value. unfold simplified, evalMonomials.
  induction (monomials e) as [|mo ms IH]; cbn [fold_right map].
  - unfold evalTerm, Qsum. cbn. ring.
  - rewrite addMonomial_value, IH, Qsum_cons. reflexivity.
Qed.

Lemma sumOf_value (l : list Expression) :
  (evalExpression rho (sumOf l) == Qsum (map (evalExpression rho) l))%Q.
Proof.
  induction l as [|e l IH]; cbn [sumOf fold_right map evalExpression].
  - reflexivity.
  - fold (sumOf l). rewrite IH, Qsum_cons. reflexivity.
Qed.

Lemma productOf_value (l : list Expression) :
  (evalExpression rho (productOf l) == Qprod (map (evalExpression rho) l))%Q.
Proof.
  induction l as [|e l IH]; cbn [productOf fold_right map evalExpression].
  - reflexivity.
  - fold (productOf l). rewrite IH. reflexivity.
Qed.

Lemma termExpression_value (t : Term) :
  (evalExpression rho (termExpression t) == evalTerm rho t)%Q.
Proof.
  unfold termExpression, evalTerm.
  rewrite sumOf_value, !map_app, !Qsum_app, !map_map. cbn [evalExpression].
  rewrite Qplus_assoc.
  apply Qplus_comp; [reflexivity|].
  apply Qsum_map_ext. intros p _.
  rewrite productOf_value, map_app, Qprod_app, !map_map.
  cbn [evalExpression]. reflexivity.
Qed.

Lemma simplifiedTerm_value (t : Term) :
  (evalTerm rho (simplifiedTerm t) == evalTerm rho t)%Q.
Proof.
  unfold simplifiedTerm. rewrite simplified_value. apply termExpression_value.
Qed.

End SymbolicValue.

(** ** The value of the left-hand sides *)

Lemma nth_map_seq {A : Type} (F : nat -> A) (len i : nat) (d : A) :
  (i < len)%nat -> nth i (map F (seq 0 len)) d = F i.
Proof.
  intros Hi. rewrite (nth_indep _ d (F 0%nat))
    by (rewrite length_map, length_seq; exact Hi).
  rewrite map_nth, seq_nth by exact Hi. reflexivity.
Qed.

Lemma entry_tabulate {T : Type} (d : T) (rows cols : nat)
  (f : nat -> nat -> T) (i j : nat) :
  (i < rows)%nat -> (j < cols)%nat ->
  entry d (tabulate rows cols f) i j = f i j.
Proof.
  intros Hi Hj. unfold entry, tabulate.
  rewrite nth_map_seq by exact Hi. apply nth_map_seq. exact Hj.
Qed.

Lemma nth_error_entries_tabulate {T : Type} (rows cols : nat)
  (f : nat -> nat -> T) (i j : nat) :
  (i < rows)%nat -> (j < cols)%nat ->
  nth_error (entries (tabulate rows cols f)) (i * cols + j) = Some (f i j).
Proof.
  unfold entries, tabulate.
  assert (H : forall b i, (i < rows)%nat -> (j < cols)%nat ->
            nth_error
              (List.concat
                 (map (fun i => map (fun j => f i j) (seq 0 cols))
                      (seq b rows)))
              (i * cols + j) = Some (f (b + i)%nat j)).
  { induction rows as [|rows IH]; intros b k Hk Hj; [lia|].
    cbn [seq map List.concat]. destruct k as [|k].
    - cbn [Nat.mul Nat.add]. rewrite Nat.add_0_r.
      rewrite nth_error_app1 by (rewrite length_map, length_seq; exact Hj).
      rewrite nth_error_map, nth_error_seq.
      destruct (Nat.ltb_spec j cols); [reflexivity|lia].
    - rewrite nth_error_app2 by (rewrite length_map, length_seq; cbn; lia).
      rewrite length_map, length_seq.
      replace (S k * cols + j - cols)%nat with (k * cols + j)%nat
        by (cbn; lia).
      rewrite IH by lia. do 2 f_equal. lia. }
  intros Hi Hj. apply (H 0%nat i Hi Hj).
Qed.

Lemma Qsum_zero {A : Type} (h : A -> Q) (l : list A) :
  (forall a, In a l -> (h a == 0)%Q) -> (Qsum (map h l) == 0)%Q.
Proof.
  induction l as [|a l IH]; intros H; cbn [map].
  - reflexivity.
  - rewrite Qsum_cons, (H a (or_introl eq_refl)), IH; [ring|].
    intros b Hb. apply H. right. exact Hb.
Qed.

Lemma Qsum_delta (h : nat -> Q) (len i : nat) :
  (i < len)%nat -> (forall k, k <> i -> (h k == 0)%Q) ->
  (Qsum (map h (seq 0 len)) == h i)%Q.
Proof.
  induction len as [|len IH]; intros Hi Hz; [lia|].
  rewrite seq_S, map_app, Qsum_app. cbn [Nat.add map].
  rewrite Qsum_cons. change (Qsum []) with 0%Q.
  destruct (Nat.eq_dec i len) as [->|Hne].
  - rewrite Qsum_zero; [ring|].
    intros k Hk. apply Hz. apply in_seq in Hk. lia.
  - rewrite IH by (assumption || lia). rewrite (Hz len) by lia. ring.
Qed.

Section LeftHandSide.

Variable rho : SymbolicVariable -> Q.
Variables (numQubits numOperatorsPerSet : nat).

Lemma value_matMul (inner : nat) (A B : Matrix Expression) (i j : nat) :
  (i < numQubits)%nat -> (j < numOperatorsPerSet)%nat ->
  (entryValue rho (matMul numQubits inner numOperatorsPerSet A B) i j ==
   Qsum (map (fun k => entryValue rho A i k * entryValue rho B k j)
             (seq 0 inner)))%Q.
Proof.
  intros Hi Hj. unfold entryValue, matMul.
  rewrite entry_tabulate by assumption.
  rewrite sumOf_value, map_map. cbn [evalExpression]. reflexivity.
Qed.

Lemma value_matAdd (A B : Matrix Expression) (i j : nat) :
  (i < numQubits)%nat -> (j < numOperatorsPerSet)%nat ->
  (entryValue rho (matAdd numQubits numOperatorsPerSet A B) i j ==
   entryValue rho A i j + entryValue rho B i j)%Q.
Proof.
  intros Hi Hj. unfold entryValue, matAdd.
  rewrite entry_tabulate by assumption. reflexivity.
Qed.

Lemma value_diag (prefix : string) (i k : nat) :
  (i < numQubits)%nat -> (k < numQubits)%nat ->
  entryValue rho (diag (generateSymbolVector numQubits prefix)) i k =
  if Nat.eqb i k then rho (mkVariable (symbolName prefix i)) else 0%Q.
Proof.
  intros Hi Hk. unfold entryValue, diag, generateSymbolVector.
  rewrite length_map, length_seq.
  rewrite entry_tabulate by assumption.
  destruct (Nat.eqb i k); [|reflexivity].
  rewrite nth_map_seq by assumption. reflexivity.
Qed.

Lemma value_constants (f : nat -> nat -> Z) (rows cols i j : nat) :
  (i < rows)%nat -> (j < cols)%nat ->
  entryValue rho (constants (tabulate rows cols f)) i j = inject_Z (f i j).
Proof.
  intros Hi Hj. unfold entryValue, constants, tabulate, entry.
  rewrite map_map. rewrite nth_map_seq by assumption.
  rewrite map_map. rewrite nth_map_seq by assumption. reflexivity.
Qed.

(** The product of a diagonal matrix of symbols with a matrix of bits. *)
Lemma value_diag_times (prefix : string) (f : nat -> nat -> Z) (i j : nat) :
  (i < numQubits)%nat -> (j < numOperatorsPerSet)%nat ->
  (entryValue rho (matMul numQubits numQubits numOperatorsPerSet
            (diag (generateSymbolVector numQubits prefix))
            (constants (tabulate numQubits numOperatorsPerSet f))) i j ==
   rho (mkVariable (symbolName prefix i)) * inject_Z (f i j))%Q.
Proof.
  intros Hi Hj. rewrite value_matMul by assumption.
  rewrite (Qsum_delta _ numQubits i Hi).
  - rewrite value_diag, value_constants by assumption.
    rewrite Nat.eqb_refl. reflexivity.
  - intros k Hk.
    destruct (Nat.ltb_spec k numQubits) as [Hlt|Hge].
    + rewrite value_diag by assumption.
      destruct (Nat.eqb_spec i k); [congruence|]. ring.
    + unfold entryValue at 1, entry, diag, tabulate.
      rewrite nth_map_seq
        by (unfold generateSymbolVector;
            rewrite length_map, length_seq; exact Hi).
      rewrite nth_overflow
        by (rewrite length_map, length_seq; unfold generateSymbolVector;
            rewrite length_map, length_seq; exact Hge).
      cbn [evalExpression]. change (inject_Z 0) with 0%Q. ring.
Qed.

(** The value of the entry [(i, j)] of
    [adjacency * (Axx * R + Axz * S) + Azx * R + Azz * S]. *)
Lemma equations_value (graph : Graph) (RS : list Pauli) (i j : nat) :
  (i < numQubits)%nat -> (j < numOperatorsPerSet)%nat ->
  exists t,
    nth_error (equations numQubits numOperatorsPerSet graph RS)
              (i * numOperatorsPerSet + j) = Some t /\
    (evalTerm rho t ==
     Qsum (map (fun k =>
                  inject_Z (if adjacent graph i k then 1 else 0) *
                  (rho (symbol "axx" k) * inject_Z (bitR RS k j) +
                   rho (symbol "axz" k) * inject_Z (bitS RS k j)))
               (seq 0 numQubits)) +
     rho (symbol "azx" i) * inject_Z (bitR RS i j) +
     rho (symbol "azz" i) * inject_Z (bitS RS i j))%Q.
Proof.
  intros Hi Hj. unfold equations, leftHandSides. cbv zeta.
  unfold matAdd at 1. rewrite simplifiedMatrix_tabulate.
  rewrite nth_error_entries_tabulate by assumption.
  eexists. split; [reflexivity|].
  rewrite simplified_value. cbn [evalExpression].
  fold (entryValue rho
          (matMul numQubits numQubits numOperatorsPerSet
             (diag (generateSymbolVector numQubits "azz"))
             (constants (generatorBits z numQubits numOperatorsPerSet RS)))
          i j).
  match goal with
  | |- (evalExpression rho (entry (Number 0) ?A i j) + _ == _)%Q =>
      fold (entryValue rho A i j)
  end.
  unfold generatorBits.
  rewrite value_matAdd, value_matMul by assumption.
  rewrite !value_diag_times by assumption.
  apply Qplus_comp; [|reflexivity].
  apply Qplus_comp; [|reflexivity].
  apply Qsum_map_ext. intros k Hk. apply in_seq in Hk.
  unfold adjacencyMatrix. rewrite value_constants by lia.
  apply Qmult_comp; [reflexivity|].
  unfold entryValue.
  unfold matAdd. rewrite entry_tabulate by lia. cbn [evalExpression].
  fold (entryValue rho
          (matMul numQubits numQubits numOperatorsPerSet
             (diag (generateSymbolVector numQubits "axx"))
             (constants
                (tabulate numQubits numOperatorsPerSet
                   (fun i0 j0 => x (nth j0 RS Pauli_default) (Z.of_nat i0)))))
          k j).
  fold (entryValue rho
          (matMul numQubits numQubits numOperatorsPerSet
             (diag (generateSymbolVector numQubits "axz"))
             (constants
                (tabulate numQubits numOperatorsPerSet
                   (fun i0 j0 => z (nth j0 RS Pauli_default) (Z.of_nat i0)))))
          k j).
  rewrite !value_diag_times by lia. reflexivity.
Qed.

End LeftHandSide.

(** ** From a satisfying assignment to the equation system *)

Lemma to_string_digit (k : nat) :
  (k < 10)%nat -> to_string k = String (ascii_of_nat (48 + k)) EmptyString.
Proof.
  intros Hk. do 10 (destruct k as [|k]; [reflexivity|]). lia.
Qed.

(** For the qubits 0 to 9 the name is the prefix followed by the digit of
    the qubit, and line 73 finds the variable of that qubit. *)
Lemma varOf_symbol (numQubits k : nat) :
  (k < numQubits)%nat -> (k < 10)%nat ->
  varOf (gateVarsOf numQubits) (symbol "axx" k) = Ok (4 * k)%nat /\
  varOf (gateVarsOf numQubits) (symbol "axz" k) = Ok (4 * k + 1)%nat /\
  varOf (gateVarsOf numQubits) (symbol "azx" k) = Ok (4 * k + 2)%nat /\
  varOf (gateVarsOf numQubits) (symbol "azz" k) = Ok (4 * k + 3)%nat.
Proof.
  intros Hk H10.
  assert (Hidx : Z.of_nat (nat_of_ascii (ascii_of_nat (48 + k))) -
                 Z.of_nat (nat_of_ascii "0") = Z.of_nat k).
  { rewrite nat_ascii_embedding by lia.
    change (nat_of_ascii "0") with 48%nat. lia. }
  assert (Hnth : forall off,
            nth_error (map (fun i => (4 * i + off)%nat) (seq 0 numQubits)) k =
            Some (4 * k + off)%nat).
  { intros off. rewrite nth_error_map, nth_error_seq.
    destruct (Nat.ltb_spec k numQubits); [reflexivity|lia]. }
  assert (Hnth0 : nth_error (map (fun i => (4 * i)%nat) (seq 0 numQubits)) k =
                  Some (4 * k)%nat).
  { rewrite nth_error_map, nth_error_seq.
    destruct (Nat.ltb_spec k numQubits); [reflexivity|lia]. }
  unfold varOf, getVar, symbol, symbolName.
  rewrite (to_string_digit k H10).
  cbn [name String.append charAt String.get].
  change (Ascii.eqb "x" "z") with false. change (Ascii.eqb "z" "z") with true.
  cbv iota.
  change (0 * 2 + 0)%nat with 0%nat. change (0 * 2 + 1)%nat with 1%nat.
  change (1 * 2 + 0)%nat with 2%nat. change (1 * 2 + 1)%nat with 3%nat.
  rewrite Hidx. destruct (Z.ltb_spec (Z.of_nat k) 0) as [Hneg|_]; [lia|].
  rewrite Nat2Z.id.
  unfold bind, index, aVars, gateVarsOf, ret.
  cbn [nth_error axxVars axzVars azxVars azzVars].
  unfold GRBVar. rewrite Hnth0, !Hnth. repeat split; reflexivity.
Qed.

Lemma constantOf_value (ns : list Z) :
  (constantOf ns == Qsum (map inject_Z ns))%Q.
Proof.
  unfold constantOf.
  assert (H : forall q0,
            (fold_left (fun q c => q + inject_Z c) ns q0 ==
             q0 + Qsum (map inject_Z ns))%Q).
  { induction ns as [|c ns IH]; intros q0; cbn [fold_left map].
    - change (Qsum []) with 0%Q. ring.
    - rewrite IH, Qsum_cons. ring. }
  rewrite H. ring.
Qed.

Lemma linearize_value (vs : GateVars) (a : Assignment) (t : Term)
  (e : GRBLinExpr) :
  linearize vs t = Ok e ->
  (evalLin a e == evalTerm (symbolValue vs a) t)%Q.
Proof.
  intros H. rewrite <- simplifiedTerm_value.
  apply linearize_Ok in H. destruct H as (Hp & vl & HF & ->).
  unfold evalLin, evalTerm. cbn [constant linTerms]. rewrite Hp.
  cbn [map]. change (Qsum []) with 0%Q.
  rewrite constantOf_value, map_map. cbn [fst snd].
  assert (Hv : (Qsum (map (fun v => 1 * a v) vl) ==
                Qsum (map (symbolValue vs a) (variables (simplifiedTerm t))))%Q).
  { induction HF as [|c v cs vl0 Hc HF IH]; cbn [map].
    - reflexivity.
    - assert (Hs : symbolValue vs a c = a v)
        by (unfold symbolValue; rewrite Hc; reflexivity).
      rewrite !Qsum_cons, IH, Hs. ring. }
  rewrite Hv. ring.
Qed.

Lemma slack_forces_even (numQubits numEqs : nat) (es : list GRBLinExpr)
  (a : Assignment) (p : nat) (e : GRBLinExpr) :
  Satisfies (expectedModel numQubits numEqs es) a ->
  nth_error es p = Some e -> (p < numEqs)%nat ->
  exists k0 : Z, (evalLin a e == inject_Z (2 * k0))%Q.
Proof.
  intros (Hd & _ & Hc) He Hp.
  cbn [expectedModel modelVars modelConstrs] in Hd, Hc.
  specialize (Hd (4 * numQubits + p)%nat dummyDecl).
  rewrite nth_error_app2 in Hd by (rewrite length_gateDecls; lia).
  rewrite length_gateDecls in Hd.
  replace (4 * numQubits + p - 4 * numQubits)%nat with p in Hd by lia.
  specialize (Hd (nth_error_repeat dummyDecl Hp)).
  destruct Hd as (_ & _ & (k0 & Hk)).
  rewrite Forall_forall in Hc.
  pose proof (nth_error_equationsFrom es (4 * numQubits) 0 p e He) as Hn.
  apply nth_error_In in Hn. specialize (Hc _ Hn).
  unfold holds, halfEquals in Hc. cbn [lcLhs lcRhs Nat.add] in Hc.
  rewrite evalLin_scale, evalLin_var, Hk in Hc.
  exists k0. rewrite inject_Z_mult. change (inject_Z 2) with 2%Q. lra.
Qed.

Lemma binary_truncate (v : Q) :
  (v == 0)%Q \/ (v == 1)%Q -> (v == inject_Z (truncate v))%Q.
Proof.
  intros [H|H].
  - rewrite (truncate_0 v H). exact H.
  - rewrite (truncate_1 v H). exact H.
Qed.

Lemma Qsum_inject_Z {A : Type} (f : A -> Z) (l : list A) :
  (Qsum (map (fun a => inject_Z (f a)) l) == inject_Z (Zsum (map f l)))%Q.
Proof.
  induction l as [|a l IH]; cbn [map].
  - reflexivity.
  - rewrite Qsum_cons, IH. unfold Zsum. cbn [fold_right].
    rewrite inject_Z_plus. reflexivity.
Qed.

Lemma readsDefined_bound (numQubits numOperatorsPerSet : nat)
  (RS : list Pauli) (i j : nat) :
  readsDefined numQubits numOperatorsPerSet RS = true ->
  (i < numQubits)%nat -> (j < numOperatorsPerSet)%nat ->
  (i < 64)%nat /\ (j < List.length RS)%nat.
Proof.
  unfold readsDefined. intros H Hi Hj.
  rewrite forallb_forall in H.
  specialize (H i ltac:(apply in_seq; lia)).
  rewrite forallb_forall in H.
  specialize (H j ltac:(apply in_seq; lia)).
  apply andb_prop in H. destruct H as [H1 H2].
  apply Nat.ltb_lt in H1. apply Nat.ltb_lt in H2. split; assumption.
Qed.

Lemma gateAt_read (a : Assignment) (numQubits k : nat) :
  (k < numQubits)%nat ->
  gateAt (map (gateOfValues a) (seq 0 numQubits)) k = gateOfValues a k.
Proof. intros Hk. unfold gateAt. apply nth_map_seq. exact Hk. Qed.

(** Under a satisfying assignment, the value of each symbol is the
    corresponding entry of the returned gate. *)
Lemma symbol_is_gate_entry (numQubits numEqs : nat) (es : list GRBLinExpr)
  (a : Assignment) (k : nat) :
  Satisfies (expectedModel numQubits numEqs es) a ->
  (k < numQubits)%nat -> (k < 10)%nat ->
  let rho := symbolValue (gateVarsOf numQubits) a in
  let g := gateAt (map (gateOfValues a) (seq 0 numQubits)) k in
  (rho (symbol "axx" k) == inject_Z (axx g))%Q /\
  (rho (symbol "axz" k) == inject_Z (axz g))%Q /\
  (rho (symbol "azx" k) == inject_Z (azx g))%Q /\
  (rho (symbol "azz" k) == inject_Z (azz g))%Q.
Proof.
  intros Hsat Hk H10. cbv zeta. rewrite gateAt_read by exact Hk.
  destruct (varOf_symbol numQubits k Hk H10) as (V0 & V1 & V2 & V3).
  unfold symbolValue. rewrite V0, V1, V2, V3.
  unfold gateOfValues. cbn [axx axz azx azz].
  pose proof (binary_value _ _ _ a k 0 Hsat Hk ltac:(lia)) as B0.
  rewrite Nat.add_0_r in B0.
  pose proof (binary_value _ _ _ a k 1 Hsat Hk ltac:(lia)) as B1.
  pose proof (binary_value _ _ _ a k 2 Hsat Hk ltac:(lia)) as B2.
  pose proof (binary_value _ _ _ a k 3 Hsat Hk ltac:(lia)) as B3.
  repeat split; apply binary_truncate; assumption.
Qed.


Lemma tabulate_ext {T : Type} (rows cols : nat) (f g : nat -> nat -> T) :
  (forall i j, (i < rows)%nat -> (j < cols)%nat -> f i j = g i j) ->
  tabulate rows cols f = tabulate rows cols g.
Proof.
  intros H. unfold tabulate. apply map_ext_in. intros i Hi.
  apply in_seq in Hi. apply map_ext_in. intros j Hj. apply in_seq in Hj.
  apply H; lia.
Qed.

Lemma forallb_agree {A : Type} (f g : A -> bool) (l : list A) :
  (forall a, In a l -> f a = g a) -> forallb f l = forallb g l.
Proof.
  induction l as [|a l IH]; intros H; cbn [forallb]; [reflexivity|].
  rewrite (H a (or_introl eq_refl)), IH; [reflexivity|].
  intros b Hb. apply H. right. exact Hb.
Qed.

Lemma generatorBits_firstn (sel : Pauli -> Z -> Z) (rows cols : nat)
  (RS : list Pauli) :
  generatorBits sel rows cols (firstn cols RS) = generatorBits sel rows cols RS.
Proof.
  unfold generatorBits. apply tabulate_ext. intros i j _ Hj.
  f_equal. rewrite nth_firstn.
  destruct (Nat.ltb_spec j cols); [reflexivity|lia].
Qed.

Lemma readsDefined_firstn (rows cols : nat) (RS : list Pauli) :
  (cols <= List.length RS)%nat ->
  readsDefined rows cols (firstn cols RS) = readsDefined rows cols RS.
Proof.
  intros Hle. unfold readsDefined.
  apply forallb_agree. intros i _. apply forallb_agree. intros j Hj.
  apply in_seq in Hj. rewrite length_firstn, Nat.min_l by exact Hle.
  destruct (Nat.ltb_spec j cols), (Nat.ltb_spec j (List.length RS));
    (reflexivity || lia).
Qed.




(** * Further properties of the Pauli operator *)

Section SingleBits.

(** X1.  [setX(qubit, value)] with a value 0 or 1 and a qubit below 64 stores
    the value: [x(qubit)] returns it, every other X bit keeps its value, and
    the Z bits, the length and the phase are untouched. *)
Theorem setX_stores_value (p : Pauli) (qubit value : Z)
  (Hq : 0 <= qubit < 64) (Hv : isBit value) :
  x (setX p qubit value) qubit = value /\
  (forall j, 0 <= j -> j <> qubit -> x (setX p qubit value) j = x p j) /\
  s (setX p qubit value) = s p /\
  n (setX p qubit value) = n p /\
  phase (setX p qubit value) = phase p.
Proof.
  split; [apply setX_x; assumption|].
  split; [|repeat split].
  intros j Hj Hne. unfold x, setX. cbn [r].
  rewrite !land_shr_one by assumption.
  rewrite Z.lxor_spec, Z.land_spec, testbit_shl_one by assumption.
  destruct (Z.eqb_spec j qubit) as [E|_]; [contradiction|].
  rewrite andb_false_r, xorb_false_r. reflexivity.
Qed.

Lemma setX_stores_value_witness :
  x (setX (Pauli_of_string "ZIY") 1 1) 1 = 1 /\
  x (setX (Pauli_of_string "ZIY") 1 1) 2 = x (Pauli_of_string "ZIY") 2.
Proof.
  destruct (setX_stores_value (Pauli_of_string "ZIY") 1 1
              ltac:(lia) (or_intror eq_refl)) as (H1 & H2 & _).
  split; [exact H1|]. apply H2; lia.
Defined.

(** X2.  [setZ(qubit, value)] changes the Z bit of the qubit to
    [z xor value xor x]: it stores the value exactly when the X and the Z
    bit of the qubit agreed before the call.  Every other Z bit, the X bits,
    the length and the phase are untouched. *)
Theorem setZ_stores_value_iff_bits_agree (p : Pauli) (qubit value : Z)
  (Hq : 0 <= qubit < 64) (Hv : isBit value) :
  z (setZ p qubit value) qubit =
    Z.lxor (z p qubit) (Z.lxor value (x p qubit)) /\
  (z (setZ p qubit value) qubit = value <-> x p qubit = z p qubit) /\
  (forall j, 0 <= j -> j <> qubit -> z (setZ p qubit value) j = z p j) /\
  r (setZ p qubit value) = r p /\
  n (setZ p qubit value) = n p /\
  phase (setZ p qubit value) = phase p.
Proof.
  assert (Hlaw : z (setZ p qubit value) qubit =
                 Z.lxor (z p qubit) (Z.lxor value (x p qubit))).
  { rewrite setZ_z by assumption. unfold x, z.
    rewrite !land_shr_one by lia.
    destruct Hv as [-> | ->];
      destruct (Z.testbit (s p) qubit), (Z.testbit (r p) qubit); reflexivity. }
  split; [exact Hlaw|].
  split; [|split; [|repeat split]].
  - rewrite Hlaw. unfold x, z. rewrite !land_shr_one by lia.
    destruct Hv as [-> | ->];
      destruct (Z.testbit (s p) qubit), (Z.testbit (r p) qubit);
      cbn; split; intros H; (reflexivity || discriminate H).
  - intros j Hj Hne. unfold z, setZ. cbn [s].
    rewrite !land_shr_one by assumption.
    rewrite Z.lxor_spec, Z.land_spec, testbit_shl_one by assumption.
    destruct (Z.eqb_spec j qubit) as [E|_]; [contradiction|].
    rewrite andb_false_r, xorb_false_r. reflexivity.
Qed.

Lemma setZ_stores_value_iff_bits_agree_witness :
  z (setZ (Pauli_of_string "XIY") 2 0) 2 = 0 /\
  z (setZ (Pauli_of_string "XIY") 0 1) 0 = 0.
Proof.
  destruct (setZ_stores_value_iff_bits_agree (Pauli_of_string "XIY") 2 0
              ltac:(lia) (or_introl eq_refl)) as (_ & H & _).
  destruct (setZ_stores_value_iff_bits_agree (Pauli_of_string "XIY") 0 1
              ltac:(lia) (or_intror eq_refl)) as (H' & _).
  split; [apply H; reflexivity|]. rewrite H'. reflexivity.
Defined.

End SingleBits.

Section Generators.

Lemma popcount_pow2 (k : nat) : Word64.popcount (2 ^ Z.of_nat k) = 1.
Proof.
  induction k as [|k IH]; [reflexivity|].
  rewrite Nat2Z.inj_succ, Z.pow_succ_r by lia.
  rewrite popcount_double; [exact IH|]. apply Z.pow_nonneg. lia.
Qed.

Lemma land_pow2 (a b : Z) :
  0 <= a -> 0 <= b -> Z.land (2 ^ a) (2 ^ b) = if a =? b then 2 ^ a else 0.
Proof.
  intros Ha Hb. destruct (Z.eqb_spec a b) as [->|Hne].
  - apply Z.land_diag.
  - apply Z.bits_inj'. intros j Hj.
    rewrite Z.land_spec, !Z.pow2_bits_eqb, Z.testbit_0_l by assumption.
    destruct (Z.eqb_spec a j), (Z.eqb_spec b j); try reflexivity. congruence.
Qed.

Lemma SingleX_fields (n0 qubit : Z) :
  0 <= qubit < 64 -> SingleX n0 qubit = mkPauli (2 ^ qubit) 0 n0 0.
Proof.
  intros Hq. unfold SingleX, setX, Pauli_of_int. cbn [r s n phase].
  f_equal. rewrite Z.lxor_0_l, Z.lxor_0_r, shl_one by assumption.
  apply Z.bits_inj'. intros j Hj.
  rewrite Z.land_spec, Z.pow2_bits_eqb by lia.
  destruct (Z.eqb_spec qubit j) as [<-|_]; [|apply andb_false_r].
  rewrite testbit_of_neg_int by (assumption || (right; reflexivity)).
  reflexivity.
Qed.

Lemma SingleZ_fields (n0 qubit : Z) :
  0 <= qubit < 64 -> SingleZ n0 qubit = mkPauli 0 (2 ^ qubit) n0 0.
Proof.
  intros Hq. unfold SingleZ, setZ, Pauli_of_int. cbn [r s n phase].
  f_equal. rewrite Z.lxor_0_l, Z.lxor_0_r, shl_one by assumption.
  apply Z.bits_inj'. intros j Hj.
  rewrite Z.land_spec, Z.pow2_bits_eqb by lia.
  destruct (Z.eqb_spec qubit j) as [<-|_]; [|apply andb_false_r].
  rewrite testbit_of_neg_int by (assumption || (right; reflexivity)).
  reflexivity.
Qed.

(** X3.  [SingleX(n, qubit)] and [SingleZ(n, qubit)], for a qubit below 64,
    are the operators of length [n] and phase 0 whose only set bit is the X
    bit, respectively the Z bit, of that qubit; each has Pauli weight 1. *)
Theorem single_generators (n0 qubit : Z) (Hq : 0 <= qubit < 64) :
  let px := SingleX n0 qubit in
  let pz := SingleZ n0 qubit in
  (numQubits px = n0 /\ numQubits pz = n0) /\
  (forall j, 0 <= j ->
     x px j = (if j =? qubit then 1 else 0) /\ z px j = 0 /\
     x pz j = 0 /\ z pz j = (if j =? qubit then 1 else 0)) /\
  (getXZPhase px = 0 /\ getXZPhase pz = 0) /\
  (pauliWeight px = 1 /\ pauliWeight pz = 1).
Proof.
  cbv zeta. rewrite SingleX_fields, SingleZ_fields by assumption.
  split; [split; reflexivity|].
  split; [|split; [split; reflexivity|]].
  - intros j Hj. unfold x, z. cbn [r s].
    rewrite !land_shr_one by assumption.
    rewrite Z.testbit_0_l, Z.pow2_bits_eqb by lia.
    rewrite (Z.eqb_sym qubit j).
    destruct (j =? qubit); repeat split; reflexivity.
  - unfold pauliWeight. cbn [r s]. rewrite Z.lor_0_r, Z.lor_0_l.
    rewrite <- (Z2Nat.id qubit) by lia. rewrite popcount_pow2.
    split; reflexivity.
Qed.

Lemma single_generators_witness :
  SingleX 5 2 = Pauli_of_string "IIXII" /\
  pauliWeight (SingleZ 5 4) = 1.
Proof.
  split; [reflexivity|].
  destruct (single_generators 5 4 ltac:(lia)) as (_ & _ & _ & _ & H).
  exact H.
Defined.

(** X4.  [commutator(SingleX(n, a), SingleZ(m, b))] is 1 when [a = b] and 0
    otherwise: an X and a Z anticommute exactly on the same qubit. *)
Theorem commutator_of_single_generators (n0 n1 a b : Z)
  (Ha : 0 <= a < 64) (Hb : 0 <= b < 64) :
  commutator (SingleX n0 a) (SingleZ n1 b) = (if a =? b then 1 else 0) /\
  commutator (SingleX n0 a) (SingleX n1 b) = 0 /\
  commutator (SingleZ n0 a) (SingleZ n1 b) = 0.
Proof.
  rewrite !SingleX_fields, !SingleZ_fields by assumption.
  unfold commutator. cbn [r s].
  rewrite !Z.land_0_r, !Z.land_0_l, !Z.lxor_0_r.
  split; [|split; reflexivity].
  rewrite land_pow2 by lia.
  destruct (a =? b); [|reflexivity].
  rewrite <- (Z2Nat.id a) by lia. rewrite popcount_pow2. reflexivity.
Qed.

Lemma commutator_of_single_generators_witness :
  commutator (SingleX 4 3) (SingleZ 4 3) = 1 /\
  commutator (SingleX 4 3) (SingleZ 4 1) = 0.
Proof.
  destruct (commutator_of_single_generators 4 4 3 3 ltac:(lia) ltac:(lia))
    as (H1 & _).
  destruct (commutator_of_single_generators 4 4 3 1 ltac:(lia) ltac:(lia))
    as (H2 & _).
  split; [exact H1|exact H2].
Defined.

(** X5.  [commutator] returns 0 or 1, every operator commutes with itself,
    and the result does not depend on the phases of its arguments. *)
Theorem commutator_self_and_phase (p q : Pauli) (k : Z) :
  commutator p p = 0 /\
  isBit (commutator p q) /\
  commutator (increasePhase p k) q = commutator p q /\
  commutator p (decreasePhase q k) = commutator p q.
Proof.
  split; [|split; [|split; reflexivity]].
  - unfold commutator. rewrite Z.lxor_nilpotent. reflexivity.
  - unfold commutator, isBit. rewrite land_one_odd.
    destruct (Z.odd _); [right|left]; reflexivity.
Qed.

End Generators.

Section ParsedOperators.

Lemma fromStringLoop_nonneg (str : string) :
  forall i p, 0 <= r p -> 0 <= s p ->
    0 <= r (fromStringLoop str i p) /\ 0 <= s (fromStringLoop str i p).
Proof.
  assert (Hshl : forall i, 0 <= Word64.shl 1 i).
  { intros i. unfold Word64.shl, Word64.wrap.
    apply Z.mod_pos_bound. reflexivity. }
  induction str as [|c rest IH]; intros i p Hr Hs; simpl.
  - split; assumption.
  - apply IH.
    + rewrite fromStringStep_r. destruct (hasX c); [|assumption].
      apply Z.lor_nonneg. split; [assumption|apply Hshl].
    + rewrite fromStringStep_s. destruct (hasZ c); [|assumption].
      apply Z.lor_nonneg. split; [assumption|apply Hshl].
Qed.

Lemma below_pow2_of_bits (a k : Z) :
  0 <= a -> 0 <= k ->
  (forall j, k <= j -> Z.testbit a j = false) -> a < 2 ^ k.
Proof.
  intros Ha Hk Hbits.
  destruct (Z.ltb_spec a (2 ^ k)) as [Hlt|Hge]; [exact Hlt|exfalso].
  assert (Hpos : 0 < a).
  { pose proof (Z.pow_pos_nonneg 2 k ltac:(lia) Hk). lia. }
  assert (Hlog : k <= Z.log2 a) by (apply Z.log2_le_pow2; assumption).
  pose proof (Z.bit_log2 a Hpos) as Hb.
  rewrite (Hbits _ Hlog) in Hb. discriminate Hb.
Qed.

Lemma get_beyond (str : string) (i : nat) :
  (String.length str <= i)%nat -> String.get i str = None.
Proof.
  revert i. induction str as [|c rest IH]; intros i Hi.
  - destruct i; reflexivity.
  - destruct i as [|i]; cbn in Hi; [lia|]. cbn. apply IH. lia.
Qed.

Lemma bitFrom_beyond (sel : ascii -> bool) (str : string) (j : Z) :
  Z.of_nat (String.length str) <= j -> bitFrom sel str 0 j = false.
Proof.
  intros Hj. unfold bitFrom. destruct (0 <=? j); [|reflexivity].
  rewrite Z.sub_0_r, get_beyond by lia. reflexivity.
Qed.

(** The bit fields that [fromStringOperator] leaves. *)
Lemma fromStringOperator_bits (phase0 : Z) (body : string) (j : Z) :
  (String.length body <= 64)%nat -> 0 <= j ->
  Z.testbit (r (fromStringOperator (startOperator phase0) body)) j =
    bitFrom hasX body 0 j /\
  Z.testbit (s (fromStringOperator (startOperator phase0) body)) j =
    bitFrom hasZ body 0 j.
Proof.
  intros Hlen Hj. unfold fromStringOperator.
  rewrite fromStringLoop_r, fromStringLoop_s by lia.
  cbn [r s startOperator]. rewrite Z.testbit_0_l. split; reflexivity.
Qed.

(** The length and the phase do not depend on the characters. *)
Lemma fromStringOperator_n_phase (phase0 : Z) (body : string) :
  let p := fromStringOperator (startOperator phase0) body in
  n p = Z.of_nat (String.length body) /\ phase p = phase0.
Proof.
  cbv zeta.
  exact (fromStringLoop_n_phase body 0
           (mkPauli 0 0 (Z.of_nat (String.length body)) phase0)).
Qed.

Lemma fromStringOperator_range (phase0 : Z) (body : string) :
  (String.length body <= 64)%nat ->
  let p := fromStringOperator (startOperator phase0) body in
  n p = Z.of_nat (String.length body) /\
  phase p = phase0 /\
  0 <= r p < 2 ^ Z.of_nat (String.length body) /\
  0 <= s p < 2 ^ Z.of_nat (String.length body).
Proof.
  intros Hlen. cbv zeta.
  destruct (fromStringOperator_n_phase phase0 body) as [Hn Hp].
  pose proof (fromStringLoop_nonneg body 0
                (mkPauli 0 0 (Z.of_nat (String.length body)) phase0)
                ltac:(cbn; lia) ltac:(cbn; lia)) as [Hr Hs].
  split; [exact Hn|]. split; [exact Hp|].
  unfold fromStringOperator. cbn [r s phase startOperator].
  split; (split; [assumption|]); apply below_pow2_of_bits;
    try assumption; try lia; intros j Hj.
  - destruct (fromStringOperator_bits phase0 body j Hlen ltac:(lia))
      as [E _].
    unfold fromStringOperator in E. cbn [r s phase startOperator] in E.
    rewrite E. apply bitFrom_beyond. exact Hj.
  - destruct (fromStringOperator_bits phase0 body j Hlen ltac:(lia))
      as [_ E].
    unfold fromStringOperator in E. cbn [r s phase startOperator] in E.
    rewrite E. apply bitFrom_beyond. exact Hj.
Qed.

Lemma markerValue_range (str : string) :
  0 <= markerValue (markerPart str) < 4.
Proof.
  destruct (markerPart_cases str) as [-> | [-> | [-> | ->]]]; cbv;
    split; congruence.
Qed.



(** X7.  The conventional phase [getPhase()] of an operator built from a
    string is the phase of the marker alone (0 without marker, 1 for [i],
    2 for [-], 3 for [-i]), whatever the number of [Y] characters; the stored
    phase [getXZPhase()] is that value plus the number of [Y] bits, modulo
    4. *)
Theorem constructor_phase (str : string) :
  let p := Pauli_of_string str in
  getPhase p = markerValue (markerPart str) /\
  getXZPhase p =
    (markerValue (markerPart str) +
     Word64.popcount (Z.land (r p) (s p))) mod 4.
Proof.
  cbv zeta. rewrite Pauli_of_string_parts. cbv zeta.
  pose proof (markerValue_range str) as Hm.
  destruct (fromStringOperator_n_phase (markerValue (markerPart str))
              (operatorPart str)) as (_ & Hp).
  set (p1 := fromStringOperator _ _) in *.
  unfold getPhase, getXZPhase, getYPhase, increasePhase.
  cbn [r s phase]. rewrite Hp.
  unfold BinaryPhase.add, BinaryPhase.sub, BinaryPhase.make.
  generalize (Word64.popcount (Z.land (r p1) (s p1))). intros c.
  split.
  - clear - Hm. Z.div_mod_to_equations. lia.
  - apply Zplus_mod_idemp_r.
Qed.

Lemma allPauli_get (body : string) :
  allPauli body = true ->
  forall m c, String.get m body = Some c -> isPauliChar c = true.
Proof.
  induction body as [|c0 rest IH]; intros H m c Hget.
  - destruct m; discriminate Hget.
  - cbn in H. apply andb_prop in H. destruct H as [H0 H1].
    destruct m as [|m]; cbn in Hget.
    + inversion Hget; subst. exact H0.
    + apply (IH H1 m c Hget).
Qed.

Lemma allPauli_cleanStart (body : string) :
  allPauli body = true -> cleanStart body.
Proof.
  destruct body as [|c rest]; cbn; [trivial|].
  intros H. apply andb_prop in H. apply H.
Qed.

Lemma get_length (str : string) (m : nat) (c : ascii) :
  String.get m str = Some c -> (m < String.length str)%nat.
Proof.
  intros H. destruct (Nat.ltb_spec m (String.length str)) as [Hlt|Hge];
    [exact Hlt|]. rewrite get_beyond in H by exact Hge. discriminate H.
Qed.

(** The X and Z bit that a character leaves at its own position. *)
Lemma parsed_bits (phase0 : Z) (body : string) (m : nat) (c : ascii) :
  (String.length body <= 64)%nat ->
  String.get m body = Some c ->
  let p := fromStringOperator (startOperator phase0) body in
  x p (Z.of_nat m) = Z.b2z (hasX c) /\ z p (Z.of_nat m) = Z.b2z (hasZ c).
Proof.
  intros Hlen Hget. cbv zeta. pose proof (get_length _ _ _ Hget) as Hm.
  unfold x, z. rewrite !land_shr_one by lia.
  destruct (fromStringOperator_bits phase0 body (Z.of_nat m) Hlen
              ltac:(lia)) as [-> ->].
  unfold bitFrom. destruct (Z.leb_spec 0 (Z.of_nat m)); [|lia].
  rewrite Z.sub_0_r, Nat2Z.id, Hget.
  destruct (Z.ltb_spec (Z.of_nat m) 64); [|lia].
  rewrite !andb_true_r. split; reflexivity.
Qed.

Lemma pauliChar_of_bits (c : ascii) :
  isPauliChar c = true ->
  pauliChar (Z.b2z (hasX c) + Z.b2z (hasZ c) * 2) = c.
Proof.
  intros H.
  destruct (isPauliChar_cases c H) as [-> | [-> | [-> | ->]]]; reflexivity.
Qed.

Lemma toStringFrom_chars (p : Pauli) (rest : string) :
  forall i,
    (forall m c, String.get m rest = Some c ->
       pauliChar (x p (i + Z.of_nat m) + z p (i + Z.of_nat m) * 2) = c) ->
    toStringFrom p i (String.length rest) = rest.
Proof.
  induction rest as [|c0 rest IH]; intros i H; cbn [String.length toStringFrom].
  - reflexivity.
  - f_equal.
    + specialize (H 0%nat c0 eq_refl). rewrite Z.add_0_r in H. exact H.
    + apply IH. intros m c Hget. specialize (H (S m) c Hget).
      replace (i + 1 + Z.of_nat m) with (i + Z.of_nat (S m)) by lia. exact H.
Qed.

(** The rendering of a parsed operator is the operator part of the input. *)
Lemma toString_parsed (phase0 : Z) (body : string) :
  allPauli body = true -> (String.length body <= 64)%nat ->
  forall p, r p = r (fromStringOperator (startOperator phase0) body) ->
            s p = s (fromStringOperator (startOperator phase0) body) ->
            n p = Z.of_nat (String.length body) ->
            toString p = body.
Proof.
  intros Hall Hlen p Hr Hs Hn. unfold toString. rewrite Hn, Nat2Z.id.
  apply toStringFrom_chars. intros m c Hget. rewrite Z.add_0_l.
  destruct (parsed_bits phase0 body m c Hlen Hget) as [Hx Hz].
  unfold x, z in *. rewrite Hr, Hs, Hx, Hz.
  apply pauliChar_of_bits. apply (allPauli_get body Hall m c Hget).
Qed.

Lemma marker_of_value (marker : string) :
  isMarker marker ->
  (if markerValue marker =? 0 then EmptyString
   else BinaryPhase.toString (markerValue marker)) = marker.
Proof. intros [-> | [-> | [-> | ->]]]; reflexivity. Qed.

(** X8.  Rendering what was parsed gives the input back: for a marker
    (none, [i], [-i] or [-]) followed by at most 64 characters among [I],
    [X], [Y], [Z], formatting the operator built from the string returns the
    string, and [toString()] returns it without the marker. *)
Theorem format_parse_roundtrip (marker body : string)
  (Hm : isMarker marker) (Hall : allPauli body = true)
  (Hlen : (String.length body <= 64)%nat) :
  toString (Pauli_of_string (String.append marker body)) = body /\
  format (Pauli_of_string (String.append marker body)) =
    String.append marker body.
Proof.
  destruct (marked_parts marker body (allPauli_cleanStart body Hall) Hm)
    as [Em Eb].
  assert (Hts : toString (Pauli_of_string (String.append marker body)) = body).
  { rewrite Pauli_of_string_parts. cbv zeta. rewrite Em, Eb.
    apply (toString_parsed (markerValue marker) body Hall Hlen);
      try reflexivity.
    cbn [increasePhase n].
    apply (fromStringOperator_n_phase (markerValue marker) body). }
  split; [exact Hts|].
  unfold format. rewrite Hts. f_equal.
  assert (Hph : getPhase (Pauli_of_string (String.append marker body)) =
                markerValue marker).
  { rewrite Pauli_of_string_parts. cbv zeta. rewrite Em, Eb.
    destruct (fromStringOperator_n_phase (markerValue marker) body)
      as (_ & Hp).
    set (p1 := fromStringOperator _ _) in *.
    unfold getPhase, getYPhase, increasePhase. cbn [r s phase]. rewrite Hp.
    unfold BinaryPhase.add, BinaryPhase.sub, BinaryPhase.make.
    assert (Hr : 0 <= markerValue marker < 4).
    { destruct Hm as [-> | [-> | [-> | ->]]]; cbv; split; congruence. }
    generalize (Word64.popcount (Z.land (r p1) (s p1))). intros c.
    clear - Hr. Z.div_mod_to_equations. lia. }
  rewrite Hph. apply marker_of_value. exact Hm.
Qed.

Lemma format_parse_roundtrip_witness :
  format (Pauli_of_string "-iXYYZI") = "-iXYYZI"%string.
Proof.
  destruct (format_parse_roundtrip "-i" "XYYZI"
              (or_intror (or_intror (or_introl eq_refl))) eq_refl
              ltac:(cbn; lia)) as [_ H].
  exact H.
Defined.

Lemma popcount_bitCount (k : nat) :
  forall a, 0 <= a < 2 ^ Z.of_nat k -> Word64.popcount a = bitCount a k.
Proof.
  induction k as [|k IH]; intros a Ha.
  - change (2 ^ Z.of_nat 0) with 1 in Ha. assert (a = 0) by lia. subst a.
    reflexivity.
  - rewrite Nat2Z.inj_succ, Z.pow_succ_r in Ha by lia.
    assert (Hh : 0 <= a / 2 < 2 ^ Z.of_nat k).
    { split; [apply Z.div_pos; lia|].
      apply Z.div_lt_upper_bound; lia. }
    unfold bitCount. rewrite <- cons_seq, <- seq_shift, map_cons, map_map.
    cbn [fold_right].
    assert (Htail :
      map (fun j => Z.b2z (Z.testbit a (Z.of_nat (S j)))) (seq 0 k) =
      map (fun j => Z.b2z (Z.testbit (a / 2) (Z.of_nat j))) (seq 0 k)).
    { apply map_ext. intros j. rewrite Nat2Z.inj_succ.
      rewrite <- Z.div2_div, Z.div2_spec, Z.shiftr_spec by lia.
      first [reflexivity | f_equal; f_equal; lia]. }
    rewrite Htail. fold (bitCount (a / 2) k). rewrite <- IH by exact Hh.
    change (Z.of_nat 0) with 0. rewrite Z.bit0_odd.
    pose proof (Z.div_mod a 2 ltac:(lia)) as Hdm.
    rewrite Zmod_odd in Hdm.
    destruct (Z.odd a).
    + rewrite Hdm at 1. rewrite popcount_succ_double by lia. reflexivity.
    + rewrite Hdm at 1. rewrite Z.add_0_r, popcount_double by lia.
      reflexivity.
Qed.

Lemma bitCount_chars (sel : ascii -> bool) (body : string) :
  forall g : nat -> bool,
    (forall m c, String.get m body = Some c -> g m = sel c) ->
    fold_right Z.add 0
      (map (fun j => Z.b2z (g j)) (seq 0 (String.length body))) =
    countChars sel body.
Proof.
  induction body as [|c0 rest IH]; intros g H; cbn [String.length countChars].
  - reflexivity.
  - rewrite <- cons_seq, <- seq_shift, map_cons, map_map. cbn [fold_right].
    rewrite (H 0%nat c0 eq_refl). f_equal.
    apply (IH (fun j => g (S j))). intros m c Hget. apply (H (S m) c Hget).
Qed.

(** X9.  The Pauli weight of an operator built from a string of at most 64
    operator characters is the number of its [X], [Y] and [Z] characters;
    [identityCount()] is the number of all other characters. *)
Theorem constructor_weight (str : string)
  (Hlen : (String.length (operatorPart str) <= 64)%nat) :
  pauliWeight (Pauli_of_string str) =
    countChars nonIdentity (operatorPart str) /\
  identityCount (Pauli_of_string str) =
    countChars (fun c => negb (nonIdentity c)) (operatorPart str).
Proof.
  set (body := operatorPart str) in *.
  assert (Hw : pauliWeight (Pauli_of_string str) = countChars nonIdentity body).
  { rewrite Pauli_of_string_parts. cbv zeta. fold body.
    set (k := markerValue (markerPart str)).
    unfold pauliWeight, increasePhase. cbn [r s].
    destruct (fromStringOperator_range k body Hlen) as (_ & _ & Hr & Hs).
    rewrite (popcount_bitCount (String.length body))
      by (apply lor_in_range; (assumption || lia)).
    unfold bitCount. apply (bitCount_chars nonIdentity body
      (fun j => Z.testbit (Z.lor (r (fromStringOperator (startOperator k) body))
                                 (s (fromStringOperator (startOperator k) body)))
                          (Z.of_nat j))).
    intros m c Hget. rewrite Z.lor_spec.
    destruct (parsed_bits k body m c Hlen Hget) as [Hx Hz].
    unfold x, z in Hx, Hz. rewrite !land_shr_one in Hx, Hz by lia.
    unfold nonIdentity.
    destruct (Z.testbit (r _) _), (Z.testbit (s _) _), (hasX c), (hasZ c);
      cbn in Hx, Hz; try discriminate; reflexivity. }
  split; [exact Hw|].
  unfold identityCount. rewrite Hw.
  assert (Hn : n (Pauli_of_string str) = Z.of_nat (String.length body)).
  { rewrite Pauli_of_string_parts. cbv zeta. cbn [increasePhase n].
    apply (fromStringOperator_n_phase (markerValue (markerPart str)) body). }
  rewrite Hn. clear. induction body as [|c rest IH].
  - reflexivity.
  - cbn [String.length countChars]. rewrite Nat2Z.inj_succ.
    destruct (nonIdentity c); cbn [negb Z.b2z]; lia.
Qed.

Lemma constructor_weight_witness :
  pauliWeight (Pauli_of_string "-XIY?Z") = 3 /\
  identityCount (Pauli_of_string "-XIY?Z") = 2.
Proof.
  exact (constructor_weight "-XIY?Z" ltac:(cbn; lia)).
Defined.

End ParsedOperators.

Section IdentityString.

Lemma land_complement_ones (v k : Z) :
  0 <= k <= 64 -> 0 <= v < 2 ^ k ->
  Z.land (Word64.complement v) (Z.ones k) = 2 ^ k - 1 - v.
Proof.
  intros Hk Hv.
  assert (Hle : 2 ^ k <= 2 ^ 64) by (apply Z.pow_le_mono_r; lia).
  rewrite complement_eq by (unfold Word64.modulus, Word64.width; lia).
  rewrite Z.land_ones by lia.
  unfold Word64.modulus, Word64.width.
  replace (2 ^ 64) with (2 ^ k * 2 ^ (64 - k))
    by (rewrite <- Z.pow_add_r by lia; f_equal; lia).
  assert (Hq : 0 < 2 ^ (64 - k)) by (apply Z.pow_pos_nonneg; lia).
  replace (2 ^ k * 2 ^ (64 - k) - 1 - v)
    with (2 ^ k - 1 - v + (2 ^ (64 - k) - 1) * 2 ^ k) by ring.
  rewrite Z.mod_add by lia. apply Z.mod_small. lia.
Qed.

(** X10.  For a well-formed operator, [identityCount()] is the number of set
    bits of [getIdentityString()] among the positions below the length. *)
Theorem identityCount_counts_identity_bits (p : Pauli) (Hwf : wf p) :
  Word64.popcount (Z.land (getIdentityString p) (Z.ones (n p))) =
  identityCount p.
Proof.
  destruct Hwf as (Hn & Hr & Hs & _).
  pose proof (lor_in_range (n p) (r p) (s p) ltac:(lia) Hr Hs) as Hrs.
  unfold getIdentityString, identityCount, pauliWeight.
  rewrite land_complement_ones by assumption.
  pose proof (popcount_complement (Z.to_nat (n p)) (Z.lor (r p) (s p))) as H.
  rewrite Z2Nat.id in H by lia. specialize (H Hrs). lia.
Qed.

Lemma identityCount_counts_identity_bits_witness :
  wf (Pauli_of_string "XYZI") /\
  Word64.popcount
    (Z.land (getIdentityString (Pauli_of_string "XYZI")) (Z.ones 4)) = 1.
Proof.
  assert (W : wf (Pauli_of_string "XYZI")) by (cbv; repeat split; discriminate).
  split; [exact W|].
  exact (identityCount_counts_identity_bits (Pauli_of_string "XYZI") W).
Defined.

End IdentityString.

(** * Further properties of the synthesis formulator *)

Section ReturnedGates.

Lemma body_returns (grb : Gurobi) (numQubits numOperatorsPerSet : nat)
  (graph : Graph) (RS : list Pauli) (verbose : bool)
  (gates : list BinaryCliffordGate) :
  fst (findHTCircuitBody grb numQubits numOperatorsPerSet graph RS verbose) =
    Ok (Some gates) ->
  readsDefined numQubits numOperatorsPerSet RS = true /\
  exists es,
    Forall2 (fun t e => linearize (gateVarsOf numQubits) t = Ok e)
            (equations numQubits numOperatorsPerSet graph RS) es /\
    let m := expectedModel numQubits (numQubits * numOperatorsPerSet) es in
    fst (solve grb m) = GRB_OPTIMAL /\
    gates = map (gateOfValues (snd (solve grb m))) (seq 0 numQubits).
Proof.
  intros H. unfold findHTCircuitBody in H.
  destruct (readsDefined numQubits numOperatorsPerSet RS);
    [|discriminate H].
  split; [reflexivity|].
  unfold tryRun in H.
  match type of H with
  | fst (catchAll (?run)) = _ => destruct run as [res st] eqn:Hrun
  end.
  unfold catchAll in H.
  destruct res as [v | e | | ]; cbn [fst] in H; try discriminate H.
  inversion H; subst v.
  apply tryBlock_Some in Hrun; [|reflexivity].
  destruct Hrun as (es & HF & _ & Hstatus & ->).
  exists es. split; [exact HF|]. split; [exact Hstatus|reflexivity].
Qed.

Lemma body_gates_bits (grb : Gurobi) (numQubits numOperatorsPerSet : nat)
  (graph : Graph) (RS : list Pauli) (verbose : bool)
  (gates : list BinaryCliffordGate) :
  fst (findHTCircuitBody grb numQubits numOperatorsPerSet graph RS verbose) =
    Ok (Some gates) ->
  List.length gates = numQubits /\ (Sound grb -> Forall bitGate gates).
Proof.
  intros H. apply body_returns in H.
  destruct H as (_ & es & _ & Hstatus & ->). cbv zeta in Hstatus.
  split; [rewrite length_map, length_seq; reflexivity|].
  intros Hsound. apply Hsound in Hstatus.
  apply Forall_forall. intros g Hg.
  apply in_map_iff in Hg. destruct Hg as (i & <- & Hi). apply in_seq in Hi.
  assert (Hbit : forall off, (off < 4)%nat ->
            isBit (truncate (snd (solve grb
                     (expectedModel numQubits
                        (numQubits * numOperatorsPerSet) es))
                     (4 * i + off)%nat))).
  { intros off Hoff.
    destruct (binary_value _ _ _ _ i off Hstatus ltac:(lia) Hoff) as [E|E].
    - left. apply truncate_0. exact E.
    - right. apply truncate_1. exact E. }
  unfold bitGate, gateOfValues. cbn [axx axz azx azz].
  pose proof (Hbit 0%nat ltac:(lia)) as H0. rewrite Nat.add_0_r in H0.
  repeat split; [exact H0|apply Hbit; lia ..].
Qed.

(** X11.  A returned gate sequence has one descriptor per qubit
    ([graph.numVertices()] for the dynamic overload, [numQubits] for the
    fixed-size one), and with a sound solver each of the four entries of
    every descriptor is 0 or 1. *)
Theorem returned_gates_count_and_bits (grb : Gurobi) (graph : Graph)
  (RS : list Pauli) (verbose : bool) :
  (forall gates,
     fst (findHTCircuit grb graph RS verbose) = Ok (Some gates) ->
     List.length gates = numVertices graph /\
     (Sound grb -> Forall bitGate gates)) /\
  (forall numQubits gates,
     fst (findHTCircuitFixed grb numQubits graph RS verbose) =
       Ok (Some gates) ->
     List.length gates = numQubits /\
     (Sound grb -> Forall bitGate gates)).
Proof.
  split.
  - intros gates H. exact (body_gates_bits _ _ _ _ _ _ _ H).
  - intros numQubits gates H. exact (body_gates_bits _ _ _ _ _ _ _ H).
Qed.

Lemma returned_gates_count_and_bits_witness :
  let grb := checkingSolver (onesAt [0; 3; 4; 7; 9; 10]%nat) in
  let RS := [Pauli_of_string "XZ"; Pauli_of_string "ZX"] in
  exists gates,
    fst (findHTCircuit grb (edgeGraph 2) RS false) = Ok (Some gates) /\
    List.length gates = 2%nat /\ Forall bitGate gates.
Proof.
  cbv zeta. eexists. split; [vm_compute; reflexivity|].
  destruct (returned_gates_count_and_bits
              (checkingSolver (onesAt [0; 3; 4; 7; 9; 10]%nat)) (edgeGraph 2)
              [Pauli_of_string "XZ"; Pauli_of_string "ZX"] false) as [H _].
  destruct (H _ ltac:(vm_compute; reflexivity)) as [H1 H2].
  split; [exact H1|]. apply H2. apply checkingSolver_sound.
Defined.

End ReturnedGates.

Section SurplusGenerators.

(** X12.  The fixed-size overload never looks at generators beyond the first
    [numQubits]: given at least that many, it returns what it returns on the
    first [numQubits] of them, which is also what the dynamic overload
    returns on those for a graph with [numQubits] vertices. *)
Theorem fixed_overload_reads_first_generators (grb : Gurobi) (graph : Graph)
  (RS : list Pauli) (verbose : bool)
  (Hsize : (numVertices graph <= List.length RS)%nat) :
  findHTCircuitFixed grb (numVertices graph) graph RS verbose =
    findHTCircuitFixed grb (numVertices graph) graph
      (firstn (numVertices graph) RS) verbose /\
  findHTCircuitFixed grb (numVertices graph) graph RS verbose =
    findHTCircuit grb graph (firstn (numVertices graph) RS) verbose.
Proof.
  assert (E : findHTCircuitFixed grb (numVertices graph) graph RS verbose =
              findHTCircuitFixed grb (numVertices graph) graph
                (firstn (numVertices graph) RS) verbose).
  { unfold findHTCircuitFixed, findHTCircuitBody, tryRun, equations,
      entrySession.
    rewrite readsDefined_firstn by exact Hsize.
    rewrite !generatorBits_firstn. reflexivity. }
  split; [exact E|].
  rewrite E. unfold findHTCircuitFixed, findHTCircuit.
  rewrite length_firstn, Nat.min_l by exact Hsize. reflexivity.
Qed.

Lemma fixed_overload_reads_first_generators_witness :
  let grb := checkingSolver (onesAt [0; 3; 4; 7]%nat) in
  let RS := [Pauli_of_string "XX"; Pauli_of_string "XX";
             Pauli_of_string "ZZ"] in
  findHTCircuitFixed grb 2 (emptyGraph 2) RS false =
    findHTCircuit grb (emptyGraph 2)
      [Pauli_of_string "XX"; Pauli_of_string "XX"] false.
Proof.
  cbv zeta.
  destruct (fixed_overload_reads_first_generators
              (checkingSolver (onesAt [0; 3; 4; 7]%nat)) (emptyGraph 2)
              [Pauli_of_string "XX"; Pauli_of_string "XX";
               Pauli_of_string "ZZ"] false ltac:(cbn; lia)) as [_ H].
  exact H.
Defined.

End SurplusGenerators.

(** ** The equations are linear by construction *)

Section Linearity.

Variable k : nat.

Lemma Shaped_bit (c : Z) : isBit c -> Shaped k (Number c).
Proof.
  intros Hc. unfold Shaped. cbn [monomials]. constructor; [|constructor].
  split; [exact Hc|left; reflexivity].
Qed.

Lemma Shaped_Plus (a b : Expression) :
  Shaped k a -> Shaped k b -> Shaped k (Plus a b).
Proof.
  unfold Shaped. cbn [monomials]. intros Ha Hb.
  apply Forall_app. split; assumption.
Qed.

Lemma Shaped_sumOf (l : list Expression) :
  Forall (Shaped k) l -> Shaped k (sumOf l).
Proof.
  induction 1 as [|e l He Hl IH]; cbn [sumOf fold_right].
  - apply Shaped_bit. left. reflexivity.
  - apply Shaped_Plus; assumption.
Qed.

Lemma Shaped_scale (c : Z) (e : Expression) :
  isBit c -> Shaped k e -> Shaped k (Times (Number c) e).
Proof.
  unfold Shaped. cbn [monomials flat_map]. intros Hc He.
  rewrite app_nil_r. apply Forall_map. cbn [fst snd app].
  apply Forall_impl with (2 := He). intros [c' vs] [Hb Hv].
  cbn [fst snd] in *. split; [|exact Hv].
  destruct Hc as [-> | ->], Hb as [-> | ->]; cbv; auto.
Qed.

Lemma Shaped_symbol_times (v : SymbolicVariable) (b : Z) :
  GoodSymbol k v -> isBit b -> Shaped k (Times (Symbol v) (Number b)).
Proof.
  intros Hv Hb. unfold Shaped. cbn. constructor; [|constructor].
  split; cbn [fst snd].
  - destruct Hb as [-> | ->]; cbv; auto.
  - right. exists v. split; [exact Hv|reflexivity].
Qed.

Lemma Shaped_zero_times (b : Z) :
  isBit b -> Shaped k (Times (Number 0) (Number b)).
Proof. intros Hb. apply Shaped_scale; [left; reflexivity|apply Shaped_bit; exact Hb]. Qed.

Lemma addMonomial_linear (mo : Monomial) (t : Term) :
  Simple k mo -> LinearTerm k t -> LinearTerm k (addMonomial mo t).
Proof.
  destruct mo as [c vs]. intros [Hc Hv] (Hp & Hn & Hs).
  cbn [fst snd] in Hc, Hv. unfold addMonomial.
  destruct Hc as [-> | ->]; cbn [Z.eqb].
  - repeat split; assumption.
  - destruct Hv as [-> | (v & Hgood & ->)].
    + repeat split; cbn [products numbers variables]; try assumption.
      constructor; [reflexivity|assumption].
    + cbn [Pos.eqb]. repeat split; cbn [products numbers variables];
        try assumption. constructor; assumption.
Qed.

Lemma simplified_linear (e : Expression) :
  Shaped k e -> LinearTerm k (simplified e).
Proof.
  unfold Shaped, simplified. induction 1 as [|mo ms Hmo Hms IH];
    cbn [fold_right].
  - repeat split; constructor.
  - apply addMonomial_linear; assumption.
Qed.

Lemma termExpression_shaped (t : Term) :
  LinearTerm k t -> Shaped k (termExpression t).
Proof.
  intros (Hp & Hn & Hs). unfold termExpression. rewrite Hp. cbn [map].
  rewrite app_nil_r. apply Shaped_sumOf. apply Forall_app. split.
  - apply Forall_map. apply Forall_impl with (2 := Hn).
    intros c ->. apply Shaped_bit. right. reflexivity.
  - apply Forall_map. apply Forall_impl with (2 := Hs).
    intros v Hv. unfold Shaped. cbn [monomials].
    constructor; [|constructor]. split; cbn [fst snd].
    + right. reflexivity.
    + right. exists v. split; [exact Hv|reflexivity].
Qed.

Lemma simplifiedTerm_linear (t : Term) :
  LinearTerm k t -> LinearTerm k (simplifiedTerm t).
Proof.
  intros H. unfold simplifiedTerm. apply simplified_linear.
  apply termExpression_shaped. exact H.
Qed.

End Linearity.

(** ** The entries of the left-hand-side matrix are linear *)

Section LinearEquations.

Variable k : nat.

Lemma land_one_bit (a : Z) : isBit (Z.land a 1).
Proof.
  change 1 with (Z.ones 1) at 1. rewrite Z.land_ones by lia.
  change (2 ^ 1) with 2. unfold isBit.
  pose proof (Z.mod_pos_bound a 2 ltac:(lia)). lia.
Qed.

Lemma x_bit (p : Pauli) (qubit : Z) : isBit (x p qubit).
Proof. apply land_one_bit. Qed.

Lemma z_bit (p : Pauli) (qubit : Z) : isBit (z p qubit).
Proof. apply land_one_bit. Qed.

Lemma entry_tabulate_cases {T : Type} (d : T) (rows cols : nat)
  (f : nat -> nat -> T) (i j : nat) :
  (i < rows /\ j < cols /\ entry d (tabulate rows cols f) i j = f i j)%nat \/
  entry d (tabulate rows cols f) i j = d.
Proof.
  destruct (Nat.ltb_spec i rows) as [Hi|Hi].
  - destruct (Nat.ltb_spec j cols) as [Hj|Hj].
    + left. repeat split; try assumption. apply entry_tabulate; assumption.
    + right. unfold entry, tabulate. rewrite nth_map_seq by exact Hi.
      apply nth_overflow. rewrite length_map, length_seq. exact Hj.
  - right. unfold entry, tabulate.
    rewrite (nth_overflow _ [])
      by (rewrite length_map, length_seq; exact Hi).
    destruct j; reflexivity.
Qed.

Lemma Shaped_tabulate (rows cols : nat) (f : nat -> nat -> Expression) :
  (forall i j, (i < rows)%nat -> (j < cols)%nat -> Shaped k (f i j)) ->
  forall i j, Shaped k (entry (Number 0) (tabulate rows cols f) i j).
Proof.
  intros H i j.
  destruct (entry_tabulate_cases (Number 0) rows cols f i j)
    as [(Hi & Hj & ->) | ->].
  - apply H; assumption.
  - apply Shaped_bit. left. reflexivity.
Qed.

Lemma Shaped_matAdd (rows cols : nat) (A B : Matrix Expression) :
  (forall i j, Shaped k (entry (Number 0) A i j)) ->
  (forall i j, Shaped k (entry (Number 0) B i j)) ->
  forall i j, Shaped k (entry (Number 0) (matAdd rows cols A B) i j).
Proof.
  intros HA HB. unfold matAdd. apply Shaped_tabulate.
  intros i j _ _. apply Shaped_Plus; [apply HA|apply HB].
Qed.

Lemma constants_tabulate (rows cols : nat) (f : nat -> nat -> Z) :
  constants (tabulate rows cols f) =
  tabulate rows cols (fun i j => Number (f i j)).
Proof.
  unfold constants, tabulate. rewrite map_map. apply map_ext.
  intros i. rewrite map_map. reflexivity.
Qed.

Lemma constants_entry (rows cols : nat) (f : nat -> nat -> Z) (i j : nat) :
  (forall i j, isBit (f i j)) ->
  exists b, isBit b /\
    entry (Number 0) (constants (tabulate rows cols f)) i j = Number b.
Proof.
  intros Hf. rewrite constants_tabulate.
  destruct (entry_tabulate_cases (Number 0) rows cols
              (fun i j => Number (f i j)) i j) as [(_ & _ & ->) | ->].
  - exists (f i j). split; [apply Hf|reflexivity].
  - exists 0. split; [left; reflexivity|reflexivity].
Qed.

Lemma diag_entry (prefix : string) (i j : nat) :
  In prefix blockTags ->
  (exists v, GoodSymbol k v /\
     entry (Number 0) (diag (generateSymbolVector k prefix)) i j = Symbol v) \/
  entry (Number 0) (diag (generateSymbolVector k prefix)) i j = Number 0.
Proof.
  intros Hp. unfold diag, generateSymbolVector.
  rewrite length_map, length_seq.
  match goal with
  | |- context [tabulate k k ?f] =>
      destruct (entry_tabulate_cases (Number 0) k k f i j)
        as [(Hi & Hj & ->) | ->]
  end; [|right; reflexivity].
  destruct (Nat.eqb i j); [|right; reflexivity].
  left. exists (symbol prefix i). split.
  - exists prefix, i. repeat split; assumption.
  - rewrite nth_map_seq by exact Hi. reflexivity.
Qed.

Lemma Shaped_diag_times (prefix : string) (rows cols inner : nat)
  (f : nat -> nat -> Z) :
  In prefix blockTags -> (forall i j, isBit (f i j)) ->
  forall i j,
    Shaped k (entry (Number 0)
                (matMul rows inner cols (diag (generateSymbolVector k prefix))
                   (constants (tabulate k cols f))) i j).
Proof.
  intros Hp Hf. unfold matMul. apply Shaped_tabulate. intros i j _ _.
  apply Shaped_sumOf. apply Forall_map. apply Forall_forall. intros c _.
  destruct (constants_entry k cols f c j Hf) as (b & Hb & ->).
  destruct (diag_entry prefix i c Hp) as [(v & Hv & ->) | ->].
  - apply Shaped_symbol_times; assumption.
  - apply Shaped_zero_times; assumption.
Qed.

Lemma Shaped_bits_times (rows cols inner : nat) (f : nat -> nat -> Z)
  (B : Matrix Expression) :
  (forall i j, isBit (f i j)) ->
  (forall i j, Shaped k (entry (Number 0) B i j)) ->
  forall i j,
    Shaped k (entry (Number 0)
                (matMul rows inner cols
                   (constants (tabulate rows inner f)) B) i j).
Proof.
  intros Hf HB. unfold matMul. apply Shaped_tabulate. intros i j _ _.
  apply Shaped_sumOf. apply Forall_map. apply Forall_forall. intros c _.
  destruct (constants_entry rows inner f i c Hf) as (b & Hb & ->).
  apply Shaped_scale; [exact Hb|apply HB].
Qed.

Lemma in_entries_tabulate {T : Type} (rows cols : nat) (f : nat -> nat -> T)
  (t : T) :
  In t (entries (tabulate rows cols f)) ->
  exists i j, (i < rows)%nat /\ (j < cols)%nat /\ t = f i j.
Proof.
  unfold entries, tabulate. intros H. apply in_concat in H.
  destruct H as (row & Hrow & Ht). apply in_map_iff in Hrow.
  destruct Hrow as (i & <- & Hi). apply in_map_iff in Ht.
  destruct Ht as (j & <- & Hj). apply in_seq in Hi. apply in_seq in Hj.
  exists i, j. repeat split; lia.
Qed.

End LinearEquations.

(** Every entry of [lhs] is a sum of ones and of symbols of the unknowns. *)
Lemma equations_linear (numQubits numOperatorsPerSet : nat) (graph : Graph)
  (RS : list Pauli) :
  Forall (LinearTerm numQubits)
         (equations numQubits numOperatorsPerSet graph RS).
Proof.
  apply Forall_forall. intros t Ht.
  unfold equations, leftHandSides in Ht. cbv zeta in Ht.
  unfold matAdd at 1 in Ht. rewrite simplifiedMatrix_tabulate in Ht.
  apply in_entries_tabulate in Ht. destruct Ht as (i & j & _ & _ & ->).
  assert (HR : forall i j, isBit (x (nth j RS Pauli_default) (Z.of_nat i)))
    by (intros; apply x_bit).
  assert (HS : forall i j, isBit (z (nth j RS Pauli_default) (Z.of_nat i)))
    by (intros; apply z_bit).
  assert (HA : forall i j : nat,
            isBit (if adjacent graph i j then 1 else 0))
    by (intros a b; destruct (adjacent graph a b);
        [right|left]; reflexivity).
  unfold generatorBits, adjacencyMatrix.
  apply simplified_linear. apply Shaped_Plus.
  - apply Shaped_matAdd.
    + apply Shaped_bits_times; [exact HA|].
      apply Shaped_matAdd; apply Shaped_diag_times;
        cbn; auto.
    + apply Shaped_diag_times; cbn; auto.
  - apply Shaped_diag_times; cbn; auto.
Qed.

(** ** Linearisation succeeds on linear terms *)

(** The first character that [std::to_string] writes for a qubit below 64
    is a digit, and the digit is not larger than the qubit. *)
Lemma first_digit (k : nat) :
  (k < 64)%nat ->
  exists c rest,
    to_string k = String c rest /\
    (48 <= nat_of_ascii c)%nat /\ (nat_of_ascii c - 48 <= k)%nat.
Proof.
  intros Hk.
  do 64 (destruct k as [|k];
         [do 2 eexists; split; [reflexivity|vm_compute; lia]|]).
  lia.
Qed.

(** Line 73 finds a variable for the name of every unknown: the character
    at index 3 is a digit that is the index of a declared qubit. *)
Lemma varOf_good (numQubits : nat) (v : SymbolicVariable) :
  (numQubits <= 64)%nat -> GoodSymbol numQubits v ->
  exists g, varOf (gateVarsOf numQubits) v = Ok g.
Proof.
  intros Hn (prefix & i & Hp & Hi & ->).
  destruct (first_digit i ltac:(lia)) as (c & rest & Hts & Hlo & Hhi).
  set (d := (nat_of_ascii c - 48)%nat).
  assert (Hidx : Z.of_nat (nat_of_ascii c) - Z.of_nat (nat_of_ascii "0") =
                 Z.of_nat d).
  { change (nat_of_ascii "0") with 48%nat. subst d. lia. }
  assert (Hnth : forall f : nat -> nat,
            nth_error (map f (seq 0 numQubits)) d = Some (f d)).
  { intros f. rewrite nth_error_map, nth_error_seq.
    destruct (Nat.ltb_spec d numQubits); [reflexivity|subst d; lia]. }
  unfold varOf, getVar, symbol, symbolName. rewrite Hts.
  cbn in Hp.
  destruct Hp as [<- | [<- | [<- | [<- | []]]]];
    cbn [name String.append charAt String.get];
    change (Ascii.eqb "x" "z") with false;
    change (Ascii.eqb "z" "z") with true;
    cbv iota;
    change (0 * 2 + 0)%nat with 0%nat; change (0 * 2 + 1)%nat with 1%nat;
    change (1 * 2 + 0)%nat with 2%nat; change (1 * 2 + 1)%nat with 3%nat;
    rewrite Hidx;
    (destruct (Z.ltb_spec (Z.of_nat d) 0) as [Hneg|_]; [lia|]);
    rewrite Nat2Z.id; unfold bind, index, aVars, gateVarsOf, ret;
    cbn [nth_error axxVars axzVars azxVars azzVars];
    unfold GRBVar; rewrite Hnth; eexists; reflexivity.
Qed.

Lemma collect_run (vs : GateVars) (cs : list SymbolicVariable) :
  Forall (fun c => exists g, varOf vs c = Ok g) cs ->
  forall (e0 : GRBLinExpr) (st : Session),
    exists e,
      foldM (fun e c => v <- getVar vs c ;; ret (linAddVar e v)) cs e0 st =
      (Ok e, st).
Proof.
  induction 1 as [|c cs [g Hg] _ IH]; intros e0 st.
  - exists e0. reflexivity.
  - cbn [foldM].
    destruct (IH (linAddVar e0 g) st) as (e & He). exists e.
    unfold bind at 1. unfold bind at 1. rewrite getVar_run, Hg.
    unfold ret at 1. exact He.
Qed.

Lemma linearize_defined (numQubits : nat) (t : Term) :
  (numQubits <= 64)%nat -> LinearTerm numQubits t ->
  exists e, linearize (gateVarsOf numQubits) t = Ok e.
Proof.
  intros Hn Ht. apply simplifiedTerm_linear in Ht.
  destruct Ht as (Hp & _ & Hv).
  assert (Hvars : Forall (fun c => exists g,
                              varOf (gateVarsOf numQubits) c = Ok g)
                         (variables (simplifiedTerm t))).
  { apply Forall_impl with (2 := Hv).
    intros v Hgood. apply varOf_good; assumption. }
  unfold linearize, toGRBLinExpression. cbv zeta.
  destruct (collect_run (gateVarsOf numQubits) _ Hvars
              (fold_left (fun e c => linAddConstant e (inject_Z c))
                         (numbers (simplifiedTerm t)) (linConstant 0))
              (mkSession emptyModel None [])) as (e & He).
  exists e. unfold bind at 1. rewrite He. rewrite Hp. reflexivity.
Qed.

(** ** No failed assertion, no undefined behaviour *)

Section Safety.

Variable grb : Gurobi.
Variable throws : bool.
Hypothesis Hquiet : throws = false -> Quiet grb.

Lemma Ends_bind {A B : Type} (c : M A) (f : A -> M B) (st : Session) :
  Ends throws (fst (c st)) ->
  (forall a st1, c st = (Ok a, st1) -> Ends throws (fst (f a st1))) ->
  Ends throws (fst (bind c f st)).
Proof.
  intros Hc Hf. unfold bind.
  destruct (c st) as [[a | e | | ] st1]; cbn [fst] in *;
    try assumption. apply Hf. reflexivity.
Qed.

Lemma Ends_call (c : ApiCall) (st : Session) :
  Ends throws (fst (call grb c st)).
Proof.
  unfold call. destruct (raises grb c (model st)) as [e|] eqn:E; cbn; [|exact I].
  destruct throws; [reflexivity|].
  rewrite (Hquiet eq_refl) in E. discriminate E.
Qed.

Lemma Ends_after_call {A : Type} (c : ApiCall) (f : Session -> A * Session)
  (st : Session) :
  Ends throws
    (fst (bind (call grb c) (fun _ st1 => (Ok (fst (f st1)), snd (f st1))) st)).
Proof. apply Ends_bind; [apply Ends_call|]. intros; exact I. Qed.

Lemma Ends_addVar (l u o : Q) (t : VType) (nm : string) (st : Session) :
  Ends throws (fst (addVar grb l u o t nm st)).
Proof. apply Ends_bind; [apply Ends_call|]. intros; exact I. Qed.

Lemma Ends_addQConstr (lhs : GRBQuadExpr) (rhs : Q) (nm : string)
  (st : Session) :
  Ends throws (fst (addQConstr grb lhs rhs nm st)).
Proof. apply Ends_bind; [apply Ends_call|]. intros; exact I. Qed.

Lemma Ends_addConstr (lhs rhs : GRBLinExpr) (nm : string) (st : Session) :
  Ends throws (fst (addConstr grb lhs rhs nm st)).
Proof. apply Ends_bind; [apply Ends_call|]. intros; exact I. Qed.

Lemma Ends_setObjective (e : GRBLinExpr) (st : Session) :
  Ends throws (fst (setObjective grb e st)).
Proof. apply Ends_bind; [apply Ends_call|]. intros; exact I. Qed.

Lemma Ends_optimize (st : Session) : Ends throws (fst (optimize grb st)).
Proof. apply Ends_bind; [apply Ends_call|]. intros; exact I. Qed.

Lemma Ends_getStatus (st : Session) : Ends throws (fst (getStatus grb st)).
Proof. apply Ends_bind; [apply Ends_call|]. intros; exact I. Qed.

Lemma Ends_getX (v : GRBVar) (st : Session) :
  solution st <> None -> Ends throws (fst (getX grb v st)).
Proof.
  intros Hsol. apply Ends_bind; [apply Ends_call|].
  intros u st1 Hc. apply call_Ok in Hc. subst st1.
  destruct (solution st); [exact I|congruence].
Qed.

Lemma Ends_index {A : Type} (v : list A) (i : nat) (st : Session) :
  (i < List.length v)%nat -> Ends throws (fst (index v i st)).
Proof.
  intros Hi. unfold index.
  destruct (nth_error v i) eqn:E; [exact I|].
  apply nth_error_None in E. lia.
Qed.

Lemma Ends_declareGate (i : nat) (st : Session) :
  Ends throws (fst (declareGate grb (gateVarsOf i) i st)).
Proof.
  unfold declareGate.
  do 4 (apply Ends_bind; [apply Ends_addVar|]; intros ? ? _).
  cbn [axxVars axzVars azxVars azzVars gateVarsOf].
  do 4 (apply Ends_bind;
        [apply Ends_index; rewrite length_app, length_map, length_seq;
         cbn; lia|]; intros ? ? _).
  apply Ends_bind; [apply Ends_addQConstr|]. intros; exact I.
Qed.

Lemma Ends_declareGates (j : nat) :
  forall (i : nat) (st : Session),
    List.length (modelVars (model st)) = (4 * i)%nat ->
    Ends throws (fst (foldM (declareGate grb) (seq i j) (gateVarsOf i) st)).
Proof.
  induction j as [|j IH]; intros i st Hlen; [exact I|].
  cbn [seq foldM]. apply Ends_bind; [apply Ends_declareGate|].
  intros vs1 st1 H1. apply declareGate_Ok in H1; [|exact Hlen].
  destruct H1 as [-> ->]. apply IH.
  cbn [model modelVars]. rewrite length_app, Hlen. cbn. lia.
Qed.

Lemma Ends_declareDummies (j : nat) :
  forall (i : nat) (dv : list GRBVar) (st : Session),
    Ends throws (fst (foldM (declareDummy grb) (seq i j) dv st)).
Proof.
  induction j as [|j IH]; intros i dv st; [exact I|].
  cbn [seq foldM]. apply Ends_bind.
  - unfold declareDummy. apply Ends_bind; [apply Ends_addVar|].
    intros; exact I.
  - intros dv1 st1 _. apply IH.
Qed.

Lemma Ends_addEquations (vs : GateVars) (d numEqs : nat) (lhs : list Term) :
  Forall (fun t => exists e, linearize vs t = Ok e) lhs ->
  forall (i : nat) (st : Session),
    (i + List.length lhs <= numEqs)%nat ->
    Ends throws
      (fst (foldM (addEquation grb vs (seq d numEqs)) lhs i st)).
Proof.
  induction 1 as [|t lhs [e He] _ IH]; intros i st Hle; [exact I|].
  cbn [List.length] in Hle. cbn [foldM].
  assert (Hstep : forall st0,
            Ends throws (fst (addEquation grb vs (seq d numEqs) i t st0)) /\
            forall i1 st1,
              addEquation grb vs (seq d numEqs) i t st0 = (Ok i1, st1) ->
              i1 = S i).
  { intros st0. unfold addEquation. split.
    - apply Ends_bind;
        [rewrite toGRBLinExpression_run, He; exact I|]. intros ? ? _.
      apply Ends_bind; [apply Ends_index; rewrite length_seq; lia|].
      intros ? ? _.
      apply Ends_bind; [apply Ends_addConstr|]. intros; exact I.
    - intros i1 st1 H.
      do 3 (let u := fresh "u" in
            let st2 := fresh "st" in
            apply bind_Ok in H; destruct H as (u & st2 & _ & H)).
      apply ret_Ok in H. exact (proj1 H). }
  apply Ends_bind; [apply Hstep|].
  intros i1 st1 H1. apply (proj2 (Hstep st)) in H1. subst i1.
  apply IH. lia.
Qed.

Lemma Ends_formulate (numQubits numEqs : nat) (lhs : list Term)
  (st : Session) :
  model st = emptyModel ->
  Forall (fun t => exists e, linearize (gateVarsOf numQubits) t = Ok e) lhs ->
  (List.length lhs <= numEqs)%nat ->
  Ends throws (fst (formulate grb numQubits numEqs lhs st)).
Proof.
  intros Hm Hlin Hlen. unfold formulate.
  do 5 (apply Ends_bind; [apply Ends_call|];
        let Hc := fresh "Hc" in
        intros ? ? Hc; apply call_Ok in Hc; subst).
  apply Ends_bind; [apply Ends_setObjective|].
  intros u st1 Hc. apply setObjective_Ok in Hc. subst st1.
  change (mkGateVars [] [] [] []) with (gateVarsOf 0).
  apply Ends_bind.
  { apply Ends_declareGates. cbn [model modelVars]. rewrite Hm. reflexivity. }
  intros vs1 st1 Hg. apply declareGates_Ok in Hg;
    [|cbn [model modelVars]; rewrite Hm; reflexivity].
  destruct Hg as [-> ->]. cbn [Nat.add].
  apply Ends_bind; [apply Ends_declareDummies|].
  intros dv st2 Hd. apply declareDummies_Ok in Hd. destruct Hd as [-> ->].
  cbn [app]. apply Ends_bind.
  { apply Ends_addEquations; [exact Hlin|]. cbn. exact Hlen. }
  intros; exact I.
Qed.

Lemma Ends_readGates (numQubits : nat) (verbose : bool) (j : nat) :
  forall (i : nat) (layer : list BinaryCliffordGate) (st : Session),
    (i + j <= numQubits)%nat -> solution st <> None ->
    Ends throws
      (fst (foldM (readGate grb (gateVarsOf numQubits) verbose) (seq i j)
              layer st)).
Proof.
  induction j as [|j IH]; intros i layer st Hle Hsol; [exact I|].
  cbn [seq foldM].
  assert (Hidx : forall f : nat -> nat,
            (i < List.length (map f (seq 0 numQubits)))%nat)
    by (intros f; rewrite length_map, length_seq; lia).
  assert (Hstep : forall st0, solution st0 <> None ->
            Ends throws
              (fst (readGate grb (gateVarsOf numQubits) verbose layer i st0)) /\
            forall l1 st1,
              readGate grb (gateVarsOf numQubits) verbose layer i st0 =
                (Ok l1, st1) -> solution st1 <> None).
  { intros st0 Hs0. unfold readGate.
    cbn [axxVars axzVars azxVars azzVars gateVarsOf]. split.
    - do 4 (apply Ends_bind; [apply Ends_index; apply Hidx|];
            (let Hc := fresh "Hc" in
             intros ? ? Hc; apply index_Ok in Hc; destruct Hc as [_ Hc];
             subst);
            apply Ends_bind; [apply Ends_getX; assumption|];
            (let Hc := fresh "Hc" in
             intros ? ? Hc; apply getX_Ok in Hc; destruct Hc as [Hc _];
             subst)).
      apply Ends_bind; [destruct verbose; exact I|]. intros; exact I.
    - intros l1 st1 H.
      do 8 (let Hc := fresh "Hc" in
            apply bind_Ok in H; destruct H as (? & ? & Hc & H);
            invert_call Hc; subst).
      apply bind_Ok in H. destruct H as (? & ? & Hp & H).
      apply ret_Ok in H. destruct H as [_ ->].
      destruct verbose.
      + unfold print in Hp. inversion Hp. cbn. assumption.
      + apply ret_Ok in Hp. destruct Hp as [_ ->]. assumption. }
  apply Ends_bind; [apply Hstep; exact Hsol|].
  intros l1 st1 H1. apply IH; [lia|].
  apply (proj2 (Hstep st Hsol) l1 st1 H1).
Qed.

Lemma Ends_tryBlock (numQubits numEqs : nat) (lhs : list Term)
  (verbose : bool) (st : Session) :
  model st = emptyModel ->
  Forall (fun t => exists e, linearize (gateVarsOf numQubits) t = Ok e) lhs ->
  (List.length lhs <= numEqs)%nat ->
  Ends throws (fst (tryBlock grb numQubits numEqs lhs verbose st)).
Proof.
  intros Hm Hlin Hlen. unfold tryBlock. apply Ends_bind.
  { unfold solveStage. apply Ends_bind; [apply Ends_formulate; assumption|].
    intros vs st1 _. apply Ends_bind; [apply Ends_optimize|].
    intros u st2 _. apply Ends_bind; [apply Ends_getStatus|].
    intros; exact I. }
  intros [vs status] st1 Hs. apply solveStage_Ok in Hs; [|exact Hm].
  destruct Hs as (-> & es & _ & _ & _ & ->).
  destruct (negb (status =? 2)); [exact I|].
  apply Ends_bind; [|intros; exact I].
  apply Ends_readGates; [lia|]. cbn [solution]. discriminate.
Qed.

End Safety.

Section NoFault.

Lemma readsDefined_intro (rows cols : nat) (RS : list Pauli) :
  (rows <= 64)%nat -> (cols <= List.length RS)%nat ->
  readsDefined rows cols RS = true.
Proof.
  intros Hr Hc. unfold readsDefined. apply forallb_forall. intros i Hi.
  apply in_seq in Hi. apply forallb_forall. intros j Hj. apply in_seq in Hj.
  apply andb_true_intro. split; apply Nat.ltb_lt; lia.
Qed.

Lemma equations_linearizable (numQubits numOperatorsPerSet : nat)
  (graph : Graph) (RS : list Pauli) :
  readsDefined numQubits numOperatorsPerSet RS = true ->
  Forall (fun t => exists e, linearize (gateVarsOf numQubits) t = Ok e)
         (equations numQubits numOperatorsPerSet graph RS).
Proof.
  intros Hreads.
  destruct numOperatorsPerSet as [|m].
  - pose proof (length_equations numQubits 0 graph RS) as Hlen.
    rewrite Nat.mul_0_r in Hlen.
    destruct (equations numQubits 0 graph RS); [constructor|discriminate].
  - assert (Hn : (numQubits <= 64)%nat).
    { destruct numQubits as [|n]; [lia|].
      destruct (readsDefined_bound _ _ _ n 0%nat Hreads) as [H _]; lia. }
    apply Forall_impl with (2 := equations_linear numQubits (S m) graph RS).
    intros t Ht. apply linearize_defined; assumption.
Qed.




End NoFault.

(** ** What a call writes *)

Section Output.

Variable grb : Gurobi.

Lemma Silent_bind {A B : Type} (c : M A) (f : A -> M B) :
  Silent c -> (forall a, Silent (f a)) -> Silent (bind c f).
Proof.
  intros Hc Hf st. unfold bind. specialize (Hc st).
  destruct (c st) as [[a | e | | ] st1]; cbn [snd] in *; try exact Hc.
  rewrite Hf. exact Hc.
Qed.

Lemma Silent_ret {A : Type} (a : A) : Silent (ret a).
Proof. intros st. reflexivity. Qed.

Lemma Silent_call (c : ApiCall) : Silent (call grb c).
Proof.
  intros st. unfold call. destruct (raises grb c (model st)); reflexivity.
Qed.

Lemma Silent_index {A : Type} (v : list A) (i : nat) : Silent (index v i).
Proof. intros st. unfold index. destruct (nth_error v i); reflexivity. Qed.

Lemma Silent_foldM {A B : Type} (f : B -> A -> M B) (l : list A) :
  (forall b a, Silent (f b a)) -> forall b, Silent (foldM f l b).
Proof.
  intros Hf. induction l as [|a l IH]; intros b; cbn [foldM].
  - apply Silent_ret.
  - apply Silent_bind; [apply Hf|exact IH].
Qed.

Lemma Silent_addVar (l u o : Q) (t : VType) (nm : string) :
  Silent (addVar grb l u o t nm).
Proof.
  apply Silent_bind; [apply Silent_call|]. intros _ st. reflexivity.
Qed.

Lemma Silent_declareGate (vs : GateVars) (i : nat) :
  Silent (declareGate grb vs i).
Proof.
  unfold declareGate.
  do 4 (apply Silent_bind; [apply Silent_addVar|]; intros ?).
  do 4 (apply Silent_bind; [apply Silent_index|]; intros ?).
  apply Silent_bind; [|intros; apply Silent_ret].
  apply Silent_bind; [apply Silent_call|]. intros _ st. reflexivity.
Qed.

Lemma Silent_toGRBLinExpression (vs : GateVars) (t : Term) :
  Silent (toGRBLinExpression vs t).
Proof.
  intros st. rewrite toGRBLinExpression_run. reflexivity.
Qed.

Lemma Silent_formulate (numQubits numEqs : nat) (lhs : list Term) :
  Silent (formulate grb numQubits numEqs lhs).
Proof.
  unfold formulate.
  do 5 (apply Silent_bind; [apply Silent_call|]; intros _).
  apply Silent_bind.
  { apply Silent_bind; [apply Silent_call|]. intros _ st. reflexivity. }
  intros _. apply Silent_bind.
  { apply Silent_foldM. intros; apply Silent_declareGate. }
  intros vs. apply Silent_bind.
  { apply Silent_foldM. intros dv i. unfold declareDummy.
    apply Silent_bind; [apply Silent_addVar|]. intros; apply Silent_ret. }
  intros dv. apply Silent_bind; [|intros; apply Silent_ret].
  apply Silent_foldM. intros i t. unfold addEquation.
  apply Silent_bind; [apply Silent_toGRBLinExpression|]. intros e.
  apply Silent_bind; [apply Silent_index|]. intros d.
  apply Silent_bind; [|intros; apply Silent_ret].
  apply Silent_bind; [apply Silent_call|]. intros _ st. reflexivity.
Qed.

Lemma Silent_getX (v : GRBVar) : Silent (getX grb v).
Proof.
  apply Silent_bind; [apply Silent_call|]. intros _ st.
  destruct (solution st); reflexivity.
Qed.

Lemma Silent_tryBlock (numQubits numEqs : nat) (lhs : list Term) :
  Silent (tryBlock grb numQubits numEqs lhs false).
Proof.
  unfold tryBlock. apply Silent_bind.
  { unfold solveStage. apply Silent_bind; [apply Silent_formulate|].
    intros vs. apply Silent_bind.
    { apply Silent_bind; [apply Silent_call|]. intros _ st. reflexivity. }
    intros _. apply Silent_bind; [|intros; apply Silent_ret].
    apply Silent_bind; [apply Silent_call|]. intros _ st. reflexivity. }
  intros [vs status]. destruct (negb (status =? 2)); [apply Silent_ret|].
  apply Silent_bind; [|intros; apply Silent_ret].
  apply Silent_foldM. intros layer i. unfold readGate.
  do 4 (apply Silent_bind; [apply Silent_index|]; intros ?;
        apply Silent_bind; [apply Silent_getX|]; intros ?).
  apply Silent_bind; [apply Silent_ret|]. intros; apply Silent_ret.
Qed.

Lemma body_quiet_output (numQubits numOperatorsPerSet : nat)
  (graph : Graph) (RS : list Pauli) :
  readsDefined numQubits numOperatorsPerSet RS = true ->
  let run := findHTCircuitBody grb numQubits numOperatorsPerSet graph RS
               false in
  let session := tryRun grb numQubits numOperatorsPerSet graph RS false in
  (snd run = [] <-> forall e, fst session <> Thrown e) /\
  (forall code message,
     fst session = Thrown (GRBException code message) ->
     run =
       (Ok None,
        [OutText "Error code = "; OutInt code;
         OutText (String "010" EmptyString);
         OutText message; OutText (String "010" EmptyString)])) /\
  (fst session = Thrown OtherException ->
   run =
     (Ok None,
      [OutText "Exception during optimization";
       OutText (String "010" EmptyString)])) /\
  (Quiet grb -> snd run = []).
Proof.
  intros Hreads. cbv zeta. unfold findHTCircuitBody. rewrite Hreads.
  pose proof (Silent_tryBlock numQubits (numQubits * numOperatorsPerSet)
                (equations numQubits numOperatorsPerSet graph RS)
                (entrySession numQubits numOperatorsPerSet graph RS false))
    as Hs.
  assert (Hends : Quiet grb ->
            Ends false
              (fst (tryBlock grb numQubits (numQubits * numOperatorsPerSet)
                      (equations numQubits numOperatorsPerSet graph RS) false
                      (entrySession numQubits numOperatorsPerSet graph RS
                         false)))).
  { intros Hq. apply Ends_tryBlock.
    - intros _. exact Hq.
    - reflexivity.
    - apply equations_linearizable. exact Hreads.
    - rewrite length_equations. lia. }
  unfold tryRun.
  destruct (tryBlock grb numQubits (numQubits * numOperatorsPerSet)
              (equations numQubits numOperatorsPerSet graph RS) false
              (entrySession numQubits numOperatorsPerSet graph RS false))
    as [[v | e | | ] st]; cbn [fst snd catchAll entrySession stdout] in *;
    rewrite Hs; cbn [app].
  - repeat split; try discriminate; reflexivity.
  - split; [split|split; [|split]].
    + intros H. destruct e; discriminate H.
    + intros H. exfalso. exact (H e eq_refl).
    + intros code message He. inversion He. reflexivity.
    + intros He. inversion He. reflexivity.
    + intros Hq. specialize (Hends Hq). discriminate Hends.
  - repeat split; try discriminate; reflexivity.
  - repeat split; try discriminate; reflexivity.
Qed.

End Output.

(** X14.  With [verbose = false] a call writes nothing to [std::cout]
    exactly when no exception is raised inside the [try] block.  When a
    [GRBException] is raised the call returns the empty result and the
    whole output is [Error code = ], the error code, a line break, the
    message and a line break; for any other exception it is
    [Exception during optimization] and a line break.  With a solver that
    raises nothing, nothing is written.  Stated for the dynamic overload on
    at most 64 qubits and for the fixed-size overload given at least
    [numQubits] generators. *)
Theorem silent_unless_exception (grb : Gurobi) (graph : Graph)
  (RS : list Pauli) (Hqubits : (numVertices graph <= 64)%nat) :
  let n := numVertices graph in
  let run := findHTCircuit grb graph RS false in
  let session := tryRun grb n (List.length RS) graph RS false in
  let runFixed := findHTCircuitFixed grb n graph RS false in
  let sessionFixed := tryRun grb n n graph RS false in
  ((snd run = [] <-> forall e, fst session <> Thrown e) /\
   (forall code message,
      fst session = Thrown (GRBException code message) ->
      run =
        (Ok None,
         [OutText "Error code = "; OutInt code;
          OutText (String "010" EmptyString);
          OutText message; OutText (String "010" EmptyString)])) /\
   (fst session = Thrown OtherException ->
    run =
      (Ok None,
       [OutText "Exception during optimization";
        OutText (String "010" EmptyString)])) /\
   (Quiet grb -> snd run = [])) /\
  ((n <= List.length RS)%nat ->
   (snd runFixed = [] <-> forall e, fst sessionFixed <> Thrown e) /\
   (forall code message,
      fst sessionFixed = Thrown (GRBException code message) ->
      runFixed =
        (Ok None,
         [OutText "Error code = "; OutInt code;
          OutText (String "010" EmptyString);
          OutText message; OutText (String "010" EmptyString)])) /\
   (fst sessionFixed = Thrown OtherException ->
    runFixed =
      (Ok None,
       [OutText "Exception during optimization";
        OutText (String "010" EmptyString)])) /\
   (Quiet grb -> snd runFixed = [])).
Proof.
  cbv zeta. split.
  - apply (body_quiet_output grb (numVertices graph) (List.length RS)
             graph RS).
    apply readsDefined_intro; [exact Hqubits|lia].
  - intros Hsize.
    apply (body_quiet_output grb (numVertices graph) (numVertices graph)
             graph RS).
    apply readsDefined_intro; assumption.
Qed.

Lemma silent_unless_exception_witness :
  let grb :=
    mkGurobi (fun c _ => match c with
                         | Optimize => Some (GRBException 10009 "No license")
                         | _ => None
                         end)
             (fun _ => (GRB_OPTIMAL, fun _ => 0%Q)) in
  let RS := [Pauli_of_string "XZ"; Pauli_of_string "ZX"] in
  (numVertices (edgeGraph 2) <= 64)%nat /\
  fst (tryRun grb 2 2 (edgeGraph 2) RS false) =
    Thrown (GRBException 10009 "No license") /\
  findHTCircuit grb (edgeGraph 2) RS false =
    (Ok None,
     [OutText "Error code = "; OutInt 10009;
      OutText (String "010" EmptyString);
      OutText "No license"; OutText (String "010" EmptyString)]) /\
  Quiet (checkingSolver (onesAt [0; 3; 4; 7; 9; 10]%nat)) /\
  snd (findHTCircuit (checkingSolver (onesAt [0; 3; 4; 7; 9; 10]%nat))
         (edgeGraph 2) RS false) = [].
Proof.
  cbv zeta.
  assert (Hn : (numVertices (edgeGraph 2) <= 64)%nat) by (cbn; lia).
  assert (Ht : fst (tryRun
                      (mkGurobi
                         (fun c _ => match c with
                                     | Optimize =>
                                         Some (GRBException 10009 "No license")
                                     | _ => None
                                     end)
                         (fun _ => (GRB_OPTIMAL, fun _ => 0%Q)))
                      2 2 (edgeGraph 2)
                      [Pauli_of_string "XZ"; Pauli_of_string "ZX"] false) =
               Thrown (GRBException 10009 "No license"))
    by (vm_compute; reflexivity).
  assert (Hq : Quiet (checkingSolver (onesAt [0; 3; 4; 7; 9; 10]%nat)))
    by (intros c m; reflexivity).
  split; [exact Hn|]. split; [exact Ht|]. split; [|split; [exact Hq|]].
  - destruct (silent_unless_exception
                (mkGurobi
                   (fun c _ => match c with
                               | Optimize =>
                                   Some (GRBException 10009 "No license")
                               | _ => None
                               end)
                   (fun _ => (GRB_OPTIMAL, fun _ => 0%Q)))
                (edgeGraph 2)
                [Pauli_of_string "XZ"; Pauli_of_string "ZX"] Hn)
      as ((_ & H & _ & _) & _).
    exact (H 10009 "No license"%string Ht).
  - destruct (silent_unless_exception
                (checkingSolver (onesAt [0; 3; 4; 7; 9; 10]%nat))
                (edgeGraph 2)
                [Pauli_of_string "XZ"; Pauli_of_string "ZX"] Hn)
      as ((_ & _ & _ & H) & _).
    exact (H Hq).
Defined.

(** ** The formulated model and the synthesis problem *)

Section Completeness.

Variables (numQubits numOperatorsPerSet : nat).
Variable graph : Graph.
Variable RS : list Pauli.

Lemma gateAt_bit (gates : list BinaryCliffordGate) (k : nat) :
  Forall bitGate gates -> bitGate (gateAt gates k).
Proof.
  intros H. unfold gateAt.
  destruct (nth_in_or_default k gates (mkGate 0 0 0 0)) as [Hin | ->].
  - rewrite Forall_forall in H. apply H. exact Hin.
  - repeat split; left; reflexivity.
Qed.

Lemma Zsum_bounds {A : Type} (f : A -> Z) (c : Z) (l : list A) :
  (forall a, In a l -> 0 <= f a <= c) ->
  0 <= Zsum (map f l) <= c * Z.of_nat (List.length l).
Proof.
  induction l as [|a l IH]; intros H.
  - cbn. lia.
  - unfold Zsum in *. cbn [map fold_right List.length].
    pose proof (H a (or_introl eq_refl)).
    specialize (IH (fun b Hb => H b (or_intror Hb))). nia.
Qed.

Lemma equationValue_bounds (gates : list BinaryCliffordGate) (i j : nat) :
  Forall bitGate gates ->
  0 <= equationValue numQubits graph RS gates i j <=
  2 * Z.of_nat numQubits + 2.
Proof.
  intros Hbits. unfold equationValue. cbv zeta.
  assert (Hterm : forall k,
            0 <= axx (gateAt gates k) * x (nth j RS Pauli_default) (Z.of_nat k) +
                 axz (gateAt gates k) * z (nth j RS Pauli_default) (Z.of_nat k)
              <= 2 /\
            0 <= azx (gateAt gates k) * x (nth j RS Pauli_default) (Z.of_nat k) +
                 azz (gateAt gates k) * z (nth j RS Pauli_default) (Z.of_nat k)
              <= 2).
  { intros k. destruct (gateAt_bit gates k Hbits) as (B0 & B1 & B2 & B3).
    pose proof (x_bit (nth j RS Pauli_default) (Z.of_nat k)) as Bx.
    pose proof (z_bit (nth j RS Pauli_default) (Z.of_nat k)) as Bz.
    unfold isBit in *. split; nia. }
  match goal with
  | |- _ <= Zsum (map ?f ?l) + _ <= _ =>
      pose proof (Zsum_bounds f 2 l) as Hsum
  end.
  rewrite length_seq in Hsum.
  assert (Hall : forall k, In k (seq 0 numQubits) ->
            0 <= (if adjacent graph i k then 1 else 0) *
                 (axx (gateAt gates k) * x (nth j RS Pauli_default) (Z.of_nat k) +
                  axz (gateAt gates k) * z (nth j RS Pauli_default) (Z.of_nat k))
              <= 2).
  { intros k _. destruct (Hterm k) as [H _].
    destruct (adjacent graph i k); lia. }
  specialize (Hsum Hall). destruct (Hterm i) as [_ H]. lia.
Qed.

Lemma assignmentOf_gate (gates : list BinaryCliffordGate) (k off : nat) :
  (k < numQubits)%nat -> (off < 4)%nat ->
  assignmentOf numQubits numOperatorsPerSet graph RS gates (4 * k + off)%nat =
  inject_Z (gateEntry (gateAt gates k) off).
Proof.
  intros Hk Hoff. unfold assignmentOf.
  destruct (Nat.ltb_spec (4 * k + off)%nat (4 * numQubits)%nat) as [_|H]; [|lia].
  rewrite <- (Nat.div_unique (4 * k + off)%nat 4 k off) by lia.
  rewrite <- (Nat.mod_unique (4 * k + off)%nat 4 k off) by lia.
  reflexivity.
Qed.

Lemma assignmentOf_slack (gates : list BinaryCliffordGate) (i j : nat) :
  (j < numOperatorsPerSet)%nat ->
  assignmentOf numQubits numOperatorsPerSet graph RS gates
    (4 * numQubits + (i * numOperatorsPerSet + j))%nat =
  inject_Z (equationValue numQubits graph RS gates i j / 2).
Proof.
  intros Hj. unfold assignmentOf.
  destruct (Nat.ltb_spec (4 * numQubits + (i * numOperatorsPerSet + j))%nat
              (4 * numQubits)%nat) as [H|_]; [lia|].
  cbv zeta.
  replace (4 * numQubits + (i * numOperatorsPerSet + j) - 4 * numQubits)%nat
    with (i * numOperatorsPerSet + j)%nat by lia.
  rewrite <- (Nat.div_unique (i * numOperatorsPerSet + j)%nat
                numOperatorsPerSet i j) by lia.
  rewrite <- (Nat.mod_unique (i * numOperatorsPerSet + j)%nat
                numOperatorsPerSet i j) by lia.
  reflexivity.
Qed.

Lemma in_equationsFrom (es : list GRBLinExpr) (d : nat) (c : LinConstr) :
  forall i0,
    In c (equationsFrom es d i0) ->
    exists p e, nth_error es p = Some e /\
                c = halfEquals e (d + (i0 + p))%nat (i0 + p)%nat.
Proof.
  induction es as [|e0 es IH]; intros i0 H; [destruct H|].
  cbn [equationsFrom] in H. destruct H as [<- | H].
  - exists 0%nat, e0. rewrite Nat.add_0_r. split; reflexivity.
  - apply IH in H. destruct H as (p & e & Hp & ->).
    exists (S p), e. split; [exact Hp|].
    replace (S i0 + p)%nat with (i0 + S p)%nat by lia. reflexivity.
Qed.

Lemma symbolValue_gate (a : Assignment) (k : nat) :
  (k < numQubits)%nat -> (numQubits <= 10)%nat ->
  let rho := symbolValue (gateVarsOf numQubits) a in
  rho (symbol "axx" k) = a (4 * k + 0)%nat /\
  rho (symbol "axz" k) = a (4 * k + 1)%nat /\
  rho (symbol "azx" k) = a (4 * k + 2)%nat /\
  rho (symbol "azz" k) = a (4 * k + 3)%nat.
Proof.
  intros Hk Hn. cbv zeta.
  destruct (varOf_symbol numQubits k Hk ltac:(lia)) as (V0 & V1 & V2 & V3).
  unfold symbolValue. rewrite V0, V1, V2, V3, Nat.add_0_r.
  repeat split; reflexivity.
Qed.

(** The value of the left-hand side [(i, j)] under the assignment of a gate
    sequence. *)
Lemma equation_value_of_gates (gates : list BinaryCliffordGate) (i j : nat) :
  (numQubits <= 10)%nat ->
  (i < numQubits)%nat -> (j < numOperatorsPerSet)%nat ->
  exists t,
    nth_error (equations numQubits numOperatorsPerSet graph RS)
              (i * numOperatorsPerSet + j) = Some t /\
    (evalTerm (symbolValue (gateVarsOf numQubits)
                 (assignmentOf numQubits numOperatorsPerSet graph RS gates)) t ==
     inject_Z (equationValue numQubits graph RS gates i j))%Q.
Proof.
  intros Hn Hi Hj.
  set (a := assignmentOf numQubits numOperatorsPerSet graph RS gates).
  set (rho := symbolValue (gateVarsOf numQubits) a).
  destruct (equations_value rho numQubits numOperatorsPerSet graph RS i j
              Hi Hj) as (t & Ht & Hval).
  exists t. split; [exact Ht|]. rewrite Hval.
  assert (Hrho : forall k, (k < numQubits)%nat ->
            rho (symbol "axx" k) = inject_Z (axx (gateAt gates k)) /\
            rho (symbol "axz" k) = inject_Z (axz (gateAt gates k)) /\
            rho (symbol "azx" k) = inject_Z (azx (gateAt gates k)) /\
            rho (symbol "azz" k) = inject_Z (azz (gateAt gates k))).
  { intros k Hk.
    destruct (symbolValue_gate a k Hk Hn) as (S0 & S1 & S2 & S3).
    fold rho in S0, S1, S2, S3. rewrite S0, S1, S2, S3. subst a.
    rewrite !assignmentOf_gate by lia. repeat split; reflexivity. }
  unfold equationValue. cbv zeta.
  rewrite !inject_Z_plus, <- Qsum_inject_Z.
  destruct (Hrho i Hi) as (_ & _ & -> & ->).
  rewrite !inject_Z_mult. unfold bitR, bitS.
  rewrite <- Qplus_assoc.
  apply Qplus_comp; [|reflexivity].
  apply Qsum_map_ext. intros k Hk. apply in_seq in Hk.
  destruct (Hrho k ltac:(lia)) as (-> & -> & _ & _).
  rewrite !inject_Z_mult, inject_Z_plus, !inject_Z_mult. reflexivity.
Qed.


(** A solution of the synthesis problem satisfies the formulated model. *)
Lemma gates_satisfy (gates : list BinaryCliffordGate)
  (es : list GRBLinExpr) :
  (numQubits <= 10)%nat ->
  LocalClifford numQubits numOperatorsPerSet graph RS gates ->
  Forall2 (fun t e => linearize (gateVarsOf numQubits) t = Ok e)
          (equations numQubits numOperatorsPerSet graph RS) es ->
  Satisfies (expectedModel numQubits (numQubits * numOperatorsPerSet) es)
            (assignmentOf numQubits numOperatorsPerSet graph RS gates).
Proof.
  intros Hn (Hlen & Hbits & Hsym & Heqs) HF.
  set (a := assignmentOf numQubits numOperatorsPerSet graph RS gates).
  assert (Hgate : forall k off, (k < numQubits)%nat -> (off < 4)%nat ->
            exists b, isBit b /\ a (4 * k + off)%nat = inject_Z b).
  { intros k off Hk Hoff. subst a. rewrite assignmentOf_gate by assumption.
    eexists. split; [|reflexivity].
    destruct (gateAt_bit gates k Hbits) as (B0 & B1 & B2 & B3).
    destruct off as [|[|[|off]]]; cbn [gateEntry]; assumption. }
  split; [|split].
  - intros v d Hnth. cbn [expectedModel modelVars] in Hnth.
    destruct (Nat.ltb_spec v (4 * numQubits)) as [Hv|Hv].
    + rewrite nth_error_app1 in Hnth by (rewrite length_gateDecls; lia).
      pose proof (Nat.div_mod_eq v 4) as Hdm.
      pose proof (Nat.mod_upper_bound v 4 ltac:(lia)) as Hoff.
      assert (Hk : (v / 4 < numQubits)%nat)
        by (apply Nat.Div0.div_lt_upper_bound; lia).
      rewrite Hdm in Hnth |- *.
      rewrite nth_error_gateDecls in Hnth by assumption.
      destruct (Hgate _ _ Hk Hoff) as (b & Hb & ->).
      cbn [Nat.add] in Hnth.
      assert (Hd : lb d = 0%Q /\ ub d = 1%Q /\ vtype d = GRB_BINARY).
      { revert Hnth Hoff. generalize (v mod 4)%nat. intros off Hnth Hoff.
        destruct off as [|[|[|[|off]]]]; try lia; cbn in Hnth;
          inversion Hnth; repeat split. }
      destruct Hd as (Hl & Hu & Ht). unfold inDomain. rewrite Hl, Hu, Ht.
      destruct Hb as [-> | ->]; repeat split;
        try (left; reflexivity); try (right; reflexivity);
        unfold Qle; cbn; lia.
    + rewrite nth_error_app2 in Hnth by (rewrite length_gateDecls; lia).
      rewrite length_gateDecls in Hnth.
      assert (Hp : (v - 4 * numQubits < numQubits * numOperatorsPerSet)%nat).
      { rewrite <- (repeat_length dummyDecl
                      (numQubits * numOperatorsPerSet)).
        apply nth_error_Some. rewrite Hnth. discriminate. }
      apply nth_error_In in Hnth. apply repeat_spec in Hnth. subst d.
      set (p := (v - 4 * numQubits)%nat) in *.
      assert (Hm : (0 < numOperatorsPerSet)%nat) by nia.
      pose proof (Nat.div_mod_eq p numOperatorsPerSet) as Hdm.
      pose proof (Nat.mod_upper_bound p numOperatorsPerSet ltac:(lia)) as Hj.
      replace v with (4 * numQubits +
                      (p / numOperatorsPerSet * numOperatorsPerSet +
                       p mod numOperatorsPerSet))%nat by lia.
      subst a. rewrite assignmentOf_slack by exact Hj.
      pose proof (equationValue_bounds gates (p / numOperatorsPerSet)
                    (p mod numOperatorsPerSet) Hbits) as Hb.
      set (ev := equationValue numQubits graph RS gates
                   (p / numOperatorsPerSet) (p mod numOperatorsPerSet)) in *.
      assert (Hhalf : 0 <= ev / 2 <= 1000).
      { split; [apply Z.div_pos; lia|].
        apply Z.div_le_upper_bound; lia. }
      unfold inDomain, dummyDecl. cbn [lb ub vtype].
      repeat split.
      * change (-1000)%Q with (inject_Z (-1000)).
        rewrite <- Zle_Qle. lia.
      * change 1000%Q with (inject_Z 1000). rewrite <- Zle_Qle. lia.
      * exists (ev / 2). reflexivity.
  - cbn [expectedModel modelQConstrs]. apply Forall_forall. intros c Hc.
    apply in_map_iff in Hc. destruct Hc as (i & <- & Hi).
    apply in_seq in Hi.
    destruct (gateAt_bit gates i Hbits) as (B0 & B1 & B2 & B3).
    assert (Hs : symplectic (gateAt gates i)).
    { unfold gateAt. rewrite Forall_forall in Hsym. apply Hsym.
      apply nth_In. lia. }
    unfold holdsQ, gateConstr, evalQuad, evalLin, quadSumOfProducts.
    cbn [qcLhs qcRhs linearPart quadTerms linConstant constant linTerms
         map fst snd].
    pose proof (assignmentOf_gate gates i 0 ltac:(lia) ltac:(lia)) as A0.
    rewrite Nat.add_0_r in A0.
    subst a. rewrite A0, !assignmentOf_gate by lia. cbn [gateEntry].
    unfold symplectic in Hs. unfold isBit in *. revert Hs.
    destruct B0 as [-> | ->], B1 as [-> | ->], B2 as [-> | ->],
             B3 as [-> | ->]; intros Hs;
      try (exfalso; revert Hs; vm_compute; discriminate);
      vm_compute; reflexivity.
  - cbn [expectedModel modelConstrs]. apply Forall_forall. intros c Hc.
    apply in_equationsFrom in Hc. destruct Hc as (p & e & He & ->).
    cbn [Nat.add].
    destruct (Forall2_nth_r _ _ _ HF _ _ He) as (t & Ht & Hlin).
    assert (Hp : (p < numQubits * numOperatorsPerSet)%nat).
    { rewrite <- (length_equations numQubits numOperatorsPerSet graph RS).
      apply nth_error_Some. rewrite Ht. discriminate. }
    assert (Hm : (0 < numOperatorsPerSet)%nat) by nia.
    pose proof (Nat.div_mod_eq p numOperatorsPerSet) as Hdm.
    pose proof (Nat.mod_upper_bound p numOperatorsPerSet ltac:(lia)) as Hj.
    assert (Hi : (p / numOperatorsPerSet < numQubits)%nat)
      by (apply Nat.Div0.div_lt_upper_bound; lia).
    set (i := (p / numOperatorsPerSet)%nat) in *.
    set (j := (p mod numOperatorsPerSet)%nat) in *.
    assert (Hpij : p = (i * numOperatorsPerSet + j)%nat) by lia.
    destruct (equation_value_of_gates gates i j ltac:(lia) Hi Hj)
      as (t' & Ht' & Hval).
    rewrite <- Hpij, Ht in Ht'. inversion Ht'; subst t'.
    unfold holds, halfEquals. cbn [lcLhs lcRhs].
    rewrite evalLin_scale, evalLin_var.
    rewrite (linearize_value _ a t e Hlin). fold a in Hval. rewrite Hval.
    rewrite Hpij at 1. subst a. rewrite assignmentOf_slack by exact Hj.
    specialize (Heqs i j Hi Hj).
    set (ev := equationValue numQubits graph RS gates i j) in *.
    assert (Hev : ev = 2 * (ev / 2)).
    { pose proof (Z.div_mod ev 2 ltac:(lia)). lia. }
    rewrite Hev at 1. rewrite inject_Z_mult.
    change (inject_Z 2) with 2%Q. field.
Qed.

End Completeness.

Section Decision.

Variables (numQubits numOperatorsPerSet : nat).
Variable graph : Graph.
Variable RS : list Pauli.

(** A satisfying assignment of the formulated model gives a solution of the
    synthesis problem. *)
Lemma satisfying_gates (a : Assignment) (es : list GRBLinExpr) :
  (numQubits <= 10)%nat ->
  Forall2 (fun t e => linearize (gateVarsOf numQubits) t = Ok e)
          (equations numQubits numOperatorsPerSet graph RS) es ->
  Satisfies (expectedModel numQubits (numQubits * numOperatorsPerSet) es) a ->
  LocalClifford numQubits numOperatorsPerSet graph RS
    (map (gateOfValues a) (seq 0 numQubits)).
Proof.
  intros Hn HF Hsat.
  set (numEqs := (numQubits * numOperatorsPerSet)%nat) in *.
  split; [rewrite length_map, length_seq; reflexivity|].
  split; [|split].
  - apply Forall_forall. intros g Hg.
    apply in_map_iff in Hg. destruct Hg as (i & <- & Hi). apply in_seq in Hi.
    assert (Hbit : forall off, (off < 4)%nat ->
              isBit (truncate (a (4 * i + off)%nat))).
    { intros off Hoff.
      destruct (binary_value _ _ _ _ i off Hsat ltac:(lia) Hoff) as [E|E].
      - left. apply truncate_0. exact E.
      - right. apply truncate_1. exact E. }
    unfold bitGate, gateOfValues. cbn [axx axz azx azz].
    pose proof (Hbit 0%nat ltac:(lia)) as H0. rewrite Nat.add_0_r in H0.
    repeat split; [exact H0|apply Hbit; lia ..].
  - apply Forall_forall. intros g Hg.
    apply in_map_iff in Hg. destruct Hg as (i & <- & Hi). apply in_seq in Hi.
    apply (satisfied_gate_symplectic numQubits numEqs es);
      [exact Hsat|lia].
  - intros i j Hi Hj.
    set (rho := symbolValue (gateVarsOf numQubits) a).
    destruct (equations_value rho numQubits numOperatorsPerSet graph RS i j
                Hi Hj) as (t & Ht & Hval).
    destruct (Forall2_nth_l _ _ _ HF _ _ Ht) as (e & He & Hlin).
    assert (Hp : (i * numOperatorsPerSet + j < numEqs)%nat)
      by (subst numEqs; nia).
    destruct (slack_forces_even numQubits numEqs es a _ e Hsat He Hp)
      as [k0 Hk0].
    pose proof (linearize_value (gateVarsOf numQubits) a t e Hlin) as Hle.
    fold rho in Hle. rewrite Hk0, Hval in Hle.
    assert (Hrho : forall k, (k < numQubits)%nat ->
              let g := gateAt (map (gateOfValues a) (seq 0 numQubits)) k in
              (rho (symbol "axx" k) == inject_Z (axx g))%Q /\
              (rho (symbol "axz" k) == inject_Z (axz g))%Q /\
              (rho (symbol "azx" k) == inject_Z (azx g))%Q /\
              (rho (symbol "azz" k) == inject_Z (azz g))%Q).
    { intros k Hk.
      apply (symbol_is_gate_entry numQubits numEqs es a k Hsat Hk).
      lia. }
    assert (Hsum :
      (Qsum (map (fun k =>
                    inject_Z (if adjacent graph i k then 1 else 0) *
                    (rho (symbol "axx" k) * inject_Z (bitR RS k j) +
                     rho (symbol "axz" k) * inject_Z (bitS RS k j)))
                 (seq 0 numQubits)) ==
       inject_Z
         (Zsum (map (fun k =>
                       (if adjacent graph i k then 1 else 0) *
                       (axx (gateAt (map (gateOfValues a) (seq 0 numQubits)) k) *
                          bitR RS k j +
                        axz (gateAt (map (gateOfValues a) (seq 0 numQubits)) k) *
                          bitS RS k j))%Z
                    (seq 0 numQubits))))%Q).
    { rewrite <- Qsum_inject_Z. apply Qsum_map_ext. intros k Hk.
      apply in_seq in Hk.
      destruct (Hrho k ltac:(lia)) as (G0 & G1 & _ & _).
      rewrite G0, G1.
      rewrite !inject_Z_mult, inject_Z_plus, !inject_Z_mult. reflexivity. }
    destruct (Hrho i Hi) as (_ & _ & G2 & G3).
    rewrite Hsum, G2, G3 in Hle.
    rewrite <- !inject_Z_mult, <- !inject_Z_plus in Hle.
    pose proof (proj1 (inject_Z_injective _ _) Hle) as HZ.
    unfold equationValue. cbv zeta.
    unfold bitR, bitS in HZ.
    rewrite Z.add_assoc. rewrite <- HZ.
    rewrite Z.mul_comm. apply Z_mod_mult.
Qed.

Lemma linearizations_unique (vs : GateVars) (l : list Term)
  (es es' : list GRBLinExpr) :
  Forall2 (fun t e => linearize vs t = Ok e) l es ->
  Forall2 (fun t e => linearize vs t = Ok e) l es' ->
  es = es'.
Proof.
  intros H. revert es'.
  induction H as [|t e l es He _ IH]; intros es' H'; inversion H'; subst.
  - reflexivity.
  - f_equal; [congruence|]. apply IH. assumption.
Qed.

(** The formulation itself never fails: it produces the model in closed
    form. *)
Lemma formulatedModel_closed :
  readsDefined numQubits numOperatorsPerSet RS = true ->
  exists es,
    Forall2 (fun t e => linearize (gateVarsOf numQubits) t = Ok e)
            (equations numQubits numOperatorsPerSet graph RS) es /\
    formulatedModel numQubits numOperatorsPerSet graph RS =
      Ok (expectedModel numQubits (numQubits * numOperatorsPerSet) es).
Proof.
  intros Hreads. unfold formulatedModel. rewrite Hreads.
  set (grb := mkGurobi quiet (fun _ => (0, fun _ => 0%Q))).
  pose proof (Ends_formulate grb false
                ltac:(intros _ c m; reflexivity) numQubits
                (numQubits * numOperatorsPerSet)
                (equations numQubits numOperatorsPerSet graph RS)
                (mkSession emptyModel None []) eq_refl
                (equations_linearizable _ _ graph RS Hreads)
                ltac:(rewrite length_equations; lia)) as H.
  destruct (formulate grb numQubits (numQubits * numOperatorsPerSet)
              (equations numQubits numOperatorsPerSet graph RS)
              (mkSession emptyModel None [])) as [[vs | e | | ] st] eqn:E;
    cbn [fst Ends] in H; try contradiction; try discriminate H.
  apply formulate_Ok in E; [|reflexivity].
  destruct E as (_ & es & HF & _ & ->). exists es.
  split; [exact HF|reflexivity].
Qed.

(** With a solver that raises nothing, a call returns the gates read from
    the solver's assignment when the status is 2, and the empty result
    otherwise. *)
Lemma quiet_body (grb : Gurobi) (verbose : bool) :
  Quiet grb ->
  readsDefined numQubits numOperatorsPerSet RS = true ->
  exists es,
    Forall2 (fun t e => linearize (gateVarsOf numQubits) t = Ok e)
            (equations numQubits numOperatorsPerSet graph RS) es /\
    let m := expectedModel numQubits (numQubits * numOperatorsPerSet) es in
    fst (findHTCircuitBody grb numQubits numOperatorsPerSet graph RS verbose) =
    Ok (if fst (solve grb m) =? GRB_OPTIMAL
        then Some (map (gateOfValues (snd (solve grb m))) (seq 0 numQubits))
        else None).
Proof.
  intros Hq Hreads. unfold findHTCircuitBody. rewrite Hreads.
  pose proof (Ends_tryBlock grb false ltac:(intros _; exact Hq) numQubits
                (numQubits * numOperatorsPerSet)
                (equations numQubits numOperatorsPerSet graph RS) verbose
                (entrySession numQubits numOperatorsPerSet graph RS verbose)
                eq_refl
                (equations_linearizable _ _ graph RS Hreads)
                ltac:(rewrite length_equations; lia)) as H.
  unfold tryRun.
  destruct (tryBlock grb numQubits (numQubits * numOperatorsPerSet)
              (equations numQubits numOperatorsPerSet graph RS) verbose
              (entrySession numQubits numOperatorsPerSet graph RS verbose))
    as [[v | e | | ] st] eqn:E;
    cbn [fst Ends] in H; try contradiction; try discriminate H.
  cbn [catchAll fst]. destruct v as [layer|].
  - apply tryBlock_Some in E; [|reflexivity].
    destruct E as (es & HF & _ & Hstatus & ->).
    exists es. split; [exact HF|]. cbv zeta. rewrite Hstatus. reflexivity.
  - apply tryBlock_None in E. destruct E as (vs & status & Hs & Hne).
    apply solveStage_Ok in Hs; [|reflexivity].
    destruct Hs as (_ & es & HF & _ & -> & _).
    exists es. split; [exact HF|]. cbv zeta.
    destruct (Z.eqb_spec
                (fst (solve grb
                        (expectedModel numQubits
                           (numQubits * numOperatorsPerSet) es)))
                GRB_OPTIMAL) as [Heq|_]; [contradiction|reflexivity].
Qed.

End Decision.

Section Answer.

(** X15.  For at most 10 qubits and a call whose reads of the generators
    are defined, the formulation succeeds, and the model it hands to the
    solver can be satisfied exactly when the synthesis problem has a
    solution: one bit-valued symplectic descriptor per qubit that meets the
    equation of every (qubit, generator) pair modulo 2. *)
Theorem formulated_model_feasible_iff_solution
  (numQubits numOperatorsPerSet : nat) (graph : Graph) (RS : list Pauli)
  (Hqubits : (numQubits <= 10)%nat)
  (Hreads : readsDefined numQubits numOperatorsPerSet RS = true) :
  exists m,
    formulatedModel numQubits numOperatorsPerSet graph RS = Ok m /\
    (Feasible m <->
     exists gates,
       LocalClifford numQubits numOperatorsPerSet graph RS gates).
Proof.
  destruct (formulatedModel_closed numQubits numOperatorsPerSet graph RS
              Hreads) as (es & HF & Hm).
  eexists. split; [exact Hm|]. split.
  - intros [a Ha]. eexists.
    apply (satisfying_gates numQubits numOperatorsPerSet graph RS a es);
      [exact Hqubits|exact HF|exact Ha].
  - intros [gates Hg]. eexists.
    apply (gates_satisfy numQubits numOperatorsPerSet graph RS gates es);
      assumption.
Qed.

Lemma formulated_model_feasible_iff_solution_witness :
  (2 <= 10)%nat /\
  readsDefined 2 2 [Pauli_of_string "XZ"; Pauli_of_string "ZX"] = true /\
  exists m,
    formulatedModel 2 2 (edgeGraph 2)
      [Pauli_of_string "XZ"; Pauli_of_string "ZX"] = Ok m /\
    (Feasible m <->
     exists gates,
       LocalClifford 2 2 (edgeGraph 2)
         [Pauli_of_string "XZ"; Pauli_of_string "ZX"] gates).
Proof.
  split; [lia|]. split; [reflexivity|].
  apply (formulated_model_feasible_iff_solution 2 2 (edgeGraph 2)
           [Pauli_of_string "XZ"; Pauli_of_string "ZX"]).
  - lia.
  - reflexivity.
Defined.

Lemma body_answers (grb : Gurobi) (numQubits numOperatorsPerSet : nat)
  (graph : Graph) (RS : list Pauli) (verbose : bool) :
  (numQubits <= 10)%nat ->
  readsDefined numQubits numOperatorsPerSet RS = true ->
  Quiet grb -> Sound grb ->
  CompleteOn grb numQubits numOperatorsPerSet graph RS ->
  Answers
    (fst (findHTCircuitBody grb numQubits numOperatorsPerSet graph RS verbose))
    numQubits numOperatorsPerSet graph RS.
Proof.
  intros Hn Hreads Hq Hsound Hcomplete.
  destruct (quiet_body numQubits numOperatorsPerSet graph RS grb verbose
              Hq Hreads) as (es & HF & Hrun).
  cbv zeta in Hrun. rewrite Hrun.
  destruct (Z.eqb_spec
              (fst (solve grb
                      (expectedModel numQubits
                         (numQubits * numOperatorsPerSet) es)))
              GRB_OPTIMAL) as [Hstatus|Hstatus]; cbn [Answers].
  - apply Hsound in Hstatus.
    apply (satisfying_gates numQubits numOperatorsPerSet graph RS _ es);
      [exact Hn|exact HF|exact Hstatus].
  - intros [gates Hg]. apply Hstatus.
    destruct (formulatedModel_closed numQubits numOperatorsPerSet graph RS
                Hreads) as (es' & HF' & Hm).
    rewrite (linearizations_unique _ _ _ _ HF HF').
    apply (Hcomplete _ Hm). eexists.
    apply (gates_satisfy numQubits numOperatorsPerSet graph RS gates es');
      assumption.
Qed.

(** X16.  With a solver that raises nothing, that reports status 2 only
    with a satisfying assignment and that reports status 2 whenever the
    model of the call can be satisfied, [findHTCircuit] on at most 10 qubits
    answers the synthesis problem: it returns a solution when there is one,
    and the empty result exactly when there is none.  The same holds for the
    fixed-size overload on its first [numQubits] generators. *)
Theorem findHTCircuit_answers (grb : Gurobi) (graph : Graph)
  (RS : list Pauli) (verbose : bool)
  (Hqubits : (numVertices graph <= 10)%nat)
  (Hquiet : Quiet grb) (Hsound : Sound grb) :
  (CompleteOn grb (numVertices graph) (List.length RS) graph RS ->
   Answers (fst (findHTCircuit grb graph RS verbose))
     (numVertices graph) (List.length RS) graph RS) /\
  ((numVertices graph <= List.length RS)%nat ->
   CompleteOn grb (numVertices graph) (numVertices graph) graph RS ->
   Answers
     (fst (findHTCircuitFixed grb (numVertices graph) graph RS verbose))
     (numVertices graph) (numVertices graph) graph RS).
Proof.
  split.
  - intros Hc. apply body_answers; try assumption.
    apply readsDefined_intro; lia.
  - intros Hsize Hc. apply body_answers; try assumption.
    apply readsDefined_intro; lia.
Qed.

Lemma findHTCircuit_answers_witness :
  let grb := checkingSolver (onesAt [0; 3; 4; 7; 9; 10]%nat) in
  let RS := [Pauli_of_string "XZ"; Pauli_of_string "ZX"] in
  (numVertices (edgeGraph 2) <= 10)%nat /\
  Quiet grb /\ Sound grb /\
  CompleteOn grb 2 2 (edgeGraph 2) RS /\
  Answers (fst (findHTCircuit grb (edgeGraph 2) RS false)) 2 2
    (edgeGraph 2) RS.
Proof.
  cbv zeta.
  assert (Hn : (numVertices (edgeGraph 2) <= 10)%nat) by (cbn; lia).
  assert (Hq : Quiet (checkingSolver (onesAt [0; 3; 4; 7; 9; 10]%nat)))
    by (intros c m; reflexivity).
  pose proof (checkingSolver_sound (onesAt [0; 3; 4; 7; 9; 10]%nat)) as Hs.
  assert (Hc : CompleteOn (checkingSolver (onesAt [0; 3; 4; 7; 9; 10]%nat))
                 2 2 (edgeGraph 2)
                 [Pauli_of_string "XZ"; Pauli_of_string "ZX"]).
  { intros m Hm _. vm_compute in Hm. inversion Hm. subst m.
    vm_compute. reflexivity. }
  split; [exact Hn|]. split; [exact Hq|]. split; [exact Hs|].
  split; [exact Hc|].
  exact (proj1 (findHTCircuit_answers
                  (checkingSolver (onesAt [0; 3; 4; 7; 9; 10]%nat))
                  (edgeGraph 2)
                  [Pauli_of_string "XZ"; Pauli_of_string "ZX"] false
                  Hn Hq Hs) Hc).
Defined.

End Answer.

(** ** The commutator of parsed operators *)

Section Commutation.

Lemma pauli_char_cases (c : ascii) :
  c = "X"%char \/ c = "Y"%char \/ c = "Z"%char \/
  (hasX c = false /\ hasZ c = false).
Proof.
  unfold hasX, hasZ.
  destruct (Ascii.eqb_spec c "X") as [H|_]; [left; exact H|].
  destruct (Ascii.eqb_spec c "Y") as [H|_]; [right; left; exact H|].
  destruct (Ascii.eqb_spec c "Z") as [H|_]; [right; right; left; exact H|].
  right. right. right. split; reflexivity.
Qed.

Lemma anticommute_bits (c1 c2 : ascii) :
  anticommute c1 c2 = xorb (hasX c1 && hasZ c2) (hasX c2 && hasZ c1).
Proof.
  unfold anticommute, nonIdentity.
  destruct (pauli_char_cases c1) as [-> | [-> | [-> | [Hx1 Hz1]]]];
    destruct (pauli_char_cases c2) as [-> | [-> | [-> | [Hx2 Hz2]]]];
    try reflexivity;
    try rewrite Hx1, Hz1; try rewrite Hx2, Hz2;
    cbn [orb andb xorb];
    repeat rewrite andb_false_r; try reflexivity;
    destruct (hasX c1), (hasZ c1), (hasX c2), (hasZ c2); reflexivity.
Qed.

Lemma sum_of_zeros (g : nat -> bool) (l : list nat) :
  (forall j, g j = false) ->
  fold_right Z.add 0 (map (fun j => Z.b2z (g j)) l) = 0.
Proof.
  intros H. induction l as [|j l IH]; cbn [map fold_right]; [reflexivity|].
  rewrite H, IH. reflexivity.
Qed.

Lemma pairs_sum (sel : ascii -> ascii -> bool) (a : string) :
  forall (b : string) (K : nat),
    (String.length a <= K)%nat ->
    fold_right Z.add 0
      (map (fun j => Z.b2z
                       match String.get j a, String.get j b with
                       | Some c1, Some c2 => sel c1 c2
                       | _, _ => false
                       end)
           (seq 0 K)) =
    countPairs sel a b.
Proof.
  induction a as [|c1 rest1 IH]; intros b K Ha.
  - cbn [countPairs]. apply sum_of_zeros. intros j. destruct j; reflexivity.
  - destruct K as [|K]; [cbn in Ha; lia|].
    destruct b as [|c2 rest2].
    + cbn [countPairs].
      apply (sum_of_zeros
               (fun j => match String.get j (String c1 rest1),
                               String.get j EmptyString with
                         | Some c1, Some c2 => sel c1 c2
                         | _, _ => false
                         end)).
      intros j. destruct (String.get j (String c1 rest1)); [|reflexivity].
      destruct j; reflexivity.
    + rewrite <- cons_seq, <- seq_shift, map_cons, map_map.
      cbn [fold_right countPairs String.get]. f_equal.
      apply IH. cbn in Ha. lia.
Qed.

Lemma lxor_land_in_range (k a b c d : Z) :
  0 <= k -> 0 <= a < 2 ^ k -> 0 <= b -> 0 <= c < 2 ^ k -> 0 <= d ->
  0 <= Z.lxor (Z.land a b) (Z.land c d) < 2 ^ k.
Proof.
  intros Hk Ha Hb Hc Hd.
  assert (H1 : 0 <= Z.land a b) by (apply Z.land_nonneg; lia).
  assert (H2 : 0 <= Z.land c d) by (apply Z.land_nonneg; lia).
  assert (Hn : 0 <= Z.lxor (Z.land a b) (Z.land c d))
    by (apply Z.lxor_nonneg; lia).
  split; [exact Hn|]. apply below_pow2_of_bits; try assumption.
  intros j Hj. rewrite Z.lxor_spec, !Z.land_spec.
  assert (Hbit : forall v, 0 <= v < 2 ^ k -> Z.testbit v j = false).
  { intros v Hv. destruct (Z.eq_dec v 0) as [-> | Hne];
      [apply Z.testbit_0_l|].
    apply Z.bits_above_log2; [lia|].
    assert (Z.log2 v < k) by (apply Z.log2_lt_pow2; lia). lia. }
  rewrite (Hbit a Ha), (Hbit c Hc). reflexivity.
Qed.

(** X17.  For two operators built from strings of at most 64 operator
    characters, [commutator] is the parity of the number of positions at
    which the two strings hold anticommuting characters (two different
    characters among [X], [Y], [Z]); the phase markers play no role, and
    the positions that only the longer string has count as identities. *)
Theorem commutator_counts_anticommuting_positions (str1 str2 : string)
  (Hlen1 : (String.length (operatorPart str1) <= 64)%nat)
  (Hlen2 : (String.length (operatorPart str2) <= 64)%nat) :
  commutator (Pauli_of_string str1) (Pauli_of_string str2) =
  countPairs anticommute (operatorPart str1) (operatorPart str2) mod 2.
Proof.
  rewrite !Pauli_of_string_parts. cbv zeta.
  set (body1 := operatorPart str1) in *.
  set (body2 := operatorPart str2) in *.
  set (k1 := markerValue (markerPart str1)).
  set (k2 := markerValue (markerPart str2)).
  unfold commutator, increasePhase. cbn [r s].
  set (p1 := fromStringOperator (startOperator k1) body1).
  set (p2 := fromStringOperator (startOperator k2) body2).
  destruct (fromStringOperator_range k1 body1 Hlen1) as (_ & _ & Hr1 & Hs1).
  destruct (fromStringOperator_range k2 body2 Hlen2) as (_ & _ & Hr2 & Hs2).
  fold p1 in Hr1, Hs1. fold p2 in Hr2, Hs2.
  assert (Hpow : forall m : nat, (m <= 64)%nat ->
            2 ^ Z.of_nat m <= 2 ^ Z.of_nat 64)
    by (intros m Hm; apply Z.pow_le_mono_r; lia).
  pose proof (Hpow _ Hlen1) as P1. pose proof (Hpow _ Hlen2) as P2.
  rewrite (popcount_bitCount 64)
    by (apply lxor_land_in_range; lia).
  change 1 with (Z.ones 1) at 1. rewrite Z.land_ones by lia.
  change (2 ^ 1) with 2. f_equal.
  unfold bitCount.
  rewrite <- (pairs_sum anticommute body1 body2 64 Hlen1).
  f_equal. apply map_ext_in. intros j Hj. apply in_seq in Hj. f_equal.
  rewrite Z.lxor_spec, !Z.land_spec.
  destruct (fromStringOperator_bits k1 body1 (Z.of_nat j) Hlen1 ltac:(lia))
    as [Er1 Es1].
  destruct (fromStringOperator_bits k2 body2 (Z.of_nat j) Hlen2 ltac:(lia))
    as [Er2 Es2].
  fold p1 in Er1, Es1. fold p2 in Er2, Es2.
  rewrite Er1, Es1, Er2, Es2. unfold bitFrom.
  destruct (Z.leb_spec 0 (Z.of_nat j)); [|lia].
  rewrite Z.sub_0_r, Nat2Z.id.
  destruct (Z.ltb_spec (Z.of_nat j) 64); [|lia].
  destruct (String.get j body1) as [c1|], (String.get j body2) as [c2|];
    rewrite ?andb_true_r, ?andb_false_r; try reflexivity.
  symmetry. apply anticommute_bits.
Qed.

Lemma commutator_counts_anticommuting_positions_witness :
  commutator (Pauli_of_string "-XYZI") (Pauli_of_string "iZZ?XX") = 0.
Proof.
  exact (commutator_counts_anticommuting_positions "-XYZI" "iZZ?XX"
           ltac:(cbn; lia) ltac:(cbn; lia)).
Defined.

End Commutation.

(** ** What a verbose call writes *)

Section VerboseOutput.

Lemma readGates_stdout (grb : Gurobi) (numQubits : nat)
  (sol : Z * Assignment) (j : nat) :
  forall (k : nat) (layer layer' : list BinaryCliffordGate) (st st' : Session),
    foldM (readGate grb (gateVarsOf numQubits) true) (seq k j) layer st =
      (Ok layer', st') ->
    solution st = Some sol ->
    stdout st' =
    stdout st ++
    flat_map (fun i => [OutText "U_"; OutInt (Z.of_nat i); OutText newline;
                        OutGate (gateOfValues (snd sol) i)])
             (seq k j).
Proof.
  induction j as [|j IH]; intros k layer layer' st st' H Hsol.
  - cbn in H. inversion H. cbn. rewrite app_nil_r. reflexivity.
  - cbn [seq foldM] in H. apply bind_Ok in H.
    destruct H as (layer1 & st1 & H1 & H2).
    assert (Hstep : solution st1 = Some sol /\
                    stdout st1 =
                    stdout st ++
                    [OutText "U_"; OutInt (Z.of_nat k); OutText newline;
                     OutGate (gateOfValues (snd sol) k)]).
    { unfold readGate in H1.
      do 8 (let Hc := fresh "Hc" in
            apply bind_Ok in H1; destruct H1 as (? & ? & Hc & H1);
            invert_call Hc; subst).
      repeat match goal with
             | E : nth_error (_ (gateVarsOf numQubits)) k = Some _ |- _ =>
                 apply nth_error_map_seq in E; destruct E as [_ ->]
             end.
      repeat match goal with
             | E : solution st = Some ?s |- _ =>
                 rewrite Hsol in E; inversion E; subst s; clear E
             end.
      apply bind_Ok in H1. destruct H1 as (uu & stp & Hp & H1).
      apply ret_Ok in H1. destruct H1 as [_ ->].
      unfold print in Hp. injection Hp as _ Hst. subst stp.
      cbn [solution stdout]. split; [exact Hsol|reflexivity]. }
    destruct Hstep as [Hsol1 Hout1].
    rewrite (IH _ _ _ _ _ H2 Hsol1), Hout1. cbn [flat_map].
    rewrite <- app_assoc. reflexivity.
Qed.

Lemma body_verbose_output (grb : Gurobi) (numQubits numOperatorsPerSet : nat)
  (graph : Graph) (RS : list Pauli) (gates : list BinaryCliffordGate) :
  fst (findHTCircuitBody grb numQubits numOperatorsPerSet graph RS true) =
    Ok (Some gates) ->
  snd (findHTCircuitBody grb numQubits numOperatorsPerSet graph RS true) =
  matricesReport numQubits numOperatorsPerSet graph RS ++
  flat_map (gateReport gates) (seq 0 numQubits).
Proof.
  intros H. unfold findHTCircuitBody in *.
  destruct (readsDefined numQubits numOperatorsPerSet RS);
    [|discriminate H].
  unfold tryRun in *.
  destruct (tryBlock grb numQubits (numQubits * numOperatorsPerSet)
              (equations numQubits numOperatorsPerSet graph RS) true
              (entrySession numQubits numOperatorsPerSet graph RS true))
    as [[v | e | | ] st] eqn:E; cbn [catchAll fst snd] in *;
    try discriminate H.
  inversion H; subst v. clear H.
  unfold tryBlock in E. apply bind_Ok in E.
  destruct E as ([vs status] & st1 & Hs & E).
  apply solveStage_Ok in Hs; [|reflexivity].
  destruct Hs as (-> & es & _ & _ & -> & ->).
  destruct (negb (_ =? 2)); [apply ret_Ok in E; destruct E as [E _];
                             discriminate E|].
  apply bind_Ok in E. destruct E as (layer & st2 & Hr & E).
  apply ret_Ok in E. destruct E as [E ->]. inversion E; subst layer.
  pose proof (readGates_Ok _ _ _ _ _ _ _ _ _ _ Hr eq_refl) as Hg.
  pose proof (readGates_stdout _ _ _ _ _ _ _ _ _ Hr eq_refl) as Ho.
  cbn [app] in Hg. rewrite Ho, Hg. cbn [stdout entrySession].
  unfold matricesReport. cbv zeta. f_equal.
  rewrite !flat_map_concat_map. f_equal.
  apply map_ext_in. intros i Hi. apply in_seq in Hi.
  unfold gateReport. rewrite gateAt_read by lia. reflexivity.
Qed.

(** X18.  A verbose call that returns gates has written the matrices [R],
    [S] and [lhs] and then, for each qubit in increasing order, the label
    [U_], the index of the qubit, a line break and the gate that is returned
    for that qubit; nothing else. *)
Theorem verbose_output_of_returned_gates (grb : Gurobi) (graph : Graph)
  (RS : list Pauli) (gates : list BinaryCliffordGate) :
  (fst (findHTCircuit grb graph RS true) = Ok (Some gates) ->
   snd (findHTCircuit grb graph RS true) =
   matricesReport (numVertices graph) (List.length RS) graph RS ++
   flat_map (gateReport gates) (seq 0 (numVertices graph))) /\
  (forall numQubits,
     fst (findHTCircuitFixed grb numQubits graph RS true) = Ok (Some gates) ->
     snd (findHTCircuitFixed grb numQubits graph RS true) =
     matricesReport numQubits numQubits graph RS ++
     flat_map (gateReport gates) (seq 0 numQubits)).
Proof.
  split; [|intros numQubits]; apply body_verbose_output.
Qed.

Lemma verbose_output_of_returned_gates_witness :
  let grb := checkingSolver (onesAt [0; 3; 4; 7; 9; 10]%nat) in
  let RS := [Pauli_of_string "XZ"; Pauli_of_string "ZX"] in
  let gates := [mkGate 1 0 0 1; mkGate 1 0 0 1] in
  fst (findHTCircuit grb (edgeGraph 2) RS true) = Ok (Some gates) /\
  snd (findHTCircuit grb (edgeGraph 2) RS true) =
  matricesReport 2 2 (edgeGraph 2) RS ++
  flat_map (gateReport gates) (seq 0 2).
Proof.
  cbv zeta.
  assert (R : fst (findHTCircuit
                     (checkingSolver (onesAt [0; 3; 4; 7; 9; 10]%nat))
                     (edgeGraph 2)
                     [Pauli_of_string "XZ"; Pauli_of_string "ZX"] true) =
              Ok (Some [mkGate 1 0 0 1; mkGate 1 0 0 1]))
    by (vm_compute; reflexivity).
  split; [exact R|].
  exact (proj1 (verbose_output_of_returned_gates
                  (checkingSolver (onesAt [0; 3; 4; 7; 9; 10]%nat))
                  (edgeGraph 2)
                  [Pauli_of_string "XZ"; Pauli_of_string "ZX"]
                  [mkGate 1 0 0 1; mkGate 1 0 0 1]) R).
Defined.

End VerboseOutput.

(** ** What the rendering keeps *)

Section Rendering.

Lemma allPauli_toStringFrom (p : Pauli) (k : nat) :
  forall i, allPauli (toStringFrom p i k) = true.
Proof.
  induction k as [|k IH]; intros i; cbn [toStringFrom allPauli].
  - reflexivity.
  - rewrite isPauliChar_pauliChar, IH. reflexivity.
Qed.

Lemma testbit_mod_pow2 (a k j : Z) :
  0 <= k -> 0 <= j ->
  Z.testbit (a mod 2 ^ k) j = (j <? k) && Z.testbit a j.
Proof.
  intros Hk Hj. destruct (Z.ltb_spec j k) as [Hlt|Hge].
  - rewrite Z.mod_pow2_bits_low by lia. reflexivity.
  - rewrite Z.mod_pow2_bits_high by lia. reflexivity.
Qed.

(** X19.  [toString()] shows neither the phase nor a bit at or above the
    length: for an operator of length at most 64, the operator built from
    its rendering has the same length, the X and Z bits below the length
    and no other, the conventional phase 0, and the same rendering. *)
Theorem toString_keeps_bits_below_length (p : Pauli)
  (Hn : 0 <= n p <= 64) :
  let q := Pauli_of_string (toString p) in
  r q = r p mod 2 ^ n p /\
  s q = s p mod 2 ^ n p /\
  n q = n p /\
  getPhase q = 0 /\
  toString q = toString p.
Proof.
  cbv zeta. rewrite Pauli_of_string_parts.
  destruct (marked_parts EmptyString (toString p) (cleanStart_toString p)
              (or_introl eq_refl)) as [Em Eb].
  cbn [String.append] in Em, Eb. rewrite Em, Eb. cbv zeta.
  change (markerValue EmptyString) with 0.
  destruct (fromStringOperator_n_phase 0 (toString p)) as (Hlen & Hp).
  assert (Hsize : String.length (toString p) = Z.to_nat (n p))
    by (unfold toString; apply length_toStringFrom).
  assert (Hshort : (String.length (toString p) <= 64)%nat)
    by (rewrite Hsize; lia).
  set (p1 := fromStringOperator (startOperator 0) (toString p)) in *.
  assert (Hr : r p1 = r p mod 2 ^ n p).
  { apply Z.bits_inj'. intros j Hj.
    destruct (fromStringOperator_bits 0 (toString p) j Hshort Hj) as [E _].
    fold p1 in E. rewrite E.
    destruct (bitFrom_toString p j Hn Hj) as [-> _].
    rewrite testbit_mod_pow2 by lia. reflexivity. }
  assert (Hs : s p1 = s p mod 2 ^ n p).
  { apply Z.bits_inj'. intros j Hj.
    destruct (fromStringOperator_bits 0 (toString p) j Hshort Hj) as [_ E].
    fold p1 in E. rewrite E.
    destruct (bitFrom_toString p j Hn Hj) as [_ ->].
    rewrite testbit_mod_pow2 by lia. reflexivity. }
  assert (Hn1 : n p1 = n p) by (rewrite Hlen, Hsize; lia).
  unfold increasePhase. cbn [r s n].
  split; [exact Hr|]. split; [exact Hs|]. split; [exact Hn1|].
  split.
  - unfold getPhase, getYPhase. cbn [r s phase]. rewrite Hp.
    unfold BinaryPhase.add, BinaryPhase.sub, BinaryPhase.make.
    generalize (Word64.popcount (Z.land (r p1) (s p1))). intros c.
    Z.div_mod_to_equations. lia.
  - apply (toString_parsed 0 (toString p)).
    + unfold toString. apply allPauli_toStringFrom.
    + rewrite Hsize. lia.
    + reflexivity.
    + reflexivity.
    + cbn [n]. fold p1. rewrite Hn1, Hsize. lia.
Qed.

Lemma toString_keeps_bits_below_length_witness :
  let p := setX (Pauli_of_string "-iXY") 5 1 in
  r p = 35 /\ toString p = "XY"%string /\
  r (Pauli_of_string (toString p)) = 3 /\
  getPhase p = 3 /\ getPhase (Pauli_of_string (toString p)) = 0.
Proof.
  cbv zeta.
  destruct (toString_keeps_bits_below_length
              (setX (Pauli_of_string "-iXY") 5 1) ltac:(cbv; split; discriminate))
    as (Hr & _ & _ & Hp & _).
  split; [reflexivity|]. split; [reflexivity|].
  split; [exact Hr|]. split; [reflexivity|exact Hp].
Defined.

End Rendering.

(** ** Phase markers and phase updates *)

Section MarkerPhase.

Lemma fromStringLoop_fields (str : string) :
  forall i p q,
    r p = r q -> s p = s q ->
    r (fromStringLoop str i p) = r (fromStringLoop str i q) /\
    s (fromStringLoop str i p) = s (fromStringLoop str i q).
Proof.
  induction str as [|c rest IH]; intros i p q Hr Hs; cbn [fromStringLoop].
  - split; assumption.
  - apply IH.
    + rewrite !fromStringStep_r, Hr. reflexivity.
    + rewrite !fromStringStep_s, Hs. reflexivity.
Qed.

Lemma fromStringOperator_phase_free (k1 k2 : Z) (body : string) :
  let p1 := fromStringOperator (startOperator k1) body in
  let p2 := fromStringOperator (startOperator k2) body in
  r p1 = r p2 /\ s p1 = s p2 /\ n p1 = n p2.
Proof.
  cbv zeta.
  destruct (fromStringOperator_n_phase k1 body) as (Hn1 & _).
  destruct (fromStringOperator_n_phase k2 body) as (Hn2 & _).
  unfold fromStringOperator.
  destruct (fromStringLoop_fields body 0
              (mkPauli (r (startOperator k1)) (s (startOperator k1))
                 (Z.of_nat (String.length body)) (phase (startOperator k1)))
              (mkPauli (r (startOperator k2)) (s (startOperator k2))
                 (Z.of_nat (String.length body)) (phase (startOperator k2)))
              eq_refl eq_refl) as [Hr Hs].
  split; [exact Hr|]. split; [exact Hs|].
  unfold fromStringOperator in Hn1, Hn2. congruence.
Qed.

(** X20.  A phase marker in front of an operator string acts as
    [increasePhase]: for a string [body] that starts with one of [I], [X],
    [Y], [Z] (or is empty), the operator built from [i], [-] or [-i]
    followed by [body] is the operator built from [body] with its phase
    increased by 1, 2 or 3. *)
Theorem marker_acts_as_increasePhase (marker body : string)
  (Hm : isMarker marker) (Hclean : cleanStart body) :
  Pauli_of_string (String.append marker body) =
  increasePhase (Pauli_of_string body) (markerValue marker).
Proof.
  rewrite !Pauli_of_string_parts. cbv zeta.
  destruct (marked_parts marker body Hclean Hm) as [-> ->].
  destruct (marked_parts EmptyString body Hclean (or_introl eq_refl))
    as [Em Eb].
  cbn [String.append] in Em, Eb. rewrite Em, Eb.
  change (markerValue EmptyString) with 0.
  set (k := markerValue marker).
  destruct (fromStringOperator_phase_free k 0 body) as (Hr & Hs & Hn).
  destruct (fromStringOperator_n_phase k body) as (_ & Hp1).
  destruct (fromStringOperator_n_phase 0 body) as (_ & Hp0).
  set (p1 := fromStringOperator (startOperator k) body) in *.
  set (p0 := fromStringOperator (startOperator 0) body) in *.
  apply Pauli_ext; unfold increasePhase; cbn [r s n phase];
    try assumption.
  unfold getYPhase. rewrite Hr, Hs, Hp1, Hp0.
  unfold BinaryPhase.add, BinaryPhase.make.
  generalize (Word64.popcount (Z.land (r p0) (s p0))). intros c.
  Z.div_mod_to_equations. lia.
Qed.

Lemma marker_acts_as_increasePhase_witness :
  Pauli_of_string "-iXYZ" = increasePhase (Pauli_of_string "XYZ") 3.
Proof.
  exact (marker_acts_as_increasePhase "-i" "XYZ"
           (or_intror (or_intror (or_introl eq_refl))) eq_refl).
Defined.

End MarkerPhase.
